(** * Voice-to-CRM: a shallow embedding of [src/voice/voice-to-crm.py]

    The development follows the Python module top to bottom:

    - [Str]: Python [str] values and the string methods the module calls
      ([lower], [upper], [strip], [split], [replace], [in], [join]);
    - [Re]: the fragment of Python's [re] the module's patterns use, as a
      backtracking matcher that lists every way a pattern can match in the
      order in which Python's engine tries them;
    - [Difflib]: [difflib.get_close_matches] over [SequenceMatcher];
    - [Dict]: a Python [dict] with string keys, insertion ordered;
    - [Crm]: the functions of the module, one definition per [def];
    - then the properties of these functions.

    Text model.  A Python string is a sequence of code points; here it is a
    list of [ascii] characters and the case, space and word classes are the
    ones Python gives to the 7-bit ASCII repertoire.  The upper half of
    [ascii] is treated as caseless symbols, which is not what Python does
    with the letters outside ASCII (their case forms can be several
    characters long, and [re.IGNORECASE] folds some of them onto ASCII
    letters).  A property that Python keeps for ASCII text only says so in
    a hypothesis, [is_ascii_text].

    Similarity ratios.  Python computes [2.0 * M / T] in double precision and
    compares it with the literals [0.6] and [0.65]; here the ratio is the
    exact fraction [2 * M / T] and the comparison is done by cross
    multiplication, which gives the same answer for every text whose length
    fits a machine word. *)

From Stdlib Require Import List Ascii Bool Arith Lia PeanoNat Sorted.
From Stdlib.Strings Require Import Byte.
Import ListNotations.

Set Implicit Arguments.
Set Warnings "-via-type-mismatch,-via-type-remapping".

(* ================================================================= *)
(** ** Strings *)

Module Str.

Definition str := list ascii.

Inductive lit : Set := LNil | LCons (a : ascii) (l : lit).

Fixpoint lit_of_bytes (l : list Byte.byte) : lit :=
  match l with
  | [] => LNil
  | b :: r => LCons (ascii_of_byte b) (lit_of_bytes r)
  end.

Fixpoint bytes_of_lit (s : lit) : list Byte.byte :=
  match s with
  | LNil => []
  | LCons a r => byte_of_ascii a :: bytes_of_lit r
  end.

Declare Scope str_scope.
Delimit Scope str_scope with str.
String Notation str lit_of_bytes bytes_of_lit
  (via lit mapping [[nil] => LNil, [cons] => LCons]) : str_scope.

Definition code (c : ascii) : nat := nat_of_ascii c.

Definition between (lo hi : nat) (c : ascii) : bool :=
  (lo <=? code c) && (code c <=? hi).

(** [c.isupper()], [c.islower()], [c.isdigit()] on one ASCII character. *)
Definition is_upper (c : ascii) : bool := between 65 90 c.
Definition is_lower (c : ascii) : bool := between 97 122 c.
Definition is_digit (c : ascii) : bool := between 48 57 c.

(** [c.isspace()]: tab, line feed, vertical tab, form feed, carriage return,
    the four separators 0x1c..0x1f and the space. *)
Definition is_space (c : ascii) : bool :=
  between 9 13 c || between 28 32 c.

(** The class [\w] of [re]: letters, digits and the underscore. *)
Definition is_word (c : ascii) : bool :=
  is_upper c || is_lower c || is_digit c || (code c =? 95).

Definition lower_char (c : ascii) : ascii :=
  if is_upper c then ascii_of_nat (code c + 32) else c.

Definition upper_char (c : ascii) : ascii :=
  if is_lower c then ascii_of_nat (code c - 32) else c.

(** [s.lower()] and [s.upper()]. *)
Definition lower (s : str) : str := map lower_char s.
Definition upper (s : str) : str := map upper_char s.

Definition eqb_char (a b : ascii) : bool := Ascii.eqb a b.

Fixpoint eqb (s t : str) : bool :=
  match s, t with
  | [], [] => true
  | a :: s', b :: t' => eqb_char a b && eqb s' t'
  | _, _ => false
  end.

(** [s < t] on strings: lexicographic on code points. *)
Fixpoint ltb (s t : str) : bool :=
  match s, t with
  | _, [] => false
  | [], _ :: _ => true
  | a :: s', b :: t' =>
      if code a <? code b then true
      else if code b <? code a then false
      else ltb s' t'
  end.

(** [t.startswith(p)]. *)
Fixpoint startswith (p t : str) : bool :=
  match p, t with
  | [], _ => true
  | a :: p', b :: t' => eqb_char a b && startswith p' t'
  | _ :: _, [] => false
  end.

(** [p in t]: [p] occurs in [t] as a contiguous substring. *)
Fixpoint contains (p t : str) : bool :=
  startswith p t ||
  match t with
  | [] => false
  | _ :: t' => contains p t'
  end.

Fixpoint lstrip (s : str) : str :=
  match s with
  | c :: r => if is_space c then lstrip r else s
  | [] => []
  end.

Definition rstrip (s : str) : str := rev (lstrip (rev s)).

(** [s.strip()]. *)
Definition strip (s : str) : str := rstrip (lstrip s).

(** [s.split()]: the maximal runs of non-space characters, left to right.
    [cur] is the run being read, reversed. *)
Fixpoint split_go (cur : str) (s : str) : list str :=
  match s with
  | [] => match cur with [] => [] | _ => [rev cur] end
  | c :: r =>
      if is_space c
      then match cur with
           | [] => split_go [] r
           | _ => rev cur :: split_go [] r
           end
      else split_go (c :: cur) r
  end.

Definition split (s : str) : list str := split_go [] s.

(** [sep.join(ws)]. *)
Fixpoint join (sep : str) (ws : list str) : str :=
  match ws with
  | [] => []
  | [w] => w
  | w :: ws' => w ++ sep ++ join sep ws'
  end.

(** [s.replace(old, new)]: every non-overlapping occurrence of [old], left
    to right.  [skip] counts the characters of the occurrence just replaced
    that are still to be dropped. *)
Fixpoint replace_go (old new : str) (skip : nat) (s : str) : str :=
  match s with
  | [] => []
  | c :: r =>
      match skip with
      | S k => replace_go old new k r
      | O =>
          if startswith old s
          then new ++ replace_go old new (length old - 1) r
          else c :: replace_go old new 0 r
      end
  end.

Definition replace (old new : str) (s : str) : str :=
  match old with
  | [] => new ++ flat_map (fun c => c :: new) s
  | _ => replace_go old new 0 s
  end.

(** Truth value of a string: [bool(s)]. *)
Definition truthy (s : str) : bool :=
  match s with [] => false | _ => true end.

End Str.

Import Str.
Open Scope str_scope.

(* ================================================================= *)
(** ** Regular expressions *)

Module Re.

(** The constructs the module's patterns are written with.  Unbounded
    repetition only ever applies to a character class in these patterns, and
    the bounded repetition [{0,2}] is written out with [Opt]. *)
Inductive re : Type :=
| Lit (s : str)                        (* literal text *)
| Cls (p : ascii -> bool)              (* one character of a class *)
| Star (lazy : bool) (p : ascii -> bool) (* [p*] or [p*?] *)
| Seq (r1 r2 : re)
| Alt (r1 r2 : re)
| Opt (r : re)                         (* [(?:r)?] *)
| Grp (r : re)                         (* the capturing group, number 1 *)
| WordB                                (* [\b] *)
| Bol                                  (* [^] *)
| Eol.                                 (* [$] *)

(** A position in the subject: the characters already passed (latest
    first), the characters ahead, and what group 1 has captured. *)
Record cursor : Type := Cursor {
  seen : str;
  ahead : str;
  group1 : option str
}.

Fixpoint advance (n : nat) (c : cursor) : cursor :=
  match n, ahead c with
  | S k, x :: r => advance k (Cursor (x :: seen c) r (group1 c))
  | _, _ => c
  end.

Definition same_char (ic : bool) (a b : ascii) : bool :=
  if ic then eqb_char (lower_char a) (lower_char b) else eqb_char a b.

(** Does the literal [p] start the text [t]?  With [ic] (the flag
    [re.IGNORECASE]) letter case is not compared. *)
Fixpoint lit_ahead (ic : bool) (p t : str) : bool :=
  match p, t with
  | [], _ => true
  | a :: p', b :: t' => same_char ic a b && lit_ahead ic p' t'
  | _ :: _, [] => false
  end.

Definition in_class (ic : bool) (p : ascii -> bool) (x : ascii) : bool :=
  if ic then p x || p (lower_char x) || p (upper_char x) else p x.

(** Every run of class characters that can be taken at the cursor: longest
    first when greedy, shortest first when lazy. *)
Fixpoint runs (lazy ic : bool) (p : ascii -> bool)
         (sn : str) (g : option str) (ah : str) : list cursor :=
  let here := Cursor sn ah g in
  match ah with
  | x :: r =>
      if in_class ic p x
      then if lazy
           then here :: runs lazy ic p (x :: sn) g r
           else runs lazy ic p (x :: sn) g r ++ [here]
      else [here]
  | [] => [here]
  end.

Definition head_is (p : ascii -> bool) (s : str) : bool :=
  match s with
  | x :: _ => p x
  | [] => false
  end.

(** [\b]: exactly one side of the position is a word character. *)
Definition at_boundary (c : cursor) : bool :=
  xorb (head_is is_word (seen c)) (head_is is_word (ahead c)).

Definition newline : ascii := ascii_of_nat 10.

(** [$] without [re.MULTILINE]: the end of the text, or just before a line
    feed that ends the text. *)
Definition at_end (c : cursor) : bool :=
  match ahead c with
  | [] => true
  | [x] => eqb_char x newline
  | _ => false
  end.

(** The text between two cursors of one match. *)
Definition captured (c c' : cursor) : str :=
  firstn (length (ahead c) - length (ahead c')) (ahead c).

(** [rmatch ic r c]: every cursor at which [r] can stop when it starts at
    [c], in the order in which the backtracking engine finds them.  The
    engine's answer is the head of the list. *)
Fixpoint rmatch (ic : bool) (r : re) (c : cursor) : list cursor :=
  match r with
  | Lit s => if lit_ahead ic s (ahead c) then [advance (length s) c] else []
  | Cls p =>
      match ahead c with
      | x :: _ => if in_class ic p x then [advance 1 c] else []
      | [] => []
      end
  | Star lazy p => runs lazy ic p (seen c) (group1 c) (ahead c)
  | Seq r1 r2 => flat_map (rmatch ic r2) (rmatch ic r1 c)
  | Alt r1 r2 => rmatch ic r1 c ++ rmatch ic r2 c
  | Opt r1 => rmatch ic r1 c ++ [c]
  | Grp r1 =>
      map (fun c' => Cursor (seen c') (ahead c') (Some (captured c c')))
          (rmatch ic r1 c)
  | WordB => if at_boundary c then [c] else []
  | Bol => match seen c with [] => [c] | _ => [] end
  | Eol => if at_end c then [c] else []
  end.

(** [pattern.match] at a given position. *)
Definition match_at (ic : bool) (r : re) (sn ah : str) : option cursor :=
  hd_error (rmatch ic r (Cursor sn ah None)).

(** [re.search]: the match at the leftmost position that has one. *)
Fixpoint search_from (ic : bool) (r : re) (sn ah : str) : option cursor :=
  match match_at ic r sn ah with
  | Some c => Some c
  | None =>
      match ah with
      | [] => None
      | x :: ah' => search_from ic r (x :: sn) ah'
      end
  end.

Definition search (ic : bool) (r : re) (s : str) : option cursor :=
  search_from ic r [] s.

(** [m.group(1)]. *)
Definition group (c : cursor) : str :=
  match group1 c with
  | Some g => g
  | None => []
  end.

(** [re.sub(r, repl, s)] for a pattern that matches no empty string (all
    patterns this module substitutes with are such): each match, found
    left to right, is replaced by [repl], and the search resumes where the
    match stopped.  [skip] counts the characters of the last match still to
    be passed over. *)
Fixpoint sub_go (ic : bool) (r : re) (repl : str)
         (skip : nat) (sn ah : str) : str :=
  match ah with
  | [] => []
  | x :: ah' =>
      match skip with
      | S k => sub_go ic r repl k (x :: sn) ah'
      | O =>
          match match_at ic r sn ah with
          | Some c =>
              match length ah - length (ahead c) with
              | S k => repl ++ sub_go ic r repl k (x :: sn) ah'
              | O => x :: sub_go ic r repl 0 (x :: sn) ah'
              end
          | None => x :: sub_go ic r repl 0 (x :: sn) ah'
          end
      end
  end.

Definition sub (ic : bool) (r : re) (repl : str) (s : str) : str :=
  sub_go ic r repl 0 [] s.

(** Pattern-writing helpers. *)
Fixpoint seq (rs : list re) : re :=
  match rs with
  | [] => Lit []
  | [r] => r
  | r :: rs' => Seq r (seq rs')
  end.

Fixpoint alt (rs : list re) : re :=
  match rs with
  | [] => Cls (fun _ => false)
  | [r] => r
  | r :: rs' => Alt r (alt rs')
  end.

Definition lits (ws : list str) : re := alt (map Lit ws).

Definition plus (lazy : bool) (p : ascii -> bool) : re :=
  Seq (Cls p) (Star lazy p).

(** [.] without [re.DOTALL]. *)
Definition dot (x : ascii) : bool := negb (eqb_char x newline).

Definition one_of (s : str) (x : ascii) : bool :=
  existsb (eqb_char x) s.

End Re.

Import Re.

(* ================================================================= *)
(** ** [difflib] *)

Module Difflib.

(** [SequenceMatcher(None, a, b)]: no junk predicate, [autojunk] on. *)

Fixpoint indices_from (x : ascii) (j : nat) (b : str) : list nat :=
  match b with
  | [] => []
  | y :: b' =>
      if eqb_char x y
      then j :: indices_from x (S j) b'
      else indices_from x (S j) b'
  end.

Definition occurrences (x : ascii) (b : str) : nat :=
  length (indices_from x 0 b).

(** An element of [b] is popular when [b] has 200 elements or more and the
    element fills more than 1% of it, plus one. *)
Definition popular (b : str) (x : ascii) : bool :=
  (200 <=? length b) && (length b / 100 + 1 <? occurrences x b).

(** [b2j.get(x, [])] after [__chain_b]: where [x] occurs in [b], unless
    [x] is popular. *)
Definition b2j (b : str) (x : ascii) : list nat :=
  if popular b x then [] else indices_from x 0 b.

Definition at_index (s : str) (i : nat) : ascii := nth i s zero.

Fixpoint lookup (j : nat) (d : list (nat * nat)) : nat :=
  match d with
  | [] => 0
  | (j', k) :: d' => if j =? j' then k else lookup j d'
  end.

(** [j2len.get(j - 1, 0)]. *)
Definition prev_len (j2len : list (nat * nat)) (j : nat) : nat :=
  match j with
  | O => 0
  | S j' => lookup j' j2len
  end.

Record block : Type := Block { besti : nat; bestj : nat; bestsize : nat }.

Section FindLongestMatch.

Variables (a b : str) (alo ahi blo bhi : nat).

(** The body of [for j in b2j.get(a[i], nothing)]. *)
Definition scan_j (i : nat) (j2len : list (nat * nat))
           (st : block * list (nat * nat)) (j : nat)
  : block * list (nat * nat) :=
  let (best, newj2len) := st in
  if j <? blo then st
  else if bhi <=? j then st
  else
    let k := prev_len j2len j + 1 in
    let newj2len' := (j, k) :: newj2len in
    if bestsize best <? k
    then (Block (i + 1 - k) (j + 1 - k) k, newj2len')
    else (best, newj2len').

(** The body of [for i in range(alo, ahi)]. *)
Definition scan_i (st : block * list (nat * nat)) (i : nat)
  : block * list (nat * nat) :=
  let (best, j2len) := st in
  fold_left (scan_j i j2len) (b2j b (at_index a i)) (best, []).

(** First [while]: grow the block to the left while the elements agree. *)
Fixpoint extend_left (bi bj bs : nat) : block :=
  match bi, bj with
  | S bi', S bj' =>
      if (alo <=? bi') && (blo <=? bj')
         && eqb_char (at_index a bi') (at_index b bj')
      then extend_left bi' bj' (S bs)
      else Block bi bj bs
  | _, _ => Block bi bj bs
  end.

(** Second [while]: grow it to the right; [room] is [ahi - (bi + bs)]. *)
Fixpoint extend_right (room : nat) (bi bj bs : nat) : block :=
  match room with
  | O => Block bi bj bs
  | S room' =>
      if (bj + bs <? bhi)
         && eqb_char (at_index a (bi + bs)) (at_index b (bj + bs))
      then extend_right room' bi bj (S bs)
      else Block bi bj bs
  end.

(** [find_longest_match(alo, ahi, blo, bhi)].  The two last loops of the
    Python function extend the block over junk and never run here, the set
    of junk elements being empty. *)
Definition find_longest_match : block :=
  let best0 :=
    fst (fold_left scan_i (List.seq alo (ahi - alo)) (Block alo blo 0, [])) in
  let best1 := extend_left (besti best0) (bestj best0) (bestsize best0) in
  extend_right (ahi - (besti best1 + bestsize best1))
               (besti best1) (bestj best1) (bestsize best1).

End FindLongestMatch.

(** The sum of the sizes of [get_matching_blocks()]: the longest block of
    the window, then the blocks to its left and to its right.  A window of
    [a] loses at least one element at each level, so [fuel] above the
    length of [a] is never exhausted. *)
Fixpoint matched (fuel : nat) (a b : str) (alo ahi blo bhi : nat) : nat :=
  match fuel with
  | O => 0
  | S fuel' =>
      let m := find_longest_match a b alo ahi blo bhi in
      let (i, j) := (besti m, bestj m) in
      let k := bestsize m in
      if k =? 0 then 0
      else
        k
        + (if (alo <? i) && (blo <? j)
           then matched fuel' a b alo i blo j else 0)
        + (if (i + k <? ahi) && (j + k <? bhi)
           then matched fuel' a b (i + k) ahi (j + k) bhi else 0)
  end.

(** A ratio is kept as a fraction, numerator and denominator. *)
Definition fraction : Type := (nat * nat)%type.

(** [_calculate_ratio(matches, length)]. *)
Definition calculate_ratio (matches len : nat) : fraction :=
  if len =? 0 then (1, 1) else (2 * matches, len).

Definition frac_leb (x y : fraction) : bool :=
  fst x * snd y <=? fst y * snd x.

Definition frac_ltb (x y : fraction) : bool :=
  fst x * snd y <? fst y * snd x.

(** [s.ratio()] with [a] as first and [b] as second sequence. *)
Definition ratio (a b : str) : fraction :=
  calculate_ratio (matched (S (length a)) a b 0 (length a) 0 (length b))
                  (length a + length b).

Fixpoint remove_one (x : ascii) (b : str) : option str :=
  match b with
  | [] => None
  | y :: b' =>
      if eqb_char x y then Some b'
      else option_map (cons y) (remove_one x b')
  end.

(** The count of [quick_ratio()]: elements of [a] paired off with equal
    elements of [b]. *)
Fixpoint quick_matches (a b : str) : nat :=
  match a with
  | [] => 0
  | x :: a' =>
      match remove_one x b with
      | Some b' => S (quick_matches a' b')
      | None => quick_matches a' b
      end
  end.

Definition quick_ratio (a b : str) : fraction :=
  calculate_ratio (quick_matches a b) (length a + length b).

Definition real_quick_ratio (a b : str) : fraction :=
  calculate_ratio (Nat.min (length a) (length b)) (length a + length b).

(** Is the scored word [y] greater than [x] as a Python tuple? *)
Definition scored_ltb (x y : fraction * str) : bool :=
  frac_ltb (fst x) (fst y)
  || (frac_leb (fst x) (fst y) && frac_leb (fst y) (fst x)
      && Str.ltb (snd x) (snd y)).

(** [max(result)]: the first greatest element. *)
Fixpoint largest (best : fraction * str) (l : list (fraction * str))
  : fraction * str :=
  match l with
  | [] => best
  | y :: l' => largest (if scored_ltb best y then y else best) l'
  end.

(** [get_close_matches(word, possibilities, n=1, cutoff=cutoff)]. *)
Definition get_close_matches (word : str) (possibilities : list str)
           (cutoff : fraction) : list str :=
  let good x :=
    frac_leb cutoff (real_quick_ratio x word)
    && frac_leb cutoff (quick_ratio x word)
    && frac_leb cutoff (ratio x word) in
  let result :=
    map (fun x => (ratio x word, x)) (filter good possibilities) in
  match result with
  | [] => []
  | r :: rs => [snd (largest r rs)]
  end.

End Difflib.

(* ================================================================= *)
(** ** Dictionaries *)

(** A Python [dict] keyed by strings.  The entries are kept in insertion
    order, which [dict.keys()], [dict.values()] and the stable [sorted]
    observe; assigning to a key that is present keeps the key's place. *)
Module Dict.

Section WithValues.

Variable V : Type.

Definition dict : Type := list (str * V).

Definition empty : dict := [].

(** [d.get(k)]. *)
Fixpoint get (k : str) (d : dict) : option V :=
  match d with
  | [] => None
  | (k', v) :: d' => if Str.eqb k k' then Some v else get k d'
  end.

(** [d[k] = v]. *)
Fixpoint set (k : str) (v : V) (d : dict) : dict :=
  match d with
  | [] => [(k, v)]
  | (k', v') :: d' =>
      if Str.eqb k k' then (k', v) :: d' else (k', v') :: set k v d'
  end.

(** [k in d]. *)
Definition mem (k : str) (d : dict) : bool :=
  match get k d with
  | Some _ => true
  | None => false
  end.

Definition keys (d : dict) : list str := map fst d.
Definition values (d : dict) : list V := map snd d.

End WithValues.

Arguments empty {V}.

End Dict.

(* ================================================================= *)
(** ** The world outside the process *)

(** What the process does to the outside, in the order it does it. *)
Inductive event : Type :=
| Get (path : str)                            (* [requests.get] *)
| Post (path : str) (payload : Dict.dict str) (* [requests.post] *)
| Print (msg : str)                           (* [print] to stdout *)
| Warn (msg : str).                           (* [print] to stderr *)

(** The answer to a [requests.post]: a status code, or an exception with
    its message. *)
Inductive reply : Type :=
| Status (code : nat)
| Raised (why : str).

(** What the outside answers.  A source that cannot be read, or whose
    answer is not a JSON object, is [None]: the [except Exception: pass]
    of the reader.  A pipeline deal is [Some account], the account being a
    string, or, without an ["account"] entry, [None]; the backup answer is
    the list of the keys of its ["keys"] object. *)
Record world : Type := World {
  pipeline : option (list (option str));
  backup : option (list str);
  notes : Dict.dict str -> reply;
  clock : nat -> str                  (* [datetime.now().isoformat()] *)
}.

Record state : Type := State {
  trace : list event;
  ticks : nat
}.

Definition initial : state := State [] 0.

(** Computations that act on the outside. *)
Definition M (A : Type) : Type := state -> A * state.

Definition ret {A : Type} (x : A) : M A := fun s => (x, s).

Definition bind {A B : Type} (c : M A) (k : A -> M B) : M B :=
  fun s => let (x, s') := c s in k x s'.

Declare Scope crm_scope.
Delimit Scope crm_scope with crm.
Notation "x <- c ;; k" := (bind c (fun x => k))
  (at level 61, c at next level, right associativity) : crm_scope.
Notation "c ;; k" := (bind c (fun _ => k))
  (at level 61, right associativity) : crm_scope.
Open Scope crm_scope.

Definition emit (e : event) : M unit :=
  fun s => (tt, State (trace s ++ [e]) (ticks s)).

Definition now (w : world) : M str :=
  fun s => (clock w (ticks s), State (trace s) (S (ticks s))).

(* ================================================================= *)
(** ** The module [voice-to-crm.py] *)

Module Crm.

Import Difflib.

(** *** Activity type detection *)

Inductive activity : Type := Call | Email | Meeting | Note.

(** The dictionary keys ["call"], ["email"], ["meeting"], ["note"]. *)
Definition activity_name (t : activity) : str :=
  match t with
  | Call => "call"
  | Email => "email"
  | Meeting => "meeting"
  | Note => "note"
  end.

Definition activity_eqb (t u : activity) : bool :=
  match t, u with
  | Call, Call | Email, Email | Meeting, Meeting | Note, Note => true
  | _, _ => false
  end.

(** A pattern of the form [\b ... \b]. *)
Definition word (r : re) : re := seq [WordB; r; WordB].

Definition ACTIVITY_PATTERNS : list (activity * list re) :=
  [ (Call,
     [ word (Seq (Lit "call") (Opt (lits ["ed"; "ing"])));
         (* \bcall(?:ed|ing)?\b *)
       word (Seq (Lit "phon") (lits ["e"; "ed"; "ing"]));
         (* \bphon(?:e|ed|ing)\b *)
       word (Lit "rang");
       word (Seq (Lit "spoke ") (lits ["to"; "with"]));
         (* \bspoke (?:to|with)\b *)
       word (Seq (Lit "talked ") (lits ["to"; "with"]));
         (* \btalked (?:to|with)\b *)
       word (Lit "dialed");
       word (Lit "log a call");
       word (Lit "cold call");
       word (Lit "phone call") ]);
    (Email,
     [ word (Seq (Lit "email") (Opt (lits ["ed"; "ing"])));
         (* \bemail(?:ed|ing)?\b *)
       word (seq [Lit "e"; Opt (Lit "-"); Lit "mail"]);
         (* \be-?mail\b *)
       word (seq [Lit "sent "; Opt (lits ["a "; "an "]);
                  lits ["email"; "message"; "note"]]);
         (* \bsent (?:a |an )?(?:email|message|note)\b *)
       word (Lit "inbox");
       word (Lit "wrote to");
       word (Lit "followed up via email") ]);
    (Meeting,
     [ word (Seq (Lit "m") (lits ["et"; "eeting"]));
         (* \bm(?:et|eeting)\b *)
       word (Lit "sat down with");
       word (Seq (Lit "visit") (Opt (lits ["ed"; "ing"])));
         (* \bvisit(?:ed|ing)?\b *)
       word (Lit "site visit");
       word (Seq (Lit "demo")
                 (Opt (Seq (Lit "nstrat") (lits ["ed"; "ion"]))));
         (* \bdemo(?:nstrat(?:ed|ion))?\b *)
       word (Seq (Lit "present") (lits ["ed"; "ation"]));
         (* \bpresent(?:ed|ation)\b *)
       word (Seq (Lit "lunch") (Opt (Lit "ed")));
         (* \blunch(?:ed)?\b *)
       word (Lit "coffee with");
       word (Lit "teams call");
       word (Lit "zoom");
       word (Lit "webex");
       word (Lit "in-person");
       word (Lit "face to face") ]);
    (Note,
     [ word (Lit "note");
       word (Lit "update");
       word (Lit "fyi");
       word (Lit "heads up");
       word (seq [Lit "just "; Opt (Lit "a "); Opt (Lit "quick ");
                  Lit "note"]);
         (* \bjust (?:a )?(?:quick )?note\b *)
       word (Lit "reminder") ]) ].

(** [re.search(pattern, text)] as a truth value. *)
Definition found (ic : bool) (r : re) (text : str) : bool :=
  match search ic r text with
  | Some _ => true
  | None => false
  end.

(** The score of one activity type: one point per pattern found. *)
Definition score_of (patterns : list re) (text_lower : str) : nat :=
  length (filter (fun p => found false p text_lower) patterns).

(** The dictionary [scores] once the two loops are done, in key order. *)
Definition scores_of (text_lower : str) : list (activity * nat) :=
  map (fun tp => (fst tp, score_of (snd tp) text_lower)) ACTIVITY_PATTERNS.

(** [max(scores, key=scores.get)]: the first key, in key order, whose
    score no other key exceeds. *)
Fixpoint max_key (best : activity * nat) (l : list (activity * nat))
  : activity * nat :=
  match l with
  | [] => best
  | x :: l' => max_key (if snd best <? snd x then x else best) l'
  end.

Definition detect_activity_type (text : str) : activity :=
  let text_lower := lower text in
  let scores := scores_of text_lower in
  match scores with
  | [] => Note   (* [max] of no key raises; there are four keys *)
  | s :: rest =>
      let best := max_key s rest in
      if 0 <? snd best then fst best else Note
  end.

(** *** Contact name extraction *)

(** (?:with|to|from|and|met|called|emailed|spoke to|talked to|talked with|spoke with)\s+ *)
Definition CONTACT_PREFIXES : list re :=
  [ Seq (lits ["with"; "to"; "from"; "and"; "met"; "called"; "emailed";
                "spoke to"; "talked to"; "talked with"; "spoke with"])
        (plus false is_space) ].

(** \s+[A-Z][a-z]+ *)
Definition next_name : re :=
  seq [plus false is_space; Cls is_upper; plus false is_lower].

(** ([A-Z][a-z]+(?:\s+[A-Z][a-z]+){0,2}) *)
Definition NAME_PATTERN : re :=
  Grp (seq [Cls is_upper; plus false is_lower;
            Opt (Seq next_name (Opt next_name))]).

Definition skip_words : list str :=
  [ "Monday"; "Tuesday"; "Wednesday"; "Thursday"; "Friday";
    "Saturday"; "Sunday"; "January"; "February"; "March";
    "April"; "May"; "June"; "July"; "August"; "September";
    "October"; "November"; "December"; "Today"; "Tomorrow";
    "The"; "This"; "That"; "They"; "Their"; "About";
    "Called"; "Emailed"; "Meeting"; "Note"; "Update" ].

Definition member (x : str) (l : list str) : bool :=
  existsb (Str.eqb x) l.

(** The text the prefixes are searched in. *)
Definition cleaned_text (text account_name : str) : str :=
  if truthy account_name then replace account_name "" text else text.

(** The loop [for prefix in CONTACT_PREFIXES].  [words[0]] is read as the
    head of [words]; group 1 starts with a capital, so [words] has one. *)
Fixpoint try_prefixes (prefixes : list re) (cleaned : str) : str :=
  match prefixes with
  | [] => ""
  | prefix :: more =>
      match search false (Seq prefix NAME_PATTERN) cleaned with
      | Some m =>
          let name := strip (group m) in
          let words := split name in
          if negb (member (hd "" words) skip_words) && (2 <=? length words)
          then name
          else try_prefixes more cleaned
      | None => try_prefixes more cleaned
      end
  end.

Definition extract_contact_name (text account_name : str) : str :=
  try_prefixes CONTACT_PREFIXES (cleaned_text text account_name).

(** *** Account names *)

Definition fallback : list str :=
  [ "Government of Saskatchewan"; "Nutrien Ltd"; "SaskTel";
    "Federated Co-operatives"; "SGI Canada"; "The Mosaic Company";
    "SIGA"; "Brandt Group"; "SaskEnergy"; "Cameco Corporation";
    "Conexus Credit Union"; "Affinity Credit Union"; "Viterra";
    "Saskatchewan WCB"; "City of Saskatoon"; "City of Regina";
    "Saskatchewan Health Authority"; "eHealth Saskatchewan";
    "SaskPower"; "Bunge Canada"; "K+S Potash Canada";
    "Regina General Hospital"; "St Paul's Hospital";
    "Saskatchewan Gaming Corporation"; "Farm Credit Canada";
    "Vecima Networks"; "Bourgault Industries"; "CGI";
    "Prince Albert Grand Council"; "Potash Corp of SK";
    "GSCS"; "SLGA"; "Pharma Choice Canada";
    "Maple Leaf Consumer Foods"; "Trans Gas Ltd";
    "Sun Country Regional Health"; "Five Hills Health Region";
    "Kelsey Trail Health Region"; "Ranch Ehrlo Society";
    "Northern Lights Casino"; "Gold Eagle Casino";
    "Painted Hand Casino"; "Canadian Pacific Railway" ].

(** The loop over the pipeline deals. *)
Definition add_deal (accounts : Dict.dict str) (deal : option str)
  : Dict.dict str :=
  match deal with
  | Some account =>
      if truthy account
      then Dict.set (lower account) account accounts
      else accounts
  | None => accounts
  end.

(** The name a backup key stands for. *)
Definition backup_name (key : str) : str :=
  strip (replace "_" " " (replace "xits_acct_" "" key)).

(** The loop over the backup keys. *)
Definition add_backup_key (accounts : Dict.dict str) (key : str)
  : Dict.dict str :=
  if startswith "xits_acct_" key
  then
    let name := backup_name key in
    if negb (Dict.mem (lower name) accounts)
    then Dict.set (lower name) name accounts
    else accounts
  else accounts.

(** The loop over the hardcoded names. *)
Definition add_fallback (accounts : Dict.dict str) (name : str)
  : Dict.dict str :=
  Dict.set (lower name) name accounts.

(** The dictionary [accounts] after the three sources were read, for any
    hardcoded list. *)
Definition merge_accounts (deals : option (list (option str)))
           (keys : option (list str)) (hardcoded : list str)
  : Dict.dict str :=
  let accounts0 := Dict.empty in
  let accounts1 :=
    match deals with
    | Some ds => fold_left add_deal ds accounts0
    | None => accounts0
    end in
  let accounts2 :=
    match keys with
    | Some ks => fold_left add_backup_key ks accounts1
    | None => accounts1
    end in
  fold_left add_fallback hardcoded accounts2.

Definition fetch_known_accounts (w : world) : M (list str) :=
  emit (Get "/pipeline") ;;
  emit (Get "/backup") ;;
  ret (Dict.values (merge_accounts (pipeline w) (backup w) fallback)).

(** \s*\([^)]*\)\s* *)
Definition parenthetical : re :=
  seq [Star false is_space; Lit "(";
       Star false (fun x => negb (one_of ")" x)); Lit ")";
       Star false is_space].

Definition base_name (name : str) : str :=
  strip (sub false parenthetical " " name).

Definition abbreviation (name : str) : str := filter is_upper name.

Definition first_word (name : str) : str := hd "" (split name).

(** The body of the loop of [build_match_candidates]. *)
Definition add_candidates (candidates : Dict.dict str) (name : str)
  : Dict.dict str :=
  let c1 := Dict.set (lower name) name candidates in
  let base := base_name name in
  let c2 :=
    if negb (Str.eqb (lower base) (lower name))
    then Dict.set (lower base) name c1 else c1 in
  let abbr := abbreviation name in
  let c3 :=
    if 2 <=? length abbr then Dict.set (lower abbr) name c2 else c2 in
  let first := first_word name in
  if 3 <? length first then Dict.set (lower first) name c3 else c3.

Definition build_match_candidates (accounts : list str) : Dict.dict str :=
  fold_left add_candidates accounts Dict.empty.

(** [sorted(names, key=len, reverse=True)]: longest first, names of one
    length in the order they came in. *)
Fixpoint insert_by_len (x : str) (l : list str) : list str :=
  match l with
  | [] => [x]
  | y :: l' =>
      if length y <=? length x then x :: l else y :: insert_by_len x l'
  end.

Definition sorted_by_len (l : list str) : list str :=
  fold_right insert_by_len [] l.

(** [candidates[k]] for a key of the dictionary. *)
Definition item (k : str) (d : Dict.dict str) : str :=
  match Dict.get k d with
  | Some v => v
  | None => ""
  end.

(** Step 1: the first key, longest first, of four characters or more that
    occurs in the lowercased text. *)
Definition exact_key (text_lower : str) (sorted_names : list str)
  : option str :=
  find (fun cand => (4 <=? length cand) && contains cand text_lower)
       sorted_names.

(** (?:at|for|about|with|from|regarding)\s+(.+?)(?:\s+about|\s+regarding|\s*[,.]|\s+and\b|\s+they|\s+we|\s+I\b|$) *)
Definition prep_pattern : re :=
  seq [ lits ["at"; "for"; "about"; "with"; "from"; "regarding"];
        plus false is_space;
        Grp (plus true dot);
        alt [ Seq (plus false is_space) (Lit "about");
              Seq (plus false is_space) (Lit "regarding");
              Seq (Star false is_space) (Cls (one_of ",."));
              seq [plus false is_space; Lit "and"; WordB];
              Seq (plus false is_space) (Lit "they");
              Seq (plus false is_space) (Lit "we");
              seq [plus false is_space; Lit "I"; WordB];
              Eol ] ].

(** The search of step 2, with [re.IGNORECASE]. *)
Definition prep_match (text : str) : option cursor :=
  search true prep_pattern text.

Definition cutoff_prep : fraction := (3, 5).      (* 0.6 *)
Definition cutoff_window : fraction := (13, 20).  (* 0.65 *)

(** Step 2. *)
Definition prep_step (text : str) (candidates : Dict.dict str)
  : option str :=
  match prep_match text with
  | Some m =>
      let fragment := strip (group m) in
      match get_close_matches (lower fragment) (Dict.keys candidates)
                              cutoff_prep with
      | best :: _ => Some (item best candidates)
      | [] => None
      end
  | None => None
  end.

(** [words[i:i + window_size]]. *)
Definition window (words : list str) (i size : nat) : list str :=
  firstn size (skipn i words).

(** Step 3, one window size: the loop over [i]. *)
Fixpoint slide (words : list str) (size : nat) (candidates : Dict.dict str)
         (starts : list nat) : option str :=
  match starts with
  | [] => None
  | i :: more =>
      let fragment := join " " (window words i size) in
      match get_close_matches (lower fragment) (Dict.keys candidates)
                              cutoff_window with
      | best :: _ => Some (item best candidates)
      | [] => slide words size candidates more
      end
  end.

(** Step 3: the loop over the window sizes. *)
Fixpoint window_step (words : list str) (candidates : Dict.dict str)
         (sizes : list nat) : option str :=
  match sizes with
  | [] => None
  | size :: more =>
      match slide words size candidates
                  (List.seq 0 (length words + 1 - size)) with
      | Some name => Some name
      | None => window_step words candidates more
      end
  end.

Definition match_account (text : str) (known_accounts : list str) : str :=
  let text_lower := lower text in
  let candidates := build_match_candidates known_accounts in
  let sorted_names := sorted_by_len (Dict.keys candidates) in
  match exact_key text_lower sorted_names with
  | Some cand => item cand candidates
  | None =>
      match prep_step text candidates with
      | Some name => name
      | None =>
          match window_step (split text) candidates [4; 3; 2] with
          | Some name => name
          | None => ""
          end
      end
  end.

(** *** Summary *)

(** ^(?:I |just |hey |log a \w+ |note |update ) *)
Definition filler_preamble : re :=
  Seq Bol (alt [ Lit "I "; Lit "just "; Lit "hey ";
                 seq [Lit "log a "; plus false is_word; Lit " "];
                 Lit "note "; Lit "update " ]).

(** ^(?:called|emailed|met with|had a meeting with|spoke (?:to|with)|talked (?:to|with))\s+ *)
Definition verb_preamble : re :=
  seq [ Bol;
        alt [ Lit "called"; Lit "emailed"; Lit "met with";
              Lit "had a meeting with";
              Seq (Lit "spoke ") (lits ["to"; "with"]);
              Seq (Lit "talked ") (lits ["to"; "with"]) ];
        plus false is_space ].

Definition preambles : list re := [filler_preamble; verb_preamble].

(** The body of the loop [for p in preambles]. *)
Definition strip_preamble (summary : str) (p : re) : str :=
  strip (sub true p "" summary).

(** The summary before the length test. *)
Definition stripped_summary (text : str) : str :=
  fold_left strip_preamble preambles (strip text).

(** [summary[0].upper() + summary[1:]] when [summary] is not empty. *)
Definition capitalize_first (summary : str) : str :=
  match summary with
  | [] => []
  | c :: rest => upper_char c :: rest
  end.

Definition build_summary (text account contact : str)
           (activity_type : activity) : str :=
  let summary := stripped_summary text in
  let summary := if length summary <? 10 then strip text else summary in
  capitalize_first summary.

(** *** Posting and the main entry point *)

Definition dquote : str := [ascii_of_nat 34].
Definition nl : str := [newline].

Definition post_to_calproxy (w : world) (account contact : str)
           (activity_type : activity) (summary : str) : M bool :=
  stamp <- now w ;;
  let payload : Dict.dict str :=
    [ ("text", "[VOICE LOG] " ++ summary);
      ("account", account);
      ("type", activity_name activity_type);
      ("contact", contact);
      ("source", "voice");
      ("timestamp", stamp) ] in
  emit (Post "/notes" payload) ;;
  match notes w payload with
  | Status code => ret (code =? 200)
  | Raised e =>
      emit (Warn ("Warning: Could not post to cal-proxy: " ++ e)) ;;
      ret false
  end.

(** The values of the result dictionary. *)
Inductive value : Type :=
| VStr (s : str)
| VBool (b : bool).

Definition process_transcription (w : world) (text : str)
  : M (Dict.dict value) :=
  known_accounts <- fetch_known_accounts w ;;
  let activity_type := detect_activity_type text in
  let account := match_account text known_accounts in
  let contact := extract_contact_name text account in
  let summary := build_summary text account contact activity_type in
  stamp <- now w ;;
  let result : Dict.dict value :=
    [ ("account", VStr account);
      ("contact", VStr contact);
      ("activity_type", VStr (activity_name activity_type));
      ("summary", VStr summary);
      ("matched", VBool (truthy account));
      ("timestamp", VStr stamp) ] in
  if negb (truthy account) then
    let msg :=
      "Could not match an account from: " ++ dquote ++ text ++ dquote
      ++ nl ++ "Detected type: " ++ activity_name activity_type in
    let msg :=
      if truthy contact then msg ++ nl ++ "Contact found: " ++ contact
      else msg in
    let msg := msg ++ nl ++ "Please specify the account name." in
    emit (Print msg) ;;
    ret (Dict.set "error" (VStr "account_not_matched") result)
  else
    posted <- post_to_calproxy w account contact activity_type summary ;;
    let result := Dict.set "posted" (VBool posted) result in
    let confirm := "Logged " ++ activity_name activity_type in
    let confirm :=
      if truthy contact then confirm ++ " with " ++ contact else confirm in
    let confirm := confirm ++ " at " ++ account ++ ": " ++ summary in
    let confirm :=
      if negb posted then confirm ++ " (note: cal-proxy sync pending)"
      else confirm in
    emit (Print confirm) ;;
    ret (Dict.set "confirmation" (VStr confirm) result).

End Crm.

Import Crm.

(* ================================================================= *)
(** ** Vocabulary of the properties *)

Module Props.

(** The patterns declared for an activity type. *)
Fixpoint patterns_in (t : activity) (l : list (activity * list re))
  : list re :=
  match l with
  | [] => []
  | (u, ps) :: l' => if activity_eqb t u then ps else patterns_in t l'
  end.

(** The score of a type on a text: how many of its patterns are found in
    the lowercased text. *)
Definition score (t : activity) (text : str) : nat :=
  score_of (patterns_in t ACTIVITY_PATTERNS) (lower text).

(** The place of a type in the declaration order of [ACTIVITY_PATTERNS]. *)
Fixpoint place_in (t : activity) (l : list (activity * list re)) : nat :=
  match l with
  | [] => 0
  | (u, _) :: l' => if activity_eqb t u then 0 else S (place_in t l')
  end.

Definition rank (t : activity) : nat := place_in t ACTIVITY_PATTERNS.

(** The first cue-phrase-plus-name match in the cleaned text, stripped. *)
Definition first_candidate (text account_name : str) : option str :=
  match CONTACT_PREFIXES with
  | prefix :: _ =>
      option_map (fun m => strip (group m))
        (search false (Seq prefix NAME_PATTERN)
                (cleaned_text text account_name))
  | [] => None
  end.

(** The two checks a candidate name must pass. *)
Definition qualifies (name : str) : Prop :=
  2 <= length (split name) /\ ~ In (hd "" (split name)) skip_words.

(** The outcome of running the process from the initial state. *)
Definition known_accounts (w : world) : list str :=
  fst (fetch_known_accounts w initial).

Definition resolved (w : world) (text : str) : str :=
  match_account text (known_accounts w).

Definition record_of (w : world) (text : str) : Dict.dict value :=
  fst (process_transcription w text initial).

Definition trace_of (w : world) (text : str) : list event :=
  trace (snd (process_transcription w text initial)).

Definition is_post (e : event) : bool :=
  match e with
  | Post _ _ => true
  | _ => false
  end.

(** The posts of a trace, in order. *)
Definition posts (tr : list event) : list event := filter is_post tr.

(** Did the proxy report success for this payload? *)
Definition post_succeeds (w : world) (payload : Dict.dict str) : bool :=
  match notes w payload with
  | Status code => code =? 200
  | Raised _ => false
  end.

(** The payload posted for a record. *)
Definition payload_of (account contact : str) (t : activity)
           (summary stamp : str) : Dict.dict str :=
  [ ("text", "[VOICE LOG] " ++ summary);
    ("account", account);
    ("type", activity_name t);
    ("contact", contact);
    ("source", "voice");
    ("timestamp", stamp) ].

(** [A] occurs in [text] when letter case is not compared. *)
Definition occurs_ci (A text : str) : bool :=
  contains (lower A) (lower text).

(** The cue words of step 2. *)
Definition cue_words : list str :=
  ["at"; "for"; "about"; "with"; "from"; "regarding"].

(** The pipeline accounts and backup names that reach the dictionary. *)
Definition pipeline_names (deals : option (list (option str))) : list str :=
  match deals with
  | Some ds =>
      flat_map (fun d => match d with
                         | Some a => if truthy a then [a] else []
                         | None => []
                         end) ds
  | None => []
  end.

Definition backup_names (keys : option (list str)) : list str :=
  match keys with
  | Some ks =>
      map backup_name (filter (startswith "xits_acct_") ks)
  | None => []
  end.

(** Two names are the same account when they agree up to letter case. *)
Definition same_account (a b : str) : Prop := lower a = lower b.

(** What [re.sub] does with an anchored pattern: the one match at the
    start of the text, if any, is cut off. *)
Definition cut_opener (r : re) (s : str) : str :=
  match match_at true r [] s with
  | Some c => ahead c
  | None => s
  end.

(** The reading of the summary builder that cuts one preamble only: the
    verb opener is looked for only when no filler opener was found. *)
Definition strip_one_preamble (text : str) : str :=
  let s := strip text in
  match match_at true filler_preamble [] s with
  | Some c => strip (ahead c)
  | None => strip (cut_opener verb_preamble s)
  end.

(** The invariant of the dictionary [accounts]: distinct keys, each the
    lowercase form of its value. *)
Definition keyed_by_lower (d : Dict.dict str) : Prop :=
  NoDup (Dict.keys d) /\ forall k v, In (k, v) d -> k = lower v.

(** No name of [l] is the same account as [v]. *)
Definition absent_from (v : str) (l : list str) : Prop :=
  forall n, In n l -> ~ same_account v n.

(** [k] is one of the lookup keys the index derives from [name]. *)
Definition derived_key (k name : str) : Prop :=
  k = lower name
  \/ (k = lower (base_name name) /\ lower (base_name name) <> lower name)
  \/ (k = lower (abbreviation name) /\ 2 <= length (abbreviation name))
  \/ (k = lower (first_word name) /\ 3 < length (first_word name)).

(** A list of names is longest first. *)
Definition longest_first (l : list str) : Prop :=
  StronglySorted (fun a b => length b <= length a) l.

(** The test of step 1 on one key. *)
Definition exact_hit (text_lower cand : str) : bool :=
  (4 <=? length cand) && contains cand text_lower.

(** A cursor with every letter in lower case. *)
Definition lower_cursor (c : cursor) : cursor :=
  Cursor (lower (seen c)) (lower (ahead c)) (option_map lower (group1 c)).

(** The lowercased fragment step 2 hands to the fuzzy match. *)
Definition prep_fragment (text : str) : option str :=
  option_map (fun m => lower (strip (group m))) (prep_match text).

(** The choice [detect_activity_type] makes from the four scores. *)
Definition choice (sc : activity -> nat) : activity :=
  let best :=
    max_key (Call, sc Call)
            [(Email, sc Email); (Meeting, sc Meeting); (Note, sc Note)] in
  if 0 <? snd best then fst best else Note.

(** The parts of the record of a run. *)
Definition contact_of (w : world) (text : str) : str :=
  extract_contact_name text (resolved w text).

Definition summary_of (w : world) (text : str) : str :=
  build_summary text (resolved w text) (contact_of w text)
                (detect_activity_type text).

(** Where a block of [find_longest_match] lies in the window of [a]: an
    empty block sits at [alo]; a block that is not empty starts before
    [ahi] and ends after [alo]. *)
Definition inside (alo ahi : nat) (m : Difflib.block) : Prop :=
  (Difflib.bestsize m = 0 /\ Difflib.besti m = alo)
  \/ (Difflib.besti m < ahi
      /\ alo < Difflib.besti m + Difflib.bestsize m).

(** Text of 7-bit ASCII characters, where the model's case forms are
    Python's. *)
Definition is_ascii_text (s : str) : bool :=
  forallb (fun c => code c <? 128) s.

(** [derived_key], decided. *)
Definition derives (k name : str) : bool :=
  Str.eqb k (lower name)
  || (Str.eqb k (lower (base_name name))
      && negb (Str.eqb (lower (base_name name)) (lower name)))
  || (Str.eqb k (lower (abbreviation name))
      && (2 <=? length (abbreviation name)))
  || (Str.eqb k (lower (first_word name))
      && (3 <? length (first_word name))).

(** Is [k] the lowercase form of [name]? *)
Definition names (k name : str) : bool := Str.eqb k (lower name).

(** The first of several lookups that answers. *)
Fixpoint first_some (l : list (option str)) : option str :=
  match l with
  | [] => None
  | Some v :: _ => Some v
  | None :: l' => first_some l'
  end.

(** The three tests a possibility passes to be kept by
    [get_close_matches]. *)
Definition passes (cutoff : Difflib.fraction) (word x : str) : bool :=
  Difflib.frac_leb cutoff (Difflib.real_quick_ratio x word)
  && Difflib.frac_leb cutoff (Difflib.quick_ratio x word)
  && Difflib.frac_leb cutoff (Difflib.ratio x word).

(** The lowercased fragment of a window of step 3. *)
Definition window_fragment (words : list str) (i size : nat) : str :=
  lower (join " " (window words i size)).

(** A capitalized word: an upper-case letter, then lower-case letters, at
    least one. *)
Definition capitalized (w : str) : Prop :=
  exists c rest,
    w = c :: rest /\ is_upper c = true /\ rest <> []
    /\ Forall (fun x => is_lower x = true) rest.

(** Are the strings of a list pairwise different? *)
Fixpoint distinct (l : list str) : bool :=
  match l with
  | [] => true
  | x :: l' => negb (member x l') && distinct l'
  end.

(** The prints of a trace, in order. *)
Definition printed (tr : list event) : list str :=
  flat_map (fun e => match e with Print m => [m] | _ => [] end) tr.

(** *** The phrases of the activity patterns *)

(** Does a text end, or start, with a word character? *)
Definition ends_with_word (s : str) : bool :=
  match rev s with
  | x :: _ => is_word x
  | [] => false
  end.

Definition starts_with_word (s : str) : bool :=
  match s with
  | x :: _ => is_word x
  | [] => false
  end.

(** A word edge lies between [l] and [r]: exactly one of the two
    characters that meet there is a word character (the ends of the text
    count as no word character). *)
Definition word_edge (l r : str) : bool :=
  xorb (ends_with_word l) (starts_with_word r).

(** [phrase] occurs in [s] with a word edge on either side. *)
Definition whole_phrase (phrase s : str) : Prop :=
  exists pre post,
    s = pre ++ phrase ++ post
    /\ word_edge pre (phrase ++ post) = true
    /\ word_edge (pre ++ phrase) post = true.

(** What each pattern of [ACTIVITY_PATTERNS] stands for: the phrases that
    it finds, pattern by pattern, type by type. *)
Definition ACTIVITY_PHRASES : list (activity * list (list str)) :=
  [ (Call,
     [ ["call"; "called"; "calling"];
       ["phone"; "phoned"; "phoning"];
       ["rang"];
       ["spoke to"; "spoke with"];
       ["talked to"; "talked with"];
       ["dialed"];
       ["log a call"];
       ["cold call"];
       ["phone call"] ]);
    (Email,
     [ ["email"; "emailed"; "emailing"];
       ["email"; "e-mail"];
       ["sent email"; "sent message"; "sent note";
        "sent a email"; "sent a message"; "sent a note";
        "sent an email"; "sent an message"; "sent an note"];
       ["inbox"];
       ["wrote to"];
       ["followed up via email"] ]);
    (Meeting,
     [ ["met"; "meeting"];
       ["sat down with"];
       ["visit"; "visited"; "visiting"];
       ["site visit"];
       ["demo"; "demonstrated"; "demonstration"];
       ["presented"; "presentation"];
       ["lunch"; "lunched"];
       ["coffee with"];
       ["teams call"];
       ["zoom"];
       ["webex"];
       ["in-person"];
       ["face to face"] ]);
    (Note,
     [ ["note"];
       ["update"];
       ["fyi"];
       ["heads up"];
       ["just note"; "just a note"; "just quick note"; "just a quick note"];
       ["reminder"] ]) ].

(** The phrase sets of one activity type. *)
Fixpoint phrase_sets_in (t : activity)
         (l : list (activity * list (list str))) : list (list str) :=
  match l with
  | [] => []
  | (u, sets) :: l' => if activity_eqb t u then sets else phrase_sets_in t l'
  end.

Definition phrase_sets (t : activity) : list (list str) :=
  phrase_sets_in t ACTIVITY_PHRASES.

(** A pattern hits a text when one of its phrases occurs in it between
    word edges. *)
Definition hit (text_lower : str) (phrases : list str) : Prop :=
  exists phrase, In phrase phrases /\ whole_phrase phrase text_lower.

(** [count_of P l n]: exactly [n] elements of [l] satisfy [P]. *)
Inductive count_of (A : Type) (P : A -> Prop) : list A -> nat -> Prop :=
| count_nil : count_of P [] 0
| count_yes x l n : P x -> count_of P l n -> count_of P (x :: l) (S n)
| count_no x l n : ~ P x -> count_of P l n -> count_of P (x :: l) n.

(** The declaration order of the activity types. *)
Definition declared (t : activity) : nat :=
  match t with
  | Call => 0
  | Email => 1
  | Meeting => 2
  | Note => 3
  end.

(** A pattern written with literals, sequences, alternatives and options
    only. *)
Fixpoint plain (r : re) : bool :=
  match r with
  | Lit _ => true
  | Seq r1 r2 | Alt r1 r2 => plain r1 && plain r2
  | Opt r1 => plain r1
  | _ => false
  end.

(** The texts a plain pattern matches, in the order it tries them. *)
Fixpoint phrases_of (r : re) : list str :=
  match r with
  | Lit s => [s]
  | Seq r1 r2 =>
      flat_map (fun p1 => map (app p1) (phrases_of r2)) (phrases_of r1)
  | Alt r1 r2 => phrases_of r1 ++ phrases_of r2
  | Opt r1 => phrases_of r1 ++ [[]]
  | _ => []
  end.

(** The inside of a pattern of the form [\b ... \b]. *)
Definition unword (p : re) : option re :=
  match p with
  | Seq WordB (Seq r WordB) => Some r
  | _ => None
  end.

Definition same_phrases (l1 l2 : list str) : bool :=
  forallb (fun x => member x l2) l1 && forallb (fun x => member x l1) l2.

(** Is [phrases] what the pattern [p] stands for? *)
Definition stands_for (p : re) (phrases : list str) : bool :=
  match unword p with
  | Some r => plain r && same_phrases (phrases_of r) phrases
  | None => false
  end.

Fixpoint all_stand_for (ps : list re) (sets : list (list str)) : bool :=
  match ps, sets with
  | [], [] => true
  | p :: ps', phrases :: sets' =>
      stands_for p phrases && all_stand_for ps' sets'
  | _, _ => false
  end.

(** One phrase tried at a cursor. *)
Definition try_phrase (c : cursor) (ph : str) : list cursor :=
  if startswith ph (ahead c) then [advance (length ph) c] else [].

(** *** Cue phrases and capitalized names *)

(** [removed old s out]: [out] is [s] without the occurrences of [old],
    taken left to right, an occurrence starting where the one before it
    has ended. *)
Inductive removed (old : str) : str -> str -> Prop :=
| removed_end : removed old [] []
| removed_here rest out :
    removed old rest out -> removed old (old ++ rest) out
| removed_keep c s out :
    (forall rest, c :: s <> old ++ rest) ->
    removed old s out -> removed old (c :: s) (c :: out).

(** The phrases that announce a contact. *)
Definition cue_phrases : list str :=
  [ "with"; "to"; "from"; "and"; "met"; "called"; "emailed";
    "spoke to"; "talked to"; "talked with"; "spoke with" ].

(** The longest start of [s] made of characters of the class [p], and
    what follows it. *)
Fixpoint run (p : ascii -> bool) (s : str) : str :=
  match s with
  | x :: r => if p x then x :: run p r else []
  | [] => []
  end.

Fixpoint after_run (p : ascii -> bool) (s : str) : str :=
  match s with
  | x :: r => if p x then after_run p r else s
  | [] => []
  end.

(** A capitalized word at the start of [s], taken as far as its
    lower-case letters go, with the text after it. *)
Definition capital_word (s : str) : option (str * str) :=
  match s with
  | c :: r =>
      if is_upper c
      then match run is_lower r with
           | [] => None
           | w => Some (c :: w, after_run is_lower r)
           end
      else None
  | [] => None
  end.

(** White space, all of it, and then a capitalized word. *)
Definition spaced_word (s : str) : option (str * str) :=
  match run is_space s with
  | [] => None
  | gap =>
      match capital_word (after_run is_space s) with
      | Some (w, rest) => Some (gap ++ w, rest)
      | None => None
      end
  end.

(** A name at the start of [s]: a capitalized word and the next one or
    two, when they follow; with the text after the name. *)
Definition name_and_rest (s : str) : option (str * str) :=
  match capital_word s with
  | None => None
  | Some (w1, r1) =>
      match spaced_word r1 with
      | None => Some (w1, r1)
      | Some (w2, r2) =>
          match spaced_word r2 with
          | None => Some (w1 ++ w2, r2)
          | Some (w3, r3) => Some (w1 ++ w2 ++ w3, r3)
          end
      end
  end.

Definition capital_name (s : str) : option str :=
  option_map fst (name_and_rest s).

(** The name that the cue [cue] announces at the start of [s]: the cue,
    white space, the name. *)
Definition name_after (cue s : str) : option str :=
  if startswith cue s
  then match run is_space (skipn (length cue) s) with
       | [] => None
       | _ => capital_name (after_run is_space (skipn (length cue) s))
       end
  else None.

(** The first element of a list for which [f] answers. *)
Fixpoint first_of (A B : Type) (f : A -> option B) (l : list A) : option B :=
  match l with
  | [] => None
  | x :: l' =>
      match f x with
      | Some y => Some y
      | None => first_of f l'
      end
  end.

Definition cue_name_at (s : str) : option str :=
  first_of (fun cue => name_after cue s) cue_phrases.

(** The cue-phrase-plus-name match that starts first in [s]. *)
Fixpoint first_cue_name (s : str) : option str :=
  match cue_name_at s with
  | Some name => Some name
  | None =>
      match s with
      | [] => None
      | _ :: r => first_cue_name r
      end
  end.

(** White space. *)
Definition blank (s : str) : Prop :=
  Forall (fun x => is_space x = true) s.

(** Capitalized words with white space between them. *)
Inductive capital_words : str -> list str -> Prop :=
| words_one w : capitalized w -> capital_words w [w]
| words_more w gap s ws :
    capitalized w -> gap <> [] -> blank gap -> capital_words s ws ->
    capital_words (w ++ gap ++ s) (w :: ws).

End Props.

Import Props.

(* ================================================================= *)
(** ** Facts about strings *)

Section StrFacts.

Lemma eqb_char_eq (a b : ascii) : eqb_char a b = true <-> a = b.
Proof. apply Ascii.eqb_eq. Qed.

Lemma eqb_char_refl (a : ascii) : eqb_char a a = true.
Proof. apply Ascii.eqb_refl. Qed.

Lemma str_eqb_eq (s t : str) : Str.eqb s t = true <-> s = t.
Proof.
  revert t; induction s as [|a s IH]; intros [|b t]; simpl;
    try (split; [discriminate | discriminate]); try tauto.
  rewrite andb_true_iff, eqb_char_eq, IH.
  split; [intros [-> ->]; reflexivity | intros E; injection E; auto].
Qed.

Lemma str_eqb_refl (s : str) : Str.eqb s s = true.
Proof. apply str_eqb_eq; reflexivity. Qed.

Lemma str_eqb_neq (s t : str) : Str.eqb s t = false <-> s <> t.
Proof.
  destruct (Str.eqb s t) eqn:E.
  - apply str_eqb_eq in E. split; [discriminate | congruence].
  - split; [intros _ H | reflexivity].
    apply str_eqb_eq in H. congruence.
Qed.

Lemma member_In (x : str) (l : list str) : member x l = true <-> In x l.
Proof.
  unfold member. rewrite existsb_exists. split.
  - intros [y [Hy E]]. apply str_eqb_eq in E. subst. exact Hy.
  - intros H. exists x. split; [exact H | apply str_eqb_refl].
Qed.

Lemma lower_length (s : str) : length (lower s) = length s.
Proof. apply length_map. Qed.

Lemma lower_app (s t : str) : lower (s ++ t) = lower s ++ lower t.
Proof. apply map_app. Qed.

(** Facts about one character are checked on the 256 characters. *)
Ltac each_char x :=
  destruct x as [[] [] [] [] [] [] [] []]; vm_compute; try reflexivity;
  try (split; reflexivity); try discriminate.

Lemma lower_char_idem (x : ascii) :
  lower_char (lower_char x) = lower_char x.
Proof. each_char x. Qed.

Lemma is_space_lower (x : ascii) : is_space (lower_char x) = is_space x.
Proof. each_char x. Qed.

Lemma is_word_lower (x : ascii) : is_word (lower_char x) = is_word x.
Proof. each_char x. Qed.

Lemma upper_char_idem (x : ascii) :
  upper_char (upper_char x) = upper_char x.
Proof. each_char x. Qed.

Lemma upper_char_not_lower (x : ascii) : is_lower (upper_char x) = false.
Proof. each_char x. Qed.

End StrFacts.

(* ================================================================= *)
(** ** Activity classification *)

Section Classification.

Lemma detect_activity_type_scores (text : str) :
  detect_activity_type text = choice (fun t => score t text).
Proof. reflexivity. Qed.

Variable sc : activity -> nat.

Ltac compare_scores :=
  repeat (match goal with
          | |- context [?x <? ?y] =>
              lazymatch constr:((x, y)) with
              | context [if _ then _ else _] => fail
              | _ => destruct (Nat.ltb_spec x y)
              end
          end; cbn [fst snd] in *).

Lemma choice_is_highest (t : activity) : sc t <= sc (choice sc).
Proof.
  unfold choice. cbn -[Nat.ltb]. compare_scores; destruct t; cbn in *; lia.
Qed.

Lemma choice_is_first (t : activity) :
  0 < sc (choice sc) -> sc t = sc (choice sc) -> rank (choice sc) <= rank t.
Proof.
  unfold choice. cbn -[Nat.ltb].
  compare_scores; destruct t; cbn in *; lia.
Qed.

Lemma choice_default : (forall t, sc t = 0) -> choice sc = Note.
Proof.
  intros H. unfold choice. cbn -[Nat.ltb].
  rewrite (H Call), (H Email), (H Meeting), (H Note). reflexivity.
Qed.

End Classification.


(* ================================================================= *)
(** ** The activity patterns and the phrases they stand for *)

Section Phrases.

Lemma lit_ahead_startswith (p t : str) :
  lit_ahead false p t = startswith p t.
Proof.
  revert t. induction p as [|a p IH]; intros [|b t]; simpl; try reflexivity.
  rewrite IH. reflexivity.
Qed.

Lemma startswith_app (p t : str) :
  startswith p t = true <-> exists rest, t = p ++ rest.
Proof.
  revert t. induction p as [|a p IH]; intros t; simpl.
  - split; [intros _; exists t; reflexivity | reflexivity].
  - destruct t as [|b t]; [split; [discriminate | intros [r [=]]]|].
    rewrite andb_true_iff, eqb_char_eq, IH. split.
    + intros [-> [r ->]]. exists r. reflexivity.
    + intros [r [= -> ->]]. eauto.
Qed.

Lemma advance_app (mid ah sn : str) (g : option str) :
  advance (length mid) (Cursor sn (mid ++ ah) g) =
  Cursor (rev mid ++ sn) ah g.
Proof.
  revert sn. induction mid as [|x mid IH]; intros sn; [reflexivity|].
  cbn [length app advance ahead seen group1]. rewrite IH.
  simpl. rewrite <- app_assoc. reflexivity.
Qed.

Lemma try_phrase_app (c : cursor) (p1 p2 : str) :
  try_phrase c (p1 ++ p2) =
  flat_map (fun c1 => try_phrase c1 p2) (try_phrase c p1).
Proof.
  unfold try_phrase. destruct c as [sn ah g]. cbn [ahead].
  destruct (startswith p1 ah) eqn:E1.
  - apply startswith_app in E1. destruct E1 as [r ->].
    cbn [flat_map]. rewrite app_nil_r, advance_app. cbn [ahead].
    destruct (startswith p2 r) eqn:E2.
    + apply startswith_app in E2. destruct E2 as [r' ->].
      assert (E : startswith (p1 ++ p2) (p1 ++ p2 ++ r') = true).
      { apply startswith_app. exists r'. rewrite app_assoc. reflexivity. }
      rewrite E. f_equal. rewrite advance_app.
      rewrite app_assoc, advance_app, rev_app_distr, app_assoc.
      reflexivity.
    + destruct (startswith (p1 ++ p2) (p1 ++ r)) eqn:E; [|reflexivity].
      apply startswith_app in E. destruct E as [r' E].
      rewrite <- app_assoc in E. apply app_inv_head in E. subst r.
      assert (E : startswith p2 (p2 ++ r') = true)
        by (apply startswith_app; eauto).
      congruence.
  - cbn [flat_map].
    destruct (startswith (p1 ++ p2) ah) eqn:E; [|reflexivity].
    apply startswith_app in E. destruct E as [r' ->].
    assert (E : startswith p1 ((p1 ++ p2) ++ r') = true).
    { apply startswith_app. exists (p2 ++ r'). rewrite app_assoc.
      reflexivity. }
    congruence.
Qed.

Lemma flat_map_flat_map (A B C : Type) (f : A -> list B) (g : B -> list C)
      (l : list A) :
  flat_map g (flat_map f l) = flat_map (fun x => flat_map g (f x)) l.
Proof.
  induction l as [|x l IH]; [reflexivity|].
  cbn [flat_map]. rewrite flat_map_app, IH. reflexivity.
Qed.

Lemma flat_map_map (A B C : Type) (f : A -> B) (g : B -> list C)
      (l : list A) :
  flat_map g (map f l) = flat_map (fun x => g (f x)) l.
Proof.
  induction l as [|x l IH]; [reflexivity|].
  cbn [map flat_map]. rewrite IH. reflexivity.
Qed.

Lemma try_phrase_cases (c : cursor) (ph : str) :
  try_phrase c ph = [] \/ exists c1, try_phrase c ph = [c1].
Proof.
  unfold try_phrase. destruct (startswith ph (ahead c)); eauto.
Qed.

Lemma try_phrase_then (c : cursor) (p1 : str) (l2 : list str) :
  flat_map (fun c1 => flat_map (try_phrase c1) l2) (try_phrase c p1) =
  flat_map (fun p2 => try_phrase c (p1 ++ p2)) l2.
Proof.
  transitivity
    (flat_map (fun p2 => flat_map (fun c1 => try_phrase c1 p2)
                                  (try_phrase c p1)) l2).
  - destruct (try_phrase_cases c p1) as [->|[c1 ->]]; cbn [flat_map].
    + induction l2 as [|p2 l2 IH]; [reflexivity | exact IH].
    + rewrite app_nil_r. apply flat_map_ext. intros p2.
      rewrite app_nil_r. reflexivity.
  - apply flat_map_ext. intros p2. symmetry. apply try_phrase_app.
Qed.

(** A plain pattern tries its phrases one after the other. *)
Lemma rmatch_plain (r : re) (c : cursor) :
  plain r = true ->
  rmatch false r c = flat_map (try_phrase c) (phrases_of r).
Proof.
  revert c.
  induction r as [s|p|lz p|r1 IH1 r2 IH2|r1 IH1 r2 IH2|r1 IH1|r1 IH1| | |];
    intros c Hp; try discriminate Hp; cbn [plain] in Hp.
  - cbn [rmatch phrases_of flat_map]. unfold try_phrase.
    rewrite lit_ahead_startswith, app_nil_r. reflexivity.
  - apply andb_true_iff in Hp. destruct Hp as [H1 H2].
    cbn [rmatch phrases_of]. rewrite (IH1 c H1).
    rewrite !flat_map_flat_map. apply flat_map_ext. intros p1.
    rewrite flat_map_map, <- try_phrase_then.
    apply flat_map_ext. intros c1. apply IH2. exact H2.
  - apply andb_true_iff in Hp. destruct Hp as [H1 H2].
    cbn [rmatch phrases_of]. rewrite flat_map_app, IH1, IH2 by assumption.
    reflexivity.
  - cbn [rmatch phrases_of]. rewrite flat_map_app, IH1 by assumption.
    cbn [flat_map]. unfold try_phrase at 2. cbn [startswith length advance].
    destruct c; reflexivity.
Qed.

End Phrases.

Section PhraseHits.

Lemma search_from_some (ic : bool) (r : re) (ah sn : str) :
  (exists m, search_from ic r sn ah = Some m) <->
  exists pre post,
    ah = pre ++ post
    /\ rmatch ic r (Cursor (rev pre ++ sn) post None) <> [].
Proof.
  revert sn. induction ah as [|x ah IH]; intros sn.
  - cbn [search_from]. unfold match_at.
    destruct (rmatch ic r (Cursor sn [] None)) as [|c l] eqn:E; cbn [hd_error].
    + split; [intros [m H]; discriminate|].
      intros [pre [post [Ha H]]]. symmetry in Ha.
      apply app_eq_nil in Ha. destruct Ha as [-> ->].
      simpl in H. congruence.
    + split; [|eauto]. intros _. exists [], []. simpl. rewrite E.
      split; [reflexivity | discriminate].
  - cbn [search_from]. unfold match_at.
    destruct (rmatch ic r (Cursor sn (x :: ah) None)) as [|c l] eqn:E;
      cbn [hd_error].
    + rewrite IH. split.
      * intros [pre [post [-> H]]]. exists (x :: pre), post.
        split; [reflexivity|]. simpl. rewrite <- app_assoc. exact H.
      * intros [pre [post [Ha H]]]. destruct pre as [|y pre].
        -- simpl in Ha, H. subst post. congruence.
        -- injection Ha as <- ->. exists pre, post.
           split; [reflexivity|]. simpl in H. rewrite <- app_assoc in H.
           exact H.
    + split; [|eauto]. intros _. exists [], (x :: ah). simpl. rewrite E.
      split; [reflexivity | discriminate].
Qed.

Lemma found_iff (ic : bool) (r : re) (s : str) :
  found ic r s = true <->
  exists pre post,
    s = pre ++ post /\ rmatch ic r (Cursor (rev pre) post None) <> [].
Proof.
  unfold found, search.
  pose proof (search_from_some ic r s []) as H.
  destruct (search_from ic r [] s) as [m|].
  - split; [intros _|reflexivity].
    destruct (proj1 H (ex_intro _ m eq_refl)) as [pre [post [E Hm]]].
    exists pre, post. rewrite app_nil_r in Hm. auto.
  - split; [discriminate|]. intros [pre [post [E Hm]]].
    destruct (proj2 H) as [m Hm']; [|discriminate].
    exists pre, post. rewrite app_nil_r. auto.
Qed.

Lemma flat_map_not_nil (A B : Type) (f : A -> list B) (l : list A) :
  flat_map f l <> [] <-> exists x, In x l /\ f x <> [].
Proof.
  induction l as [|x l IH]; cbn [flat_map].
  - split; [congruence | intros [x [[] _]]].
  - split.
    + intros H. destruct (f x) as [|y ys] eqn:E.
      * simpl in H. apply IH in H. destruct H as [z [Hz Hf]].
        exists z. split; [right; exact Hz | exact Hf].
      * exists x. split; [left; reflexivity | congruence].
    + intros [z [[<-|Hz] Hf]] H; apply app_eq_nil in H; destruct H as [H1 H2].
      * contradiction.
      * apply IH in H2; [exact H2|]. eauto.
Qed.

Lemma at_boundary_edge (pre post : str) (g : option str) :
  at_boundary (Cursor (rev pre) post g) = word_edge pre post.
Proof. reflexivity. Qed.

(** A pattern [\b r \b] with [r] plain is found in the texts where one of
    the phrases of [r] occurs between word edges. *)
Lemma found_word (r : re) (s : str) :
  plain r = true ->
  found false (Seq WordB (Seq r WordB)) s = true <->
  exists ph, In ph (phrases_of r) /\ whole_phrase ph s.
Proof.
  intros Hp. rewrite found_iff. split.
  - intros [pre [post [-> H]]]. cbn [rmatch] in H.
    rewrite at_boundary_edge in H.
    destruct (word_edge pre post) eqn:E1; [|cbn in H; congruence].
    cbn [flat_map] in H. rewrite app_nil_r in H.
    apply flat_map_not_nil in H. destruct H as [c' [Hc' H]].
    rewrite rmatch_plain in Hc' by exact Hp.
    apply in_flat_map in Hc'. destruct Hc' as [ph [Hph Hc']].
    unfold try_phrase in Hc'. cbn [ahead] in Hc'.
    destruct (startswith ph post) eqn:Es; [|destruct Hc'].
    apply startswith_app in Es. destruct Es as [post' ->].
    destruct Hc' as [<-|[]]. rewrite advance_app in H.
    rewrite <- rev_app_distr, at_boundary_edge in H.
    destruct (word_edge (pre ++ ph) post') eqn:E2; [|congruence].
    exists ph. split; [exact Hph|]. exists pre, post'. auto.
  - intros [ph [Hph [pre [post [-> [E1 E2]]]]]].
    exists pre, (ph ++ post). split; [reflexivity|].
    cbn [rmatch]. rewrite at_boundary_edge, E1.
    cbn [flat_map]. rewrite app_nil_r.
    apply flat_map_not_nil.
    exists (Cursor (rev (pre ++ ph)) post None). split.
    + rewrite rmatch_plain by exact Hp. apply in_flat_map.
      exists ph. split; [exact Hph|].
      unfold try_phrase. cbn [ahead].
      assert (Es : startswith ph (ph ++ post) = true)
        by (apply startswith_app; eauto).
      rewrite Es, advance_app, rev_app_distr. left. reflexivity.
    + rewrite at_boundary_edge, E2. discriminate.
Qed.

Lemma same_phrases_In (l1 l2 : list str) (x : str) :
  same_phrases l1 l2 = true -> (In x l1 <-> In x l2).
Proof.
  unfold same_phrases. rewrite andb_true_iff, !forallb_forall.
  intros [H1 H2]. split; intros H.
  - apply member_In, H1, H.
  - apply member_In, H2, H.
Qed.

Lemma found_stands_for (p : re) (phrases : list str) (s : str) :
  stands_for p phrases = true ->
  found false p s = true <-> hit s phrases.
Proof.
  unfold stands_for, unword.
  destruct p as [| | |r0 r1| | | | | |]; try discriminate.
  destruct r0; try discriminate.
  destruct r1 as [| | |r r2| | | | | |]; try discriminate.
  destruct r2; try discriminate.
  intros H. apply andb_true_iff in H. destruct H as [Hp Hs].
  rewrite found_word by exact Hp. unfold hit.
  split; intros [ph [Hin Hw]]; exists ph; split; try exact Hw;
    apply (same_phrases_In _ _ ph Hs); exact Hin.
Qed.

(** The score the classifier computes for a list of patterns is the
    number of phrase sets that hit the text. *)
Lemma score_of_counts (ps : list re) (sets : list (list str)) (s : str) :
  all_stand_for ps sets = true ->
  count_of (hit s) sets (score_of ps s).
Proof.
  revert sets. induction ps as [|p ps IH]; intros [|phrases sets] H;
    try discriminate H.
  - constructor.
  - cbn [all_stand_for] in H. apply andb_true_iff in H.
    destruct H as [Hp Hs]. unfold score_of. cbn [filter].
    pose proof (found_stands_for p phrases s Hp) as Hf.
    destruct (found false p s).
    + cbn [length]. apply count_yes; [apply Hf; reflexivity|].
      apply IH, Hs.
    + apply count_no; [|apply IH, Hs].
      intros Hh. apply Hf in Hh. discriminate Hh.
Qed.

Lemma score_counts (t : activity) (text : str) :
  count_of (hit (lower text)) (phrase_sets t) (score t text).
Proof.
  unfold score. apply score_of_counts.
  destruct t; vm_compute; reflexivity.
Qed.

Lemma count_of_unique (A : Type) (P : A -> Prop) (l : list A) (n m : nat) :
  count_of P l n -> count_of P l m -> n = m.
Proof.
  intros Hn. revert m. induction Hn; intros m Hm; inversion Hm; subst;
    try reflexivity; try contradiction; auto.
Qed.

Lemma declared_rank (t : activity) : declared t = rank t.
Proof. destruct t; reflexivity. Qed.

End PhraseHits.

(** C5. For every ASCII text, the classifier returns a type with the
    highest score, the score of a type being the number of its patterns
    that match the lowercased text (a pattern matches when one of the
    phrases it stands for occurs between word edges); on a tie the
    first-declared type among call, email, meeting, note wins; when every
    type scores zero the result is note.  The four classifications of the
    specification hold. *)
Theorem detect_activity_type_highest_first (text : str) :
  is_ascii_text text = true ->
  (exists sc : activity -> nat,
      (forall t, count_of (hit (lower text)) (phrase_sets t) (sc t)) /\
      let r := detect_activity_type text in
      (forall t, sc t <= sc r) /\
      (0 < sc r -> forall t, sc t = sc r -> declared r <= declared t) /\
      ((forall t, sc t = 0) -> r = Note)) /\
  detect_activity_type "I called the client this morning" = Call /\
  detect_activity_type "sent an email to procurement" = Email /\
  detect_activity_type "just a quick heads up" = Note /\
  detect_activity_type "asdf qwerty" = Note.
Proof.
  intros _. split.
  - exists (fun t => score t text). split; [intros t; apply score_counts|].
    cbv zeta. rewrite detect_activity_type_scores.
    split; [|split].
    + intros t. apply (choice_is_highest (fun u => score u text)).
    + intros H t. rewrite !declared_rank.
      apply (choice_is_first (fun u => score u text)); exact H.
    + apply (choice_default (fun u => score u text)).
  - repeat split; vm_compute; reflexivity.
Qed.

(** The theorem at a text on which call and meeting tie. *)
Lemma detect_activity_type_highest_first_tie :
  is_ascii_text "phoned before lunch" = true /\
  exists sc : activity -> nat,
    (forall t,
        count_of (hit (lower "phoned before lunch")) (phrase_sets t) (sc t))
    /\ (forall t, sc t <= sc (detect_activity_type "phoned before lunch"))
    /\ (0 < sc (detect_activity_type "phoned before lunch") ->
        forall t,
          sc t = sc (detect_activity_type "phoned before lunch") ->
          declared (detect_activity_type "phoned before lunch")
          <= declared t).
Proof.
  split; [reflexivity|].
  destruct (detect_activity_type_highest_first "phoned before lunch" eq_refl)
    as [[sc [Hc H]] _].
  cbv zeta in H. destruct H as [Hmax [Hfirst _]].
  exists sc. split; [exact Hc|]. split; [exact Hmax | exact Hfirst].
Defined.

(** A tie between call and meeting goes to call, declared first. *)
Example classify_tie :
  score Call "phoned before lunch" = 1
  /\ score Meeting "phoned before lunch" = 1
  /\ detect_activity_type "phoned before lunch" = Call.
Proof. vm_compute. auto. Qed.

(* ================================================================= *)
(** ** Contact extraction *)

Lemma extract_contact_name_unfold (text account_name : str) :
  extract_contact_name text account_name =
  match first_candidate text account_name with
  | Some name =>
      if negb (member (hd "" (split name)) skip_words)
         && (2 <=? length (split name))
      then name else ""
  | None => ""
  end.
Proof.
  unfold extract_contact_name, first_candidate, CONTACT_PREFIXES.
  cbn [try_prefixes option_map].
  destruct (search false _ _); reflexivity.
Qed.

Lemma qualifies_checks (name : str) :
  negb (member (hd "" (split name)) skip_words) && (2 <=? length (split name))
  = true <-> qualifies name.
Proof.
  unfold qualifies.
  rewrite andb_true_iff, negb_true_iff, Nat.leb_le.
  rewrite <- not_true_iff_false, member_In. tauto.
Qed.

(** The extractions the specification lists. *)
Example extract_john_smith :
  extract_contact_name "met with John Smith at SaskTel" "SaskTel"
  = "John Smith".
Proof. vm_compute. reflexivity. Qed.

Example extract_the_team :
  extract_contact_name "talked to the team" "" = "".
Proof. vm_compute. reflexivity. Qed.

(** The first match decides: here it is ["The"], which fails the checks,
    and the later ["John Smith"] is not looked at. *)
Example extract_first_match_only :
  first_candidate "went to The team, then met with John Smith" "" = Some "The"
  /\ extract_contact_name "went to The team, then met with John Smith" "" = ""
  /\ extract_contact_name "then met with John Smith" "" = "John Smith".
Proof. vm_compute. auto. Qed.

(** The account name is removed before the search. *)
Example extract_account_removed :
  extract_contact_name "spoke with Brandt Group today" "" = "Brandt Group"
  /\ extract_contact_name "spoke with Brandt Group today" "Brandt Group" = "".
Proof. vm_compute. auto. Qed.

(* ================================================================= *)
(** ** The main entry point *)

Section Process.

Variables (w : world) (text : str).

(** The parts of the record are computed once and only named here. *)
Ltac name_parts :=
  unfold summary_of, contact_of, resolved, known_accounts,
    process_transcription,
    fetch_known_accounts, post_to_calproxy, post_succeeds, payload_of,
    bind, ret, emit, now, initial;
  cbn [fst snd trace ticks app];
  generalize (match_account text
                (Dict.values (merge_accounts (pipeline w) (backup w) fallback)));
  intros acct;
  generalize (detect_activity_type text); intros ty;
  generalize (extract_contact_name text acct); intros who;
  generalize (build_summary text acct who ty); intros what.

(** The run when no account was matched: the record and every event. *)
Lemma process_unmatched :
  resolved w text = "" ->
  exists msg,
    process_transcription w text initial =
    ([ ("account", VStr ""); ("contact", VStr (contact_of w text));
       ("activity_type", VStr (activity_name (detect_activity_type text)));
       ("summary", VStr (summary_of w text)); ("matched", VBool false);
       ("timestamp", VStr (clock w 0));
       ("error", VStr "account_not_matched") ],
     State [Get "/pipeline"; Get "/backup"; Print msg] 1).
Proof.
  name_parts. intros ->. cbn [truthy negb].
  eexists. reflexivity.
Qed.

(** The run when an account was matched. *)
Lemma process_matched :
  resolved w text <> "" ->
  let payload :=
    payload_of (resolved w text) (contact_of w text)
               (detect_activity_type text) (summary_of w text) (clock w 1) in
  let posted := post_succeeds w payload in
  exists confirm warnings,
    process_transcription w text initial =
    ([ ("account", VStr (resolved w text));
       ("contact", VStr (contact_of w text));
       ("activity_type", VStr (activity_name (detect_activity_type text)));
       ("summary", VStr (summary_of w text)); ("matched", VBool true);
       ("timestamp", VStr (clock w 0));
       ("posted", VBool posted);
       ("confirmation", VStr confirm) ],
     State ([Get "/pipeline"; Get "/backup"; Post "/notes" payload]
            ++ map Warn warnings ++ [Print confirm]) 2).
Proof.
  name_parts. intros E.
  destruct acct as [|c acc]; [congruence|].
  cbn.
  match goal with
  | |- context [notes w ?p] => destruct (notes w p) as [code|why]
  end.
  - eexists; exists []. reflexivity.
  - eexists; eexists [_]. reflexivity.
Qed.

End Process.

Lemma posts_of_warnings (ws : list str) (tl : list event) :
  posts (map Warn ws ++ tl) = posts tl.
Proof. induction ws as [|x ws IH]; [reflexivity | exact IH]. Qed.

Lemma has_post_of_warnings (ws : list str) (tl : list event) :
  existsb is_post (map Warn ws ++ tl) = existsb is_post tl.
Proof. induction ws as [|x ws IH]; [reflexivity | exact IH]. Qed.

(** Both runs at once, with the parts of the record as plain names. *)
Ltac both_runs w text :=
  unfold record_of, trace_of;
  pose proof (process_unmatched w text) as Hu;
  pose proof (process_matched w text) as Hm;
  cbv zeta in Hu, Hm; unfold summary_of, contact_of in Hu, Hm;
  revert Hu Hm;
  generalize (process_transcription w text initial); intros run;
  generalize (resolved w text); intros acct;
  generalize (detect_activity_type text); intros ty;
  generalize (extract_contact_name text acct); intros who;
  generalize (build_summary text acct who ty); intros what;
  intros Hu Hm;
  destruct acct as [|c acc];
  [ destruct (Hu eq_refl) as [msg ->]; clear Hu Hm
  | destruct Hm as [confirm [ws ->]]; [discriminate | clear Hu] ].

(** C7. For every text and every behaviour of the proxy: if the resolver
    returns the empty string, the record carries error =
    "account_not_matched" and nothing is posted; if it returns an account,
    exactly one post is made, to the notes endpoint and for that account,
    and posted is whether the proxy reported success (status 200); in both
    cases the record is returned, with the account and the matched flag. *)
Theorem process_transcription_posts_iff_matched (w : world) (text : str) :
  let account := resolved w text in
  let record := record_of w text in
  (account = "" ->
   Dict.get "error" record = Some (VStr "account_not_matched")
   /\ posts (trace_of w text) = []) /\
  (account <> "" ->
   exists payload,
     posts (trace_of w text) = [Post "/notes" payload]
     /\ Dict.get "account" payload = Some account
     /\ Dict.get "posted" record = Some (VBool (post_succeeds w payload))
     /\ Dict.get "error" record = None) /\
  Dict.get "account" record = Some (VStr account) /\
  Dict.get "matched" record = Some (VBool (truthy account)).
Proof.
  cbv zeta. both_runs w text.
  - cbn. repeat split; try reflexivity. congruence.
  - cbn [fst snd trace].
    split; [intros; discriminate|]. split; [|split; reflexivity].
    intros _. eexists. split; [|repeat split; reflexivity].
    cbn [app posts filter is_post].
    fold (posts (map Warn ws ++ [Print confirm])).
    rewrite posts_of_warnings. reflexivity.
Qed.

(** C10. For every text and every behaviour of the proxy, the record has a
    posted field exactly when an account was matched, a confirmation field
    exactly when an account was matched, and a post was attempted exactly
    when an account was matched; the unmatched record has neither field. *)
Theorem process_transcription_fields_iff_matched (w : world) (text : str) :
  let account := resolved w text in
  let record := record_of w text in
  Dict.mem "posted" record = truthy account /\
  Dict.mem "confirmation" record = truthy account /\
  existsb is_post (trace_of w text) = truthy account /\
  (account = "" ->
   Dict.get "posted" record = None /\ Dict.get "confirmation" record = None).
Proof.
  cbv zeta. both_runs w text.
  - cbn. repeat split; reflexivity.
  - cbn [fst snd trace truthy].
    repeat split; try reflexivity; try discriminate.
Qed.

(** The two end-to-end runs of the specification, with only the hardcoded
    directory and a proxy that accepts the post. *)
Example run_matched :
  let w := World None None (fun _ => Status 200) (fun _ => "T") in
  let text := "Had a great call with Sarah Johnson at SaskTel about renewal" in
  Dict.get "activity_type" (record_of w text) = Some (VStr "call")
  /\ Dict.get "account" (record_of w text) = Some (VStr "SaskTel")
  /\ Dict.get "contact" (record_of w text) = Some (VStr "Sarah Johnson")
  /\ Dict.get "matched" (record_of w text) = Some (VBool true)
  /\ Dict.get "posted" (record_of w text) = Some (VBool true).
Proof. vm_compute. repeat split; reflexivity. Qed.

Example run_unmatched :
  let w := World None None (fun _ => Status 200) (fun _ => "T") in
  let text := "Talked to someone about a random thing" in
  Dict.get "account" (record_of w text) = Some (VStr "")
  /\ Dict.get "matched" (record_of w text) = Some (VBool false)
  /\ Dict.get "error" (record_of w text) = Some (VStr "account_not_matched")
  /\ posts (trace_of w text) = [].
Proof. vm_compute. repeat split; reflexivity. Qed.

(** A post that fails is not fatal. *)
Example run_post_refused :
  let w := World None None (fun _ => Status 503) (fun _ => "T") in
  let text := "Had a great call with Sarah Johnson at SaskTel about renewal" in
  Dict.get "account" (record_of w text) = Some (VStr "SaskTel")
  /\ Dict.get "posted" (record_of w text) = Some (VBool false).
Proof. vm_compute. repeat split; reflexivity. Qed.

(* ================================================================= *)
(** ** Facts about dictionaries *)

Section DictFacts.

Variable V : Type.

Implicit Types (d : Dict.dict V) (k : str) (v : V).

Lemma keys_set k v d k' :
  In k' (Dict.keys (Dict.set k v d)) <-> k' = k \/ In k' (Dict.keys d).
Proof.
  induction d as [|[k0 v0] d IH]; simpl.
  - intuition auto.
  - destruct (Str.eqb k k0) eqn:E; simpl.
    + apply str_eqb_eq in E. subst k0. intuition auto.
    + rewrite IH. intuition auto.
Qed.

Lemma get_set_same k v d : Dict.get k (Dict.set k v d) = Some v.
Proof.
  induction d as [|[k0 v0] d IH]; simpl.
  - rewrite str_eqb_refl. reflexivity.
  - destruct (Str.eqb k k0) eqn:E; simpl; rewrite E; auto.
Qed.

Lemma get_set_other k v d k' :
  k' <> k -> Dict.get k' (Dict.set k v d) = Dict.get k' d.
Proof.
  intros Hne. induction d as [|[k0 v0] d IH]; simpl.
  - apply str_eqb_neq in Hne. rewrite Hne. reflexivity.
  - destruct (Str.eqb k k0) eqn:E; simpl.
    + apply str_eqb_eq in E. subst k0.
      apply str_eqb_neq in Hne. rewrite Hne. reflexivity.
    + rewrite IH. reflexivity.
Qed.

Lemma get_In k d : In k (Dict.keys d) <-> Dict.get k d <> None.
Proof.
  induction d as [|[k0 v0] d IH]; simpl.
  - intuition auto.
  - destruct (Str.eqb k k0) eqn:E.
    + apply str_eqb_eq in E. split; [discriminate | auto].
    + apply str_eqb_neq in E. rewrite <- IH. intuition congruence.
Qed.

Lemma mem_In k d : Dict.mem k d = true <-> In k (Dict.keys d).
Proof.
  rewrite get_In. unfold Dict.mem.
  destruct (Dict.get k d); split; congruence.
Qed.

Lemma get_Some_In k v d : Dict.get k d = Some v -> In (k, v) d.
Proof.
  induction d as [|[k0 v0] d IH]; simpl; [discriminate|].
  destruct (Str.eqb k k0) eqn:E.
  - apply str_eqb_eq in E. intros [= ->]. subst. auto.
  - auto.
Qed.

Lemma keys_In k v d : In (k, v) d -> In k (Dict.keys d).
Proof. intros H. apply (in_map fst) in H. exact H. Qed.

Lemma values_In k v d : In (k, v) d -> In v (Dict.values d).
Proof. intros H. apply (in_map snd) in H. exact H. Qed.

Lemma values_In_inv v d : In v (Dict.values d) -> exists k, In (k, v) d.
Proof.
  unfold Dict.values. rewrite in_map_iff.
  intros [[k v'] [E H]]. simpl in E. subst. eauto.
Qed.

(** An entry of [d[k] = v] is the new one or an old one; with distinct
    keys an old one has another key. *)
Lemma set_In k v d k' v' :
  NoDup (Dict.keys d) ->
  In (k', v') (Dict.set k v d) ->
  (k' = k /\ v' = v) \/ (In (k', v') d /\ k' <> k).
Proof.
  induction d as [|[k0 v0] d IH]; simpl; intros Hnd H.
  - destruct H as [[= <- <-]|[]]. auto.
  - apply NoDup_cons_iff in Hnd. destruct Hnd as [Hk0 Hnd].
    destruct (Str.eqb k k0) eqn:E; simpl in H.
    + apply str_eqb_eq in E. subst k0.
      destruct H as [[= <- <-]|H]; [auto|].
      right. split; [auto|]. intros ->. apply Hk0. eapply keys_In; eauto.
    + apply str_eqb_neq in E.
      destruct H as [[= <- <-]|H]; [right; split; auto|].
      destruct (IH Hnd H) as [?|[? ?]]; auto.
Qed.

Lemma In_set_old k v d k' v' :
  In (k', v') d -> k' <> k -> In (k', v') (Dict.set k v d).
Proof.
  induction d as [|[k0 v0] d IH]; simpl; [tauto|].
  intros [[= -> ->]|H] Hne.
  - destruct (Str.eqb k k') eqn:E; [|left; reflexivity].
    apply str_eqb_eq in E. congruence.
  - destruct (Str.eqb k k0); right; auto.
Qed.

Lemma In_set_new k v d : exists k0, In (k0, v) (Dict.set k v d) /\ k0 = k.
Proof.
  exists k. split; [|reflexivity].
  apply get_Some_In, get_set_same.
Qed.

Lemma NoDup_keys_set k v d :
  NoDup (Dict.keys d) -> NoDup (Dict.keys (Dict.set k v d)).
Proof.
  induction d as [|[k0 v0] d IH]; simpl; intros Hnd.
  - constructor; [tauto | constructor].
  - apply NoDup_cons_iff in Hnd. destruct Hnd as [Hk0 Hnd].
    destruct (Str.eqb k k0) eqn:E; simpl.
    + constructor; assumption.
    + constructor; [|auto].
      fold (Dict.keys (Dict.set k v d)). rewrite keys_set.
      apply str_eqb_neq in E. intros [->|H]; [congruence | contradiction].
Qed.

End DictFacts.

(* ================================================================= *)
(** ** The account directory *)

Section Directory.

Lemma keyed_by_lower_empty : keyed_by_lower Dict.empty.
Proof. split; [constructor | intros k v []]. Qed.

Lemma keyed_by_lower_set (d : Dict.dict str) (name : str) :
  keyed_by_lower d -> keyed_by_lower (Dict.set (lower name) name d).
Proof.
  intros [Hnd Hk]. split.
  - apply NoDup_keys_set, Hnd.
  - intros k v H. apply set_In in H; [|exact Hnd].
    destruct H as [[-> ->]|[H _]]; [reflexivity | auto].
Qed.

Lemma keyed_by_lower_values (d : Dict.dict str) :
  keyed_by_lower d -> map lower (Dict.values d) = Dict.keys d.
Proof.
  intros [_ Hk]. induction d as [|[k v] d IH]; [reflexivity|].
  simpl. rewrite <- (Hk k v) by (left; reflexivity).
  f_equal. apply IH. intros k' v' H. apply Hk. right. exact H.
Qed.

(** An entry with the key of [v] is the same account as [v]. *)
Lemma same_account_entry (d : Dict.dict str) (k v n : str) :
  keyed_by_lower d -> In (k, v) d -> (k = lower n <-> same_account v n).
Proof.
  intros [_ Hk] H. unfold same_account. rewrite (Hk k v H). tauto.
Qed.

(** *** The hardcoded names *)

Lemma fallback_keyed (l : list str) (d : Dict.dict str) :
  keyed_by_lower d -> keyed_by_lower (fold_left add_fallback l d).
Proof.
  revert d. induction l as [|n l IH]; intros d Hd; simpl; [exact Hd|].
  apply IH. apply keyed_by_lower_set, Hd.
Qed.

Lemma fallback_covers (l : list str) (d : Dict.dict str) (k : str) :
  In k (Dict.keys (fold_left add_fallback l d)) <->
  In k (Dict.keys d) \/ In k (map lower l).
Proof.
  revert d. induction l as [|n l IH]; intros d; simpl; [tauto|].
  rewrite IH. unfold add_fallback. rewrite keys_set. intuition auto.
Qed.

Lemma fallback_entries (l : list str) (d : Dict.dict str) (k v : str) :
  keyed_by_lower d ->
  In (k, v) (fold_left add_fallback l d) ->
  In v l \/ (In (k, v) d /\ ~ In k (map lower l)).
Proof.
  revert d. induction l as [|n l IH]; intros d Hd H; simpl in *; [auto|].
  apply IH in H; [|apply keyed_by_lower_set, Hd].
  destruct H as [H|[H Hl]]; [auto|].
  unfold add_fallback in H. apply set_In in H; [|apply Hd].
  destruct H as [[-> ->]|[H Hne]]; [auto|].
  right. split; [exact H|]. intros [E|E]; [congruence | contradiction].
Qed.

(** *** The pipeline deals *)

Lemma add_deal_keyed (d : Dict.dict str) (deal : option str) :
  keyed_by_lower d -> keyed_by_lower (add_deal d deal).
Proof.
  intros Hd. destruct deal as [a|]; simpl; [|exact Hd].
  destruct (truthy a); [apply keyed_by_lower_set, Hd | exact Hd].
Qed.

Lemma deals_keyed (ds : list (option str)) (d : Dict.dict str) :
  keyed_by_lower d -> keyed_by_lower (fold_left add_deal ds d).
Proof.
  revert d. induction ds as [|x ds IH]; intros d Hd; simpl; [exact Hd|].
  apply IH, add_deal_keyed, Hd.
Qed.

Lemma deals_covers (ds : list (option str)) (d : Dict.dict str) (k : str) :
  In k (Dict.keys (fold_left add_deal ds d)) <->
  In k (Dict.keys d) \/ In k (map lower (pipeline_names (Some ds))).
Proof.
  revert d. induction ds as [|x ds IH]; intros d; simpl; [tauto|].
  rewrite IH. simpl. rewrite map_app, in_app_iff.
  destruct x as [a|]; simpl; [|tauto].
  destruct (truthy a); simpl; [|tauto].
  rewrite keys_set. intuition auto.
Qed.

Lemma deals_entries (ds : list (option str)) (d : Dict.dict str)
      (k v : str) :
  keyed_by_lower d ->
  In (k, v) (fold_left add_deal ds d) ->
  In v (pipeline_names (Some ds)) \/ In (k, v) d.
Proof.
  revert d. induction ds as [|x ds IH]; intros d Hd H; simpl in *; [auto|].
  apply IH in H; [|apply add_deal_keyed, Hd].
  rewrite in_app_iff.
  destruct H as [H|H]; [auto|].
  destruct x as [a|]; simpl in *; [|auto].
  destruct (truthy a); simpl; [|auto].
  apply set_In in H; [|apply Hd].
  destruct H as [[-> ->]|[H _]]; auto.
Qed.

(** *** The backup keys *)

Lemma add_backup_key_keyed (d : Dict.dict str) (key : str) :
  keyed_by_lower d -> keyed_by_lower (add_backup_key d key).
Proof.
  intros Hd. unfold add_backup_key.
  destruct (startswith _ key); [|exact Hd].
  destruct (negb _); [apply keyed_by_lower_set, Hd | exact Hd].
Qed.

Lemma backup_keyed (ks : list str) (d : Dict.dict str) :
  keyed_by_lower d -> keyed_by_lower (fold_left add_backup_key ks d).
Proof.
  revert d. induction ks as [|x ks IH]; intros d Hd; simpl; [exact Hd|].
  apply IH, add_backup_key_keyed, Hd.
Qed.

Lemma add_backup_key_covers (d : Dict.dict str) (key k : str) :
  In k (Dict.keys (add_backup_key d key)) <->
  In k (Dict.keys d)
  \/ (startswith "xits_acct_" key = true /\ k = lower (backup_name key)).
Proof.
  unfold add_backup_key.
  destruct (startswith _ key); [|intuition congruence].
  destruct (negb _) eqn:E.
  - rewrite keys_set. intuition auto.
  - apply negb_false_iff, mem_In in E.
    split; [auto|]. intros [H|[_ ->]]; assumption.
Qed.

Lemma backup_covers (ks : list str) (d : Dict.dict str) (k : str) :
  In k (Dict.keys (fold_left add_backup_key ks d)) <->
  In k (Dict.keys d) \/ In k (map lower (backup_names (Some ks))).
Proof.
  unfold backup_names.
  revert d. induction ks as [|x ks IH]; intros d;
    cbn [fold_left filter map In]; [tauto|].
  rewrite IH, add_backup_key_covers.
  destruct (startswith "xits_acct_" x); cbn [map In]; intuition congruence.
Qed.

(** A backup name never replaces an entry: the old entries all stay, and
    a new one has a key the dictionary did not have. *)
Lemma backup_entries (ks : list str) (d : Dict.dict str) (k v : str) :
  keyed_by_lower d ->
  In (k, v) (fold_left add_backup_key ks d) ->
  In (k, v) d
  \/ (In v (backup_names (Some ks)) /\ ~ In k (Dict.keys d)).
Proof.
  unfold backup_names.
  revert d. induction ks as [|x ks IH]; intros d Hd H;
    cbn [fold_left filter map In] in *; [auto|].
  apply IH in H; [|apply add_backup_key_keyed, Hd].
  unfold add_backup_key in H.
  destruct (startswith "xits_acct_" x) eqn:Ex; cbn [map In].
  - destruct (negb _) eqn:E.
    + apply negb_true_iff in E.
      assert (Hnew : ~ In (lower (backup_name x)) (Dict.keys d)).
      { rewrite <- mem_In. congruence. }
      destruct H as [H|[H Hk]].
      * apply set_In in H; [|apply Hd].
        destruct H as [[-> ->]|[H _]]; auto.
      * right. split; [auto|]. rewrite keys_set in Hk. tauto.
    + destruct H as [H|[H Hk]]; auto.
  - destruct H as [H|[H Hk]]; auto.
Qed.

End Directory.

Lemma merge_accounts_keyed (deals : option (list (option str)))
      (keys : option (list str)) (hardcoded : list str) :
  keyed_by_lower (merge_accounts deals keys hardcoded).
Proof.
  unfold merge_accounts. apply fallback_keyed.
  destruct keys as [ks|]; [apply backup_keyed|];
    (destruct deals as [ds|]; [apply deals_keyed|]);
    apply keyed_by_lower_empty.
Qed.

(** C4. For every content of the pipeline, of the backup and of the
    hardcoded list: no two names of the directory agree up to letter case;
    every name of a source has an entry that agrees with it up to case; and
    every entry has the casing of the highest-precedence source that has
    the name (hardcoded, else pipeline, else backup). *)
Theorem merge_accounts_precedence (deals : option (list (option str)))
        (keys : option (list str)) (hardcoded : list str) :
  let directory := Dict.values (merge_accounts deals keys hardcoded) in
  NoDup (map lower directory) /\
  (forall n,
      In n hardcoded \/ In n (pipeline_names deals)
      \/ In n (backup_names keys) ->
      exists v, In v directory /\ same_account v n) /\
  (forall v,
      In v directory ->
      In v hardcoded
      \/ (In v (pipeline_names deals) /\ absent_from v hardcoded)
      \/ (In v (backup_names keys) /\ absent_from v hardcoded
          /\ absent_from v (pipeline_names deals))).
Proof.
  intros directory. subst directory.
  pose proof (merge_accounts_keyed deals keys hardcoded) as Hk.
  split; [|split].
  - rewrite keyed_by_lower_values by exact Hk. apply Hk.
  - intros n Hn.
    assert (Hin : In (lower n)
                     (Dict.keys (merge_accounts deals keys hardcoded))).
    { unfold merge_accounts. rewrite fallback_covers.
      destruct Hn as [Hn|Hn]; [right; apply in_map; exact Hn|]. left.
      destruct keys as [ks|]; [rewrite backup_covers|];
        (destruct deals as [ds|]; [rewrite deals_covers|]);
        simpl in *; intuition auto using in_map. }
    rewrite <- (keyed_by_lower_values Hk) in Hin.
    apply in_map_iff in Hin. destruct Hin as [v [E Hv]].
    exists v. split; [exact Hv | exact E].
  - intros v Hv. apply values_In_inv in Hv. destruct Hv as [k Hv].
    assert (Ek : k = lower v) by (apply Hk; exact Hv).
    assert (Habs : forall l, ~ In k (map lower l) -> absent_from v l).
    { intros l Hl n Hn E. apply Hl. rewrite Ek, E. apply in_map, Hn. }
    unfold merge_accounts in Hv.
    set (d1 := match deals with
               | Some ds => fold_left add_deal ds Dict.empty
               | None => Dict.empty end) in *.
    set (d2 := match keys with
               | Some ks => fold_left add_backup_key ks d1
               | None => d1 end) in *.
    assert (H1 : keyed_by_lower d1).
    { subst d1. destruct deals; [apply deals_keyed|];
        apply keyed_by_lower_empty. }
    assert (H2 : keyed_by_lower d2).
    { subst d2. destruct keys; [apply backup_keyed|]; exact H1. }
    apply fallback_entries in Hv; [|exact H2].
    destruct Hv as [Hv|[Hv Hf]]; [auto|]. right.
    assert (Hd1 : In (k, v) d1 -> In v (pipeline_names deals)).
    { subst d1. destruct deals as [ds|]; [|intros []].
      intros H. apply deals_entries in H; [|apply keyed_by_lower_empty].
      destruct H as [H|[]]. exact H. }
    assert (Hk1 : ~ In k (Dict.keys d1) ->
                  ~ In k (map lower (pipeline_names deals))).
    { subst d1. destruct deals as [ds|]; [|simpl; tauto].
      rewrite deals_covers. tauto. }
    subst d2. destruct keys as [ks|].
    + apply backup_entries in Hv; [|exact H1].
      destruct Hv as [Hv|[Hv Hn]]; [left; auto|].
      right. auto.
    + left. auto.
Qed.

(** The directory the process uses is this merge with the hardcoded list. *)
Lemma known_accounts_merge (w : world) :
  known_accounts w =
  Dict.values (merge_accounts (pipeline w) (backup w) fallback).
Proof. reflexivity. Qed.

Example directory_precedence :
  Dict.values
    (merge_accounts (Some [Some "SASKTEL"; Some "Acme Corp"; None; Some ""])
                    (Some ["xits_acct_acme_corp"; "xits_acct_Prairie_Co_";
                           "other_key"])
                    ["SaskTel"; "SIGA"])
  = ["SaskTel"; "Acme Corp"; "Prairie Co"; "SIGA"].
Proof. vm_compute. reflexivity. Qed.

(* ================================================================= *)
(** ** The candidate index *)

Section Candidates.

Lemma add_candidates_keys (d : Dict.dict str) (name k : str) :
  In k (Dict.keys (add_candidates d name)) <->
  In k (Dict.keys d) \/ derived_key k name.
Proof.
  unfold add_candidates, derived_key.
  destruct (3 <? length (first_word name)) eqn:E4;
    [apply Nat.ltb_lt in E4 | apply Nat.ltb_ge in E4];
    (destruct (2 <=? length (abbreviation name)) eqn:E3;
     [apply Nat.leb_le in E3 | apply Nat.leb_gt in E3]);
    (destruct (Str.eqb (lower (base_name name)) (lower name)) eqn:E2;
     [apply str_eqb_eq in E2 | apply str_eqb_neq in E2]);
    cbn [negb]; rewrite ?keys_set; intuition (try lia; try congruence).
Qed.

Lemma fold_candidates_keys (accounts : list str) (d : Dict.dict str)
      (k : str) :
  In k (Dict.keys (fold_left add_candidates accounts d)) <->
  In k (Dict.keys d) \/ exists name, In name accounts /\ derived_key k name.
Proof.
  revert d. induction accounts as [|a l IH]; intros d; simpl.
  - split; [auto | intros [H|[n [[] _]]]; exact H].
  - rewrite IH, add_candidates_keys. split.
    + intros [[H|H]|[n [Hn Hd]]]; eauto.
    + intros [H|[n [[->|Hn] Hd]]]; eauto.
Qed.

(** The keys of the index are the keys derived from the names. *)
Lemma candidates_keys (accounts : list str) (k : str) :
  In k (Dict.keys (build_match_candidates accounts)) <->
  exists name, In name accounts /\ derived_key k name.
Proof.
  unfold build_match_candidates. rewrite fold_candidates_keys.
  simpl. intuition auto.
Qed.

End Candidates.

(** C3 (as amended). For every directory, the keys of the index are
    exactly the keys derived from its names by the four rules; the
    first-word rule gives the lowercase first word of a name exactly when
    that word is longer than 3 characters, so a first word of exactly 4
    characters is a key. *)
Theorem first_word_key_threshold (accounts : list str) :
  (forall k,
      In k (Dict.keys (build_match_candidates accounts)) <->
      exists name, In name accounts /\ derived_key k name) /\
  (forall name,
      In name accounts ->
      3 < length (first_word name) ->
      In (lower (first_word name))
         (Dict.keys (build_match_candidates accounts))) /\
  (forall name,
      length (first_word name) <= 3 ->
      forall k,
        In k (Dict.keys (build_match_candidates [name])) ->
        k = lower name \/ k = lower (base_name name)
        \/ k = lower (abbreviation name)).
Proof.
  split; [|split].
  - intros k. apply candidates_keys.
  - intros name Hn Hlen. apply candidates_keys.
    exists name. split; [exact Hn|]. unfold derived_key. auto.
  - intros name Hlen k Hk. apply candidates_keys in Hk.
    destruct Hk as [n [[<-|[]] Hd]].
    unfold derived_key in Hd. intuition (try lia; auto).
Qed.

(** C3, the claim as stated, fails: the first word of "City of Regina" has
    exactly 4 characters, is none of the name's other keys, and is a key of
    the index. *)
Lemma first_word_of_four_is_a_key :
  ~ (forall name,
        length (first_word name) = 4 ->
        lower (first_word name) <> lower name ->
        lower (first_word name) <> lower (base_name name) ->
        lower (first_word name) <> lower (abbreviation name) ->
        ~ In (lower (first_word name))
             (Dict.keys (build_match_candidates [name]))).
Proof.
  intros H.
  apply (H "City of Regina"); try (vm_compute; congruence).
  vm_compute. auto.
Qed.

Example candidates_of_city_of_regina :
  build_match_candidates ["City of Regina"] =
  [ ("city of regina", "City of Regina"); ("cr", "City of Regina");
    ("city", "City of Regina") ].
Proof. vm_compute. reflexivity. Qed.

Example candidates_with_parenthetical :
  Dict.keys (build_match_candidates ["K+S Potash (Canada) Ltd"]) =
  [ "k+s potash (canada) ltd"; "k+s potash ltd"; "kspcl" ].
Proof. vm_compute. reflexivity. Qed.

(* ================================================================= *)
(** ** Account resolution: the exact-substring step *)

Section ExactStep.

Lemma insert_by_len_In (x y : str) (l : list str) :
  In y (insert_by_len x l) <-> y = x \/ In y l.
Proof.
  induction l as [|z l IH]; simpl.
  - intuition auto.
  - destruct (length z <=? length x); simpl; [|rewrite IH];
      intuition auto.
Qed.

Lemma sorted_by_len_In (y : str) (l : list str) :
  In y (sorted_by_len l) <-> In y l.
Proof.
  induction l as [|x l IH]; simpl; [tauto|].
  rewrite insert_by_len_In, IH. intuition auto.
Qed.

Lemma insert_by_len_sorted (x : str) (l : list str) :
  longest_first l -> longest_first (insert_by_len x l).
Proof.
  unfold longest_first. intros H.
  induction H as [|z l Hl IH Hz]; simpl.
  - constructor; constructor.
  - destruct (Nat.leb_spec (length z) (length x)) as [Hle|Hgt].
    + constructor; [constructor; assumption|].
      constructor; [exact Hle|].
      rewrite Forall_forall in *. intros y Hy.
      specialize (Hz y Hy). lia.
    + constructor; [exact IH|].
      rewrite Forall_forall in *. intros y Hy.
      apply insert_by_len_In in Hy. destruct Hy as [->|Hy]; [lia | auto].
Qed.

Lemma sorted_by_len_sorted (l : list str) : longest_first (sorted_by_len l).
Proof.
  induction l as [|x l IH]; simpl.
  - constructor.
  - apply insert_by_len_sorted, IH.
Qed.

(** Names of one length keep the order they came in. *)
Lemma insert_by_len_stable (x : str) (l : list str) (n : nat) :
  filter (fun y => length y =? n) (insert_by_len x l) =
  filter (fun y => length y =? n) (x :: l).
Proof.
  induction l as [|z l IH]; [reflexivity|].
  simpl. destruct (Nat.leb_spec (length z) (length x)) as [Hle|Hgt];
    [reflexivity|].
  simpl. simpl in IH. rewrite IH.
  destruct (Nat.eqb_spec (length x) n), (Nat.eqb_spec (length z) n);
    try reflexivity. lia.
Qed.

Lemma sorted_by_len_stable (l : list str) (n : nat) :
  filter (fun y => length y =? n) (sorted_by_len l) =
  filter (fun y => length y =? n) l.
Proof.
  induction l as [|x l IH]; [reflexivity|].
  simpl sorted_by_len. rewrite insert_by_len_stable. simpl.
  rewrite IH. reflexivity.
Qed.

(** In a list that is longest first, the first hit is a longest hit. *)
Lemma first_hit_longest (p : str -> bool) (l : list str) (k : str) :
  longest_first l ->
  find p l = Some k ->
  forall k', In k' l -> p k' = true -> length k' <= length k.
Proof.
  unfold longest_first. intros H.
  induction H as [|z l Hl IH Hz]; simpl; [discriminate|].
  destruct (p z) eqn:Ez.
  - intros [= <-] k' [<-|Hk'] _; [lia|].
    rewrite Forall_forall in Hz. auto.
  - intros Hf k' [<-|Hk'] Hp; [congruence | auto].
Qed.

Lemma find_hit (p : str -> bool) (l : list str) (x : str) :
  In x l -> p x = true -> exists k, find p l = Some k.
Proof.
  intros Hx Hp. destruct (find p l) as [k|] eqn:E; [eauto|].
  rewrite (find_none _ _ E x Hx) in Hp. discriminate.
Qed.

Lemma match_account_step1 (text : str) (directory : list str) (k : str) :
  exact_key (lower text)
            (sorted_by_len (Dict.keys (build_match_candidates directory)))
  = Some k ->
  match_account text directory = item k (build_match_candidates directory).
Proof. unfold match_account. intros ->. reflexivity. Qed.

End ExactStep.

(** C1 (as amended). For every canonical name A of length >= 4 in the
    directory and every text that contains A when letter case is not
    compared, the resolver answers in its exact-substring step: it returns
    the canonical name of the first key, longest first, of length >= 4 that
    occurs in the lowercased text.  That key is at least as long as A and
    no key occurring in the text is longer.  The answer is A when the index
    maps the lowercase form of A to A and no other key at least as long as
    A occurs in the lowercased text. *)
Theorem match_account_exact_substring (A text : str) (directory : list str) :
  In A directory ->
  4 <= length A ->
  occurs_ci A text = true ->
  let candidates := build_match_candidates directory in
  exists key,
    exact_key (lower text) (sorted_by_len (Dict.keys candidates)) = Some key
    /\ match_account text directory = item key candidates
    /\ In key (Dict.keys candidates)
    /\ 4 <= length key
    /\ contains key (lower text) = true
    /\ length A <= length key
    /\ (forall k,
           In k (Dict.keys candidates) -> 4 <= length k ->
           contains k (lower text) = true -> length k <= length key)
    /\ (Dict.get (lower A) candidates = Some A ->
        (forall k,
            In k (Dict.keys candidates) -> k <> lower A ->
            length A <= length k -> contains k (lower text) = false) ->
        match_account text directory = A).
Proof.
  intros HA Hlen Hocc candidates.
  set (names := sorted_by_len (Dict.keys candidates)).
  assert (HkA : In (lower A) names).
  { apply sorted_by_len_In, candidates_keys.
    exists A. split; [exact HA | left; reflexivity]. }
  assert (HpA : exact_hit (lower text) (lower A) = true).
  { unfold exact_hit. rewrite lower_length.
    apply andb_true_iff. split; [apply Nat.leb_le; exact Hlen | exact Hocc]. }
  destruct (find_hit (exact_hit (lower text)) names (lower A) HkA HpA)
    as [key Hkey].
  assert (Hstep : match_account text directory = item key candidates)
    by (apply match_account_step1; exact Hkey).
  destruct (find_some _ _ Hkey) as [Hin Hhit].
  apply andb_true_iff in Hhit. destruct Hhit as [H4 Hc].
  apply Nat.leb_le in H4.
  pose proof (first_hit_longest (exact_hit (lower text))
                (sorted_by_len_sorted (Dict.keys candidates)) Hkey) as Hmax.
  assert (HlenA : length A <= length key).
  { rewrite <- (lower_length A). apply Hmax; assumption. }
  exists key. repeat (split; [first [assumption
                                    | apply sorted_by_len_In; assumption]|]).
  split.
  - intros k Hk Hk4 Hkc. apply Hmax; [apply sorted_by_len_In; exact Hk|].
    unfold exact_hit. apply andb_true_iff.
    split; [apply Nat.leb_le; exact Hk4 | exact Hkc].
  - intros Hget Hothers. rewrite Hstep.
    destruct (list_eq_dec ascii_dec key (lower A)) as [->|Hne].
    + unfold item. rewrite Hget. reflexivity.
    + rewrite (Hothers key) in Hc;
        [discriminate | apply sorted_by_len_In; exact Hin | exact Hne
         | exact HlenA].
Qed.

(** The theorem at a text that names one account of the hardcoded list. *)
Lemma match_account_exact_substring_sasktel :
  match_account "Called SASKTEL about the renewal" ["SaskTel"; "SIGA"]
  = "SaskTel".
Proof.
  destruct (match_account_exact_substring
              "SaskTel" "Called SASKTEL about the renewal"
              ["SaskTel"; "SIGA"])
    as [key [_ [_ [_ [_ [_ [_ [_ H]]]]]]]].
  - simpl. auto.
  - simpl. lia.
  - vm_compute. reflexivity.
  - apply H.
    + vm_compute. reflexivity.
    + intros k Hk Hne Hlen. vm_compute in Hk.
      destruct Hk as [<-|[<-|[<-|[]]]];
        first [vm_compute; reflexivity | exfalso; apply Hne; reflexivity].
Defined.

(** C1, the claim as stated, fails: the text below contains the canonical
    name "SIGA" and no other canonical name, but the longer first-word key
    "saskatchewan" is found first. *)
Lemma match_account_longer_key_first :
  ~ (forall A text directory,
        In A directory ->
        4 <= length A ->
        occurs_ci A text = true ->
        match_account text directory = A).
Proof.
  intros H.
  specialize (H "SIGA" "the SIGA office in Saskatchewan" fallback).
  assert (E : match_account "the SIGA office in Saskatchewan" fallback
              = "Saskatchewan Gaming Corporation")
    by (vm_compute; reflexivity).
  rewrite E in H. discriminate H.
  - vm_compute. tauto.
  - vm_compute. lia.
  - vm_compute. reflexivity.
Qed.

Example resolve_longest_name :
  match_account "met City of Regina at Regina General Hospital" fallback
  = "Regina General Hospital".
Proof. vm_compute. reflexivity. Qed.

(* ================================================================= *)
(** ** Facts about the matcher *)

Section MatcherFacts.

Variable ic : bool.

Lemma advance_forward (n : nat) (c : cursor) :
  exists pre,
    ahead c = pre ++ ahead (advance n c)
    /\ seen (advance n c) = rev pre ++ seen c.
Proof.
  revert c. induction n as [|n IH]; intros [sn ah g].
  - exists []. split; reflexivity.
  - destruct ah as [|x ah]; [exists []; split; reflexivity|].
    destruct (IH (Cursor (x :: sn) ah g)) as [pre [Ha Hs]].
    exists (x :: pre). cbn [advance ahead seen group1] in *. split.
    + simpl. f_equal. exact Ha.
    + simpl. rewrite Hs, <- app_assoc. reflexivity.
Qed.

Lemma runs_forward (lazy : bool) (p : ascii -> bool) (g : option str)
      (ah sn : str) (c' : cursor) :
  In c' (runs lazy ic p sn g ah) ->
  exists pre, ah = pre ++ ahead c' /\ seen c' = rev pre ++ sn.
Proof.
  revert sn. induction ah as [|x ah IH]; intros sn; simpl.
  - intros [<-|[]]. exists []. split; reflexivity.
  - assert (Hhere : forall c0, Cursor sn (x :: ah) g = c0 ->
                               exists pre, x :: ah = pre ++ ahead c0
                                           /\ seen c0 = rev pre ++ sn)
      by (intros c0 <-; exists []; split; reflexivity).
    assert (Hnext : In c' (runs lazy ic p (x :: sn) g ah) ->
                    exists pre, x :: ah = pre ++ ahead c'
                                /\ seen c' = rev pre ++ sn).
    { intros H. destruct (IH _ H) as [pre [Ha Hs]].
      exists (x :: pre). split; [simpl; f_equal; exact Ha|].
      simpl. rewrite Hs, <- app_assoc. reflexivity. }
    destruct (in_class ic p x); [|intros [H|[]]; auto].
    destruct lazy.
    + intros [H|H]; auto.
    + rewrite in_app_iff. intros [H|[H|[]]]; auto.
Qed.

(** A match only moves forward: what it passes goes from [ahead] to
    [seen]. *)
Lemma rmatch_forward (r : re) (c c' : cursor) :
  In c' (rmatch ic r c) ->
  exists pre, ahead c = pre ++ ahead c' /\ seen c' = rev pre ++ seen c.
Proof.
  revert c c'.
  assert (Hstay : forall c, exists pre,
               ahead c = pre ++ ahead c /\ seen c = rev pre ++ seen c)
    by (intros c; exists []; split; reflexivity).
  induction r as [s|p|lazy p|r1 IH1 r2 IH2|r1 IH1 r2 IH2|r1 IH1|r1 IH1| | |];
    intros c c'; simpl.
  - destruct (lit_ahead ic s (ahead c)); [|intros []].
    intros [<-|[]]. apply advance_forward.
  - destruct (ahead c) as [|x ah] eqn:Ea; [intros []|].
    destruct (in_class ic p x); [|intros []].
    intros [<-|[]]. exists [x]. split; reflexivity.
  - apply runs_forward.
  - rewrite in_flat_map. intros [c1 [H1 H2]].
    destruct (IH1 _ _ H1) as [p1 [Ha1 Hs1]].
    destruct (IH2 _ _ H2) as [p2 [Ha2 Hs2]].
    exists (p1 ++ p2). split.
    + rewrite Ha1, Ha2, app_assoc. reflexivity.
    + rewrite Hs2, Hs1, rev_app_distr, app_assoc. reflexivity.
  - rewrite in_app_iff. intros [H|H]; auto.
  - rewrite in_app_iff. intros [H|[<-|[]]]; auto.
  - rewrite in_map_iff. intros [c1 [<- H]]. simpl. auto.
  - destruct (at_boundary c); [intros [<-|[]]; auto | intros []].
  - destruct (seen c) eqn:Es; [|intros []].
    intros [<-|[]]. exists []. rewrite Es. split; reflexivity.
  - destruct (at_end c); [intros [<-|[]]; auto | intros []].
Qed.

Lemma match_at_forward (r : re) (sn ah : str) (c : cursor) :
  match_at ic r sn ah = Some c ->
  exists pre, ah = pre ++ ahead c /\ seen c = rev pre ++ sn.
Proof.
  unfold match_at. intros H.
  destruct (rmatch ic r (Cursor sn ah None)) as [|c0 l] eqn:E;
    [discriminate|].
  injection H as ->.
  apply (rmatch_forward r (Cursor sn ah None)). rewrite E. left. reflexivity.
Qed.

(** An anchored pattern matches nowhere but at the start. *)
Lemma anchored_later (r : re) (x : ascii) (sn ah : str) :
  match_at ic (Seq Bol r) (x :: sn) ah = None.
Proof. reflexivity. Qed.

Lemma sub_go_anchored (r : re) (repl : str) (skip : nat) (x : ascii)
      (sn ah : str) :
  sub_go ic (Seq Bol r) repl skip (x :: sn) ah = skipn skip ah.
Proof.
  revert skip x sn. induction ah as [|y ah IH]; intros skip x sn.
  - destruct skip; reflexivity.
  - destruct skip as [|k]; cbn [sub_go skipn].
    + rewrite anchored_later, IH. reflexivity.
    + apply IH.
Qed.

(** Substituting the empty string for an anchored pattern cuts the one
    match at the start of the text, if there is one. *)
Lemma sub_anchored (r : re) (s : str) :
  sub ic (Seq Bol r) "" s =
  match match_at ic (Seq Bol r) [] s with
  | Some c => ahead c
  | None => s
  end.
Proof.
  unfold sub. destruct s as [|x s].
  - cbn [sub_go].
    destruct (match_at ic (Seq Bol r) [] []) as [c|] eqn:E; [|reflexivity].
    apply match_at_forward in E. destruct E as [pre [E _]].
    symmetry in E. apply app_eq_nil in E. symmetry. apply E.
  - cbn [sub_go].
    destruct (match_at ic (Seq Bol r) [] (x :: s)) as [c|] eqn:E.
    + apply match_at_forward in E. destruct E as [pre [E _]].
      rewrite E at 1. rewrite length_app, Nat.add_sub.
      destruct pre as [|y pre]; cbn [length].
      * rewrite sub_go_anchored. simpl in E. rewrite <- E. reflexivity.
      * rewrite sub_go_anchored. cbn [app].
        injection E as -> ->. simpl.
        rewrite skipn_app, skipn_all, Nat.sub_diag. reflexivity.
    + rewrite sub_go_anchored. reflexivity.
Qed.

End MatcherFacts.

(* ================================================================= *)
(** ** The summary *)

Lemma strip_preamble_cut (r : re) (s : str) :
  strip_preamble s (Seq Bol r) = strip (cut_opener (Seq Bol r) s).
Proof.
  unfold strip_preamble, cut_opener. rewrite sub_anchored. reflexivity.
Qed.

Lemma cut_opener_suffix (r : re) (s : str) :
  exists opener, s = opener ++ cut_opener r s.
Proof.
  unfold cut_opener.
  destruct (match_at true r [] s) as [c|] eqn:E.
  - apply match_at_forward in E. destruct E as [pre [E _]]. eauto.
  - exists []. reflexivity.
Qed.

(** C8 (as amended). For every input text the summary builder applies
    both preamble patterns in turn, each cutting at most one match at the
    start of the text: first a filler opener, then, on what is left once
    trimmed, an activity-verb opener, whether or not a filler opener was
    cut.  A text that begins with a filler opener followed by an
    activity-verb opener loses both. *)
Theorem stripped_summary_cuts_both (text : str) :
  stripped_summary text =
    strip (cut_opener verb_preamble
             (strip (cut_opener filler_preamble (strip text)))) /\
  (forall s, exists opener, s = opener ++ cut_opener filler_preamble s) /\
  (forall s, exists opener, s = opener ++ cut_opener verb_preamble s) /\
  (forall c1 c2,
      match_at true filler_preamble [] (strip text) = Some c1 ->
      match_at true verb_preamble [] (strip (ahead c1)) = Some c2 ->
      stripped_summary text = strip (ahead c2)).
Proof.
  assert (E : stripped_summary text =
              strip (cut_opener verb_preamble
                       (strip (cut_opener filler_preamble (strip text))))).
  { unfold stripped_summary, preambles. cbn [fold_left].
    unfold filler_preamble at 1, verb_preamble at 1. cbn [seq].
    rewrite !strip_preamble_cut. reflexivity. }
  split; [exact E|]. split; [|split].
  - intros s. apply cut_opener_suffix.
  - intros s. apply cut_opener_suffix.
  - intros c1 c2 H1 H2. rewrite E.
    unfold cut_opener at 2. rewrite H1.
    unfold cut_opener. rewrite H2. reflexivity.
Qed.

(** C8, the claim as stated, fails: "I called Bob about the renewal"
    begins with the filler opener "I " followed by the verb opener
    "called "; cutting one preamble would leave "Called Bob ...", the
    builder cuts both. *)
Lemma stripped_summary_not_one_preamble :
  ~ (forall text, stripped_summary text = strip_one_preamble text).
Proof.
  intros H. specialize (H "I called Bob about the renewal").
  vm_compute in H. discriminate H.
Qed.

Example summary_loses_both :
  stripped_summary "I called Bob about the renewal" = "Bob about the renewal"
  /\ strip_one_preamble "I called Bob about the renewal"
     = "called Bob about the renewal"
  /\ build_summary "I called Bob about the renewal" "" "Bob" Call
     = "Bob about the renewal".
Proof. vm_compute. auto. Qed.

Example summary_case_blind :
  stripped_summary "JUST Spoke With the buyer about pricing"
  = "the buyer about pricing".
Proof. vm_compute. reflexivity. Qed.

Lemma build_summary_unfold (text account contact : str) (kind : activity) :
  build_summary text account contact kind =
  capitalize_first
    (if length (stripped_summary text) <? 10
     then strip text else stripped_summary text).
Proof. reflexivity. Qed.

Lemma capitalize_first_head (s : str) (c : ascii) (rest : str) :
  capitalize_first s = c :: rest ->
  exists c0, s = c0 :: rest /\ c = upper_char c0.
Proof.
  destruct s as [|c0 s]; simpl; [discriminate|].
  intros [= <- <-]. eauto.
Qed.

(** C9 (as amended). For every input text, if the text left after the
    preambles were cut is shorter than 10 characters, the summary builder
    uses the input text with its surrounding whitespace trimmed, and no
    preamble cut, in its place; in all cases the first character of the
    result is upper-cased: it is its own upper-case form and no lowercase
    letter. *)
Theorem build_summary_short_fallback (text account contact : str)
        (kind : activity) :
  let result := build_summary text account contact kind in
  (length (stripped_summary text) < 10 ->
   result = capitalize_first (strip text)) /\
  (10 <= length (stripped_summary text) ->
   result = capitalize_first (stripped_summary text)) /\
  (forall c rest,
      result = c :: rest ->
      upper_char c = c /\ is_lower c = false).
Proof.
  intros result. subst result. rewrite build_summary_unfold.
  split; [|split].
  - intros H. apply Nat.ltb_lt in H. rewrite H. reflexivity.
  - intros H. apply Nat.ltb_ge in H. rewrite H. reflexivity.
  - intros c rest H. apply capitalize_first_head in H.
    destruct H as [c0 [_ ->]].
    split; [apply upper_char_idem | apply upper_char_not_lower].
Qed.

(** C9, the claim as stated, fails: on " Hi" the fallback is the trimmed
    text "Hi", not the untouched input. *)
Lemma build_summary_fallback_is_trimmed :
  ~ (forall text account contact kind,
        length (stripped_summary text) < 10 ->
        build_summary text account contact kind = capitalize_first text).
Proof.
  intros H. specialize (H " Hi" "" "" Note).
  assert (Hlen : length (stripped_summary " Hi") < 10)
    by (vm_compute; lia).
  specialize (H Hlen). vm_compute in H. discriminate H.
Qed.

(** The summaries the specification lists. *)
Example summary_filler_cut :
  build_summary "I had a great call" "" "" Call = "Had a great call".
Proof. vm_compute. reflexivity. Qed.

Example summary_short :
  build_summary "Hi" "" "" Note = "Hi"
  /\ build_summary "hi" "" "" Note = "Hi"
  /\ build_summary "note hi" "" "" Note = "Note hi".
Proof. vm_compute. auto. Qed.

(* ================================================================= *)
(** ** Letter case and the ignore-case matcher *)

Section CaseBlind.

Ltac each_char x :=
  destruct x as [[] [] [] [] [] [] [] []]; vm_compute; try reflexivity.

Lemma lower_lower (s : str) : lower (lower s) = lower s.
Proof.
  unfold lower. rewrite map_map. apply map_ext. apply lower_char_idem.
Qed.

Lemma same_char_lower (a b : ascii) :
  same_char true a (lower_char b) = same_char true a b.
Proof. unfold same_char. rewrite lower_char_idem. reflexivity. Qed.

Lemma lit_ahead_lower (p t : str) :
  lit_ahead true p (lower t) = lit_ahead true p t.
Proof.
  revert t. induction p as [|a p IH]; intros [|b t];
    cbn [lit_ahead lower map]; try reflexivity.
  rewrite same_char_lower. f_equal. apply IH.
Qed.

Lemma in_class_lower (p : ascii -> bool) (x : ascii) :
  in_class true p (lower_char x) = in_class true p x.
Proof.
  each_char x;
    repeat match goal with
           | |- context [p ?y] => destruct (p y)
           end; reflexivity.
Qed.

Lemma newline_lower (x : ascii) :
  eqb_char (lower_char x) newline = eqb_char x newline.
Proof. each_char x. Qed.

Lemma lower_cursor_advance (n : nat) (c : cursor) :
  advance n (lower_cursor c) = lower_cursor (advance n c).
Proof.
  revert c. induction n as [|n IH]; intros [sn ah g]; [reflexivity|].
  destruct ah as [|x ah]; [reflexivity|].
  cbn [advance lower_cursor ahead seen group1 lower map].
  apply (IH (Cursor (x :: sn) ah g)).
Qed.

Lemma runs_lower (lazy : bool) (p : ascii -> bool) (g : option str)
      (ah sn : str) :
  runs lazy true p (lower sn) (option_map lower g) (lower ah) =
  map lower_cursor (runs lazy true p sn g ah).
Proof.
  revert sn. induction ah as [|x ah IH]; intros sn; [reflexivity|].
  change (lower (x :: ah)) with (lower_char x :: lower ah).
  cbn [runs]. rewrite in_class_lower.
  destruct (in_class true p x); [|reflexivity].
  change (lower_char x :: lower sn) with (lower (x :: sn)).
  rewrite IH. destruct lazy; [reflexivity|].
  rewrite map_app. reflexivity.
Qed.

Lemma head_is_word_lower (s : str) :
  head_is is_word (lower s) = head_is is_word s.
Proof. destruct s as [|x s]; [reflexivity | apply is_word_lower]. Qed.

Lemma at_boundary_lower (c : cursor) :
  at_boundary (lower_cursor c) = at_boundary c.
Proof.
  unfold at_boundary. cbn [lower_cursor seen ahead].
  rewrite !head_is_word_lower. reflexivity.
Qed.

Lemma at_end_lower (c : cursor) : at_end (lower_cursor c) = at_end c.
Proof.
  unfold at_end. cbn [lower_cursor ahead].
  destruct (ahead c) as [|x [|y t]]; try reflexivity.
  apply newline_lower.
Qed.

Lemma captured_lower (c c' : cursor) :
  captured (lower_cursor c) (lower_cursor c') = lower (captured c c').
Proof.
  unfold captured. cbn [lower_cursor ahead].
  rewrite !lower_length. unfold lower. rewrite firstn_map. reflexivity.
Qed.

Lemma flat_map_lower (f : cursor -> list cursor) (l : list cursor) :
  (forall c, f (lower_cursor c) = map lower_cursor (f c)) ->
  flat_map f (map lower_cursor l) = map lower_cursor (flat_map f l).
Proof.
  intros Hf. induction l as [|c l IH]; [reflexivity|].
  cbn [map flat_map]. rewrite Hf, IH, map_app. reflexivity.
Qed.

(** With [re.IGNORECASE], lowering the letters of the subject lowers the
    letters of every match and changes nothing else. *)
Lemma rmatch_lower (r : re) (c : cursor) :
  rmatch true r (lower_cursor c) = map lower_cursor (rmatch true r c).
Proof.
  revert c.
  induction r as [s|p|lazy p|r1 IH1 r2 IH2|r1 IH1 r2 IH2|r1 IH1|r1 IH1| | |];
    intros c; cbn [rmatch].
  - change (ahead (lower_cursor c)) with (lower (ahead c)).
    rewrite lit_ahead_lower.
    destruct (lit_ahead true s (ahead c)); [|reflexivity].
    cbn [map]. rewrite lower_cursor_advance. reflexivity.
  - destruct c as [sn [|x ah] g]; [reflexivity|].
    cbn [lower_cursor ahead lower map]. rewrite in_class_lower.
    destruct (in_class true p x); reflexivity.
  - apply runs_lower.
  - rewrite IH1. apply flat_map_lower. exact IH2.
  - rewrite IH1, IH2, map_app. reflexivity.
  - rewrite IH1, map_app. reflexivity.
  - rewrite IH1, !map_map. apply map_ext. intros c'.
    rewrite captured_lower. reflexivity.
  - rewrite at_boundary_lower. destruct (at_boundary c); reflexivity.
  - destruct c as [[|x sn] ah g]; reflexivity.
  - rewrite at_end_lower. destruct (at_end c); reflexivity.
Qed.

Lemma match_at_lower (r : re) (sn ah : str) :
  match_at true r (lower sn) (lower ah) =
  option_map lower_cursor (match_at true r sn ah).
Proof.
  unfold match_at.
  change (Cursor (lower sn) (lower ah) None)
    with (lower_cursor (Cursor sn ah None)).
  rewrite rmatch_lower.
  destruct (rmatch true r (Cursor sn ah None)); reflexivity.
Qed.

Lemma search_from_lower (r : re) (ah sn : str) :
  search_from true r (lower sn) (lower ah) =
  option_map lower_cursor (search_from true r sn ah).
Proof.
  revert sn. induction ah as [|x ah IH]; intros sn.
  - pose proof (match_at_lower r sn []) as H.
    change (lower []) with (@nil ascii) in *.
    cbn [search_from]. rewrite H.
    destruct (match_at true r sn []); reflexivity.
  - pose proof (match_at_lower r sn (x :: ah)) as H.
    change (lower (x :: ah)) with (lower_char x :: lower ah) in *.
    cbn [search_from]. rewrite H.
    destruct (match_at true r sn (x :: ah)); [reflexivity|].
    apply (IH (x :: sn)).
Qed.

Lemma search_lower (r : re) (s : str) :
  search true r (lower s) = option_map lower_cursor (search true r s).
Proof. apply (search_from_lower r s []). Qed.

Lemma lstrip_lower (s : str) : lstrip (lower s) = lower (lstrip s).
Proof.
  induction s as [|x s IH]; [reflexivity|].
  cbn [lower map lstrip]. rewrite is_space_lower.
  destruct (is_space x); [exact IH | reflexivity].
Qed.

Lemma strip_lower (s : str) : strip (lower s) = lower (strip s).
Proof.
  assert (Hrev : forall l, rev (lower l) = lower (rev l))
    by (intros l; unfold lower; rewrite map_rev; reflexivity).
  unfold strip, rstrip.
  rewrite lstrip_lower, Hrev, lstrip_lower, Hrev. reflexivity.
Qed.

Lemma group_lower (c : cursor) : group (lower_cursor c) = lower (group c).
Proof. unfold group. destruct c as [sn ah [g|]]; reflexivity. Qed.

(** The fragment of step 2 depends on the text only up to letter case. *)
Lemma prep_fragment_lower (text : str) :
  prep_fragment (lower text) = prep_fragment text.
Proof.
  unfold prep_fragment, prep_match. rewrite search_lower.
  destruct (search true prep_pattern text) as [m|]; [|reflexivity].
  cbn [option_map]. rewrite group_lower, strip_lower, lower_lower.
  reflexivity.
Qed.

Lemma prep_step_fragment (text : str) (candidates : Dict.dict str) :
  prep_step text candidates =
  match prep_fragment text with
  | Some fragment =>
      match Difflib.get_close_matches fragment (Dict.keys candidates)
                                      cutoff_prep with
      | best :: _ => Some (item best candidates)
      | [] => None
      end
  | None => None
  end.
Proof.
  unfold prep_step, prep_fragment.
  destruct (prep_match text); reflexivity.
Qed.

End CaseBlind.

(** C2 (as amended). In the resolver's second step the search for a cue
    word followed by a terminated fragment is case-insensitive: for every
    two ASCII texts that differ only in letter case, the step is triggered
    on both or on neither, hands the same lowercased fragment to the fuzzy
    match, and gives the same answer; a cue word in another letter case
    triggers the step as the lowercase cue does.  (The texts are ASCII:
    outside ASCII two texts with one lowercase form need not match
    alike.) *)
Theorem prep_step_case_blind (text text' : str)
        (candidates : Dict.dict str) :
  is_ascii_text text = true ->
  is_ascii_text text' = true ->
  lower text = lower text' ->
  (prep_match text = None <-> prep_match text' = None) /\
  prep_fragment text = prep_fragment text' /\
  prep_step text candidates = prep_step text' candidates.
Proof.
  intros _ _ E.
  assert (Hf : prep_fragment text = prep_fragment text').
  { rewrite <- (prep_fragment_lower text), <- (prep_fragment_lower text'), E.
    reflexivity. }
  split; [|split].
  - unfold prep_fragment in Hf.
    destruct (prep_match text), (prep_match text'); simpl in Hf;
      split; congruence.
  - exact Hf.
  - rewrite !prep_step_fragment, Hf. reflexivity.
Qed.

(** The theorem at a text whose cue word is in upper case. *)
Lemma prep_step_case_blind_upper :
  prep_step "BEAT Nutrein" (build_match_candidates ["Nutrien Ltd"])
  = prep_step "beat nutrein" (build_match_candidates ["Nutrien Ltd"]).
Proof.
  apply (prep_step_case_blind "BEAT Nutrein" "beat nutrein");
    vm_compute; reflexivity.
Defined.

(** C2, the claim as stated, fails: in "BEAT Nutrein" no cue word occurs
    in lower case, the only cue is the upper-case "AT", and the step is
    triggered. *)
Lemma prep_match_upper_case_cue :
  ~ (forall text,
        (forall cue, In cue cue_words -> contains cue text = false) ->
        prep_match text = None).
Proof.
  intros H. specialize (H "BEAT Nutrein").
  assert (Hno : forall cue, In cue cue_words ->
                            contains cue "BEAT Nutrein" = false).
  { intros cue Hc. vm_compute in Hc.
    repeat (destruct Hc as [<-|Hc]; [vm_compute; reflexivity|]).
    destruct Hc. }
  specialize (H Hno). vm_compute in H. discriminate H.
Qed.

(** On that text the answer of the resolver comes from step 2: steps 1
    and 3 find nothing, and a case-sensitive search would not fire. *)
Example resolve_upper_case_cue :
  let candidates := build_match_candidates ["Nutrien Ltd"] in
  exact_key (lower "BEAT Nutrein") (sorted_by_len (Dict.keys candidates))
  = None
  /\ option_map group (prep_match "BEAT Nutrein") = Some "Nutrein"
  /\ prep_step "BEAT Nutrein" candidates = Some "Nutrien Ltd"
  /\ window_step (split "BEAT Nutrein") candidates [4; 3; 2] = None
  /\ search false prep_pattern "BEAT Nutrein" = None
  /\ match_account "BEAT Nutrein" ["Nutrien Ltd"] = "Nutrien Ltd".
Proof. vm_compute. repeat split; reflexivity. Qed.

(* ================================================================= *)
(** ** Facts about [difflib]: the fuel of [matched] is enough *)

Section MatchedFuel.

Import Difflib.

Variables (a b : str) (alo ahi blo bhi : nat).


Lemma scan_j_inside (i : nat) (j2len : list (nat * nat))
      (st : block * list (nat * nat)) (j : nat) :
  alo <= i < ahi ->
  inside alo ahi (fst st) -> inside alo ahi (fst (scan_j blo bhi i j2len st j)).
Proof.
  intros Hi. destruct st as [best new]. unfold scan_j. simpl fst.
  intros H.
  destruct (j <? blo); [exact H|].
  destruct (bhi <=? j); [exact H|].
  destruct (bestsize best <? prev_len j2len j + 1); [|exact H].
  right. simpl. lia.
Qed.

Lemma scan_i_inside (st : block * list (nat * nat)) (i : nat) :
  alo <= i < ahi ->
  inside alo ahi (fst st) -> inside alo ahi (fst (scan_i a b blo bhi st i)).
Proof.
  intros Hi. destruct st as [best j2len]. unfold scan_i. simpl fst.
  intros H.
  assert (G : forall js st0, inside alo ahi (fst st0) ->
                inside alo ahi (fst (fold_left (scan_j blo bhi i j2len) js st0))).
  { induction js as [|j js IH]; intros st0 H0; [exact H0|].
    simpl. apply IH, scan_j_inside; assumption. }
  apply G. exact H.
Qed.

Lemma scan_inside (rows : list nat) (st : block * list (nat * nat)) :
  (forall i, In i rows -> alo <= i < ahi) ->
  inside alo ahi (fst st) ->
  inside alo ahi (fst (fold_left (scan_i a b blo bhi) rows st)).
Proof.
  revert st. induction rows as [|i rows IH]; intros st His H; [exact H|].
  simpl. apply IH.
  - intros i' Hi'. apply His. right. exact Hi'.
  - apply scan_i_inside; [apply His; left; reflexivity | exact H].
Qed.

Lemma extend_left_inside (bi bj bs : nat) :
  inside alo ahi (Block bi bj bs) ->
  inside alo ahi (extend_left a b alo blo bi bj bs).
Proof.
  revert bj bs. induction bi as [|bi IH]; intros bj bs H; [exact H|].
  simpl. destruct bj as [|bj]; [exact H|].
  destruct (_ && _) eqn:Eg; [|exact H].
  apply andb_true_iff in Eg. destruct Eg as [Eg _].
  apply andb_true_iff in Eg. destruct Eg as [Eg _].
  apply Nat.leb_le in Eg.
  apply IH. unfold inside in *. simpl in *. right. lia.
Qed.

Lemma extend_right_inside (room bi bj bs : nat) :
  room <= ahi - (bi + bs) ->
  inside alo ahi (Block bi bj bs) ->
  inside alo ahi (extend_right a b bhi room bi bj bs).
Proof.
  revert bs. induction room as [|room IH]; intros bs Hr H; [exact H|].
  simpl. destruct (_ && _); [|exact H].
  apply IH; [lia|]. unfold inside in *. simpl in *. right. lia.
Qed.

Lemma find_longest_match_inside :
  inside alo ahi (find_longest_match a b alo ahi blo bhi).
Proof.
  unfold find_longest_match.
  set (best0 := fst (fold_left _ _ _)).
  assert (H0 : inside alo ahi best0).
  { apply scan_inside.
    - intros i Hi. apply in_seq in Hi. lia.
    - left. split; reflexivity. }
  set (best1 := extend_left _ _ _ _ _ _ _).
  assert (H1 : inside alo ahi best1).
  { apply extend_left_inside. destruct best0. exact H0. }
  apply extend_right_inside; [lia|]. destruct best1. exact H1.
Qed.

End MatchedFuel.

(** Any fuel above the width of the window of [a] gives [matched] the
    same value: the recursion is over before the fuel is. *)
Lemma matched_fuel (a b : str) (fuel fuel' alo ahi blo bhi : nat) :
  ahi - alo < fuel -> ahi - alo < fuel' ->
  Difflib.matched fuel a b alo ahi blo bhi =
  Difflib.matched fuel' a b alo ahi blo bhi.
Proof.
  revert fuel' alo ahi blo bhi.
  induction fuel as [|fuel IH]; intros fuel' alo ahi blo bhi H H'; [lia|].
  destruct fuel' as [|fuel']; [lia|].
  cbn [Difflib.matched].
  pose proof (find_longest_match_inside a b alo ahi blo bhi) as Hin.
  set (m := Difflib.find_longest_match a b alo ahi blo bhi) in *.
  cbv zeta.
  destruct (Nat.eqb_spec (Difflib.bestsize m) 0) as [E|E]; [reflexivity|].
  destruct Hin as [[Hz _]|[Hlt Hgt]]; [contradiction|].
  f_equal; [f_equal|].
  - destruct (_ && _) eqn:Eg; [|reflexivity].
    apply andb_true_iff in Eg. destruct Eg as [Eg _].
    apply Nat.ltb_lt in Eg. apply IH; lia.
  - destruct ((_ <? ahi) && _) eqn:Eg; [|reflexivity].
    apply andb_true_iff in Eg. destruct Eg as [Eg _].
    apply Nat.ltb_lt in Eg. apply IH; lia.
Qed.

(** The ratio does not depend on the fuel it is computed with. *)
Lemma ratio_fuel (a b : str) (fuel : nat) :
  length a < fuel ->
  Difflib.ratio a b =
  Difflib.calculate_ratio
    (Difflib.matched fuel a b 0 (length a) 0 (length b))
    (length a + length b).
Proof.
  intros H. unfold Difflib.ratio. f_equal. apply matched_fuel; lia.
Qed.
Section Openers.

Lemma lstrip_app (s t : str) : lstrip s <> [] -> lstrip (s ++ t) = lstrip s ++ t.
Proof.
  induction s as [|x s IH]; simpl; [congruence|].
  destruct (is_space x); [exact IH | reflexivity].
Qed.

Lemma lstrip_app_nil (s t : str) : lstrip s = [] -> lstrip (s ++ t) = lstrip t.
Proof.
  induction s as [|x s IH]; simpl; [reflexivity|].
  destruct (is_space x); [exact IH | discriminate].
Qed.

Lemma lstrip_idem (s : str) : lstrip (lstrip s) = lstrip s.
Proof.
  induction s as [|x s IH]; [reflexivity|].
  simpl. destruct (is_space x) eqn:E; [exact IH|].
  simpl. rewrite E. reflexivity.
Qed.

Lemma rstrip_idem (s : str) : rstrip (rstrip s) = rstrip s.
Proof. unfold rstrip. rewrite rev_involutive, lstrip_idem. reflexivity. Qed.

Lemma rstrip_nil_rev (s : str) : rstrip s = [] <-> lstrip (rev s) = [].
Proof.
  unfold rstrip. split; intros H.
  - apply (f_equal (@rev ascii)) in H. rewrite rev_involutive in H. exact H.
  - rewrite H. reflexivity.
Qed.

Lemma rstrip_app (p s : str) : rstrip s <> [] -> rstrip (p ++ s) = p ++ rstrip s.
Proof.
  intros H. unfold rstrip. rewrite rev_app_distr, lstrip_app.
  - rewrite rev_app_distr, rev_involutive. reflexivity.
  - intros E. apply H, rstrip_nil_rev, E.
Qed.

Lemma rstrip_cons (x : ascii) (s : str) :
  rstrip (x :: s) =
  match rstrip s with
  | [] => if is_space x then [] else [x]
  | _ => x :: rstrip s
  end.
Proof.
  destruct (rstrip s) as [|y u] eqn:E.
  - apply rstrip_nil_rev in E. unfold rstrip. simpl rev.
    rewrite lstrip_app_nil by exact E. simpl.
    destruct (is_space x); reflexivity.
  - rewrite <- E. apply (rstrip_app [x]). rewrite E. discriminate.
Qed.

Lemma strip_commute (s : str) : lstrip (rstrip s) = rstrip (lstrip s).
Proof.
  induction s as [|x s IH]; [reflexivity|].
  rewrite rstrip_cons. simpl lstrip at 2.
  destruct (is_space x) eqn:Ex.
  - rewrite <- IH. destruct (rstrip s) eqn:E; [reflexivity|].
    simpl. rewrite Ex. reflexivity.
  - rewrite rstrip_cons.
    destruct (rstrip s); simpl; rewrite Ex; reflexivity.
Qed.

Lemma strip_inner (s : str) : strip (lstrip (rstrip s)) = strip s.
Proof.
  unfold strip.
  rewrite lstrip_idem, strip_commute, rstrip_idem. reflexivity.
Qed.

Lemma strip_some_rstrip (s : str) : strip s <> [] -> rstrip s <> [].
Proof.
  unfold strip. rewrite <- strip_commute. intros H E. apply H.
  rewrite E. reflexivity.
Qed.

End Openers.

(* ================================================================= *)
(** ** The candidate index as a lookup table *)

Section IndexLookup.

Lemma get_set (V : Type) (k k' : str) (v : V) (d : Dict.dict V) :
  Dict.get k (Dict.set k' v d) =
  if Str.eqb k k' then Some v else Dict.get k d.
Proof.
  destruct (Str.eqb k k') eqn:E.
  - apply str_eqb_eq in E. subst. apply get_set_same.
  - apply str_eqb_neq in E. apply get_set_other. exact E.
Qed.

Lemma derives_derived (k name : str) :
  derives k name = true <-> derived_key k name.
Proof.
  unfold derives, derived_key.
  rewrite !orb_true_iff, !andb_true_iff, negb_true_iff, !str_eqb_eq,
    str_eqb_neq, Nat.leb_le, Nat.ltb_lt.
  tauto.
Qed.

Lemma get_add_candidates (d : Dict.dict str) (name k : str) :
  Dict.get k (add_candidates d name) =
  if derives k name then Some name else Dict.get k d.
Proof.
  unfold add_candidates, derives.
  destruct (3 <? length (first_word name));
    destruct (2 <=? length (abbreviation name));
    destruct (Str.eqb (lower (base_name name)) (lower name));
    cbn [negb]; rewrite ?get_set;
    destruct (Str.eqb k (lower name));
    destruct (Str.eqb k (lower (base_name name)));
    destruct (Str.eqb k (lower (abbreviation name)));
    destruct (Str.eqb k (lower (first_word name))); reflexivity.
Qed.

Lemma find_snoc (A : Type) (p : A -> bool) (l : list A) (x : A) :
  find p (l ++ [x]) =
  match find p l with
  | Some y => Some y
  | None => if p x then Some x else None
  end.
Proof.
  induction l as [|y l IH]; simpl; [reflexivity|].
  destruct (p y); [reflexivity | exact IH].
Qed.

Lemma get_fold_candidates (accounts : list str) (d : Dict.dict str)
      (k : str) :
  Dict.get k (fold_left add_candidates accounts d) =
  match find (derives k) (rev accounts) with
  | Some name => Some name
  | None => Dict.get k d
  end.
Proof.
  revert d. induction accounts as [|a l IH]; intros d; [reflexivity|].
  simpl. rewrite IH, find_snoc, get_add_candidates.
  destruct (find (derives k) (rev l)); [reflexivity|].
  destruct (derives k a); reflexivity.
Qed.

Lemma get_candidates (accounts : list str) (k : str) :
  Dict.get k (build_match_candidates accounts) =
  find (derives k) (rev accounts).
Proof.
  unfold build_match_candidates. rewrite get_fold_candidates.
  destruct (find (derives k) (rev accounts)); reflexivity.
Qed.

(** Whatever the key, what the index gives for it is a name of the
    directory, or nothing. *)
Lemma item_in_directory (accounts : list str) (k : str) :
  item k (build_match_candidates accounts) = ""
  \/ In (item k (build_match_candidates accounts)) accounts.
Proof.
  unfold item. rewrite get_candidates.
  destruct (find (derives k) (rev accounts)) as [v|] eqn:E; [|auto].
  right. apply find_some in E. apply in_rev. apply E.
Qed.

End IndexLookup.

(** X1. A key of the index maps to the last name of the directory that
    derives it: when two names derive the same key, the later one wins. *)
Theorem build_match_candidates_last_wins (accounts : list str) (k : str) :
  Dict.get k (build_match_candidates accounts) =
  find (derives k) (rev accounts)
  /\ (forall name,
         Dict.get k (build_match_candidates accounts) = Some name ->
         In name accounts /\ derived_key k name).
Proof.
  split; [apply get_candidates|].
  intros name H. rewrite get_candidates in H. apply find_some in H.
  destruct H as [Hin Hd]. split.
  - apply in_rev. exact Hin.
  - apply derives_derived. exact Hd.
Qed.

Example candidates_collision :
  Dict.get "city"
           (build_match_candidates ["City of Saskatoon"; "City of Regina"])
  = Some "City of Regina"
  /\ Dict.get "saskatchewan" (build_match_candidates fallback)
     = Some "Saskatchewan Gaming Corporation".
Proof. vm_compute. auto. Qed.

(* ================================================================= *)
(** ** The fuzzy steps *)

Section Fuzzy.

Import Difflib.

Lemma largest_In (best : fraction * str) (l : list (fraction * str)) :
  In (largest best l) (best :: l).
Proof.
  revert best. induction l as [|y l IH]; intros best; simpl; [auto|].
  destruct (IH (if scored_ltb best y then y else best)) as [H|H];
    [|auto].
  rewrite <- H. destruct (scored_ltb best y); auto.
Qed.

Lemma get_close_matches_filter (word : str) (possibilities : list str)
      (cutoff : fraction) :
  get_close_matches word possibilities cutoff =
  match map (fun x => (ratio x word, x))
            (filter (passes cutoff word) possibilities) with
  | [] => []
  | r :: rs => [snd (largest r rs)]
  end.
Proof. reflexivity. Qed.

(** What [get_close_matches] gives: nothing when no possibility passes
    the tests, else one possibility that passes them. *)
Lemma get_close_matches_cases (word : str) (possibilities : list str)
      (cutoff : fraction) :
  (get_close_matches word possibilities cutoff = []
   /\ forall x, In x possibilities -> passes cutoff word x = false)
  \/ exists x,
      get_close_matches word possibilities cutoff = [x]
      /\ In x possibilities /\ passes cutoff word x = true.
Proof.
  rewrite get_close_matches_filter.
  destruct (filter (passes cutoff word) possibilities) as [|y ys] eqn:E.
  - left. split; [reflexivity|]. intros x Hx.
    destruct (passes cutoff word x) eqn:Ep; [|reflexivity].
    assert (H : In x (filter (passes cutoff word) possibilities))
      by (apply filter_In; auto).
    rewrite E in H. destruct H.
  - right. cbn [map].
    set (r := (ratio y word, y)).
    set (rs := map (fun x => (ratio x word, x)) ys).
    exists (snd (largest r rs)). split; [reflexivity|].
    assert (H : In (snd (largest r rs)) (y :: ys)).
    { pose proof (largest_In r rs) as H.
      apply (in_map snd) in H. cbn [map] in H.
      subst r rs. rewrite map_map in H. cbn [snd] in H.
      rewrite map_id in H. exact H. }
    rewrite <- E in H. apply filter_In in H. exact H.
Qed.

Lemma passes_ratio (cutoff : fraction) (word x : str) :
  passes cutoff word x = true -> frac_leb cutoff (ratio x word) = true.
Proof.
  unfold passes. intros H. apply andb_true_iff in H. apply H.
Qed.

End Fuzzy.

Section Resolution.

Import Difflib.

Lemma prep_step_answer (text : str) (candidates : Dict.dict str)
      (name : str) :
  prep_step text candidates = Some name ->
  exists fragment key,
    prep_fragment text = Some fragment
    /\ In key (Dict.keys candidates)
    /\ passes cutoff_prep fragment key = true
    /\ get_close_matches fragment (Dict.keys candidates) cutoff_prep = [key]
    /\ name = item key candidates.
Proof.
  rewrite prep_step_fragment.
  destruct (prep_fragment text) as [fragment|]; [|discriminate].
  destruct (get_close_matches_cases fragment (Dict.keys candidates)
                                    cutoff_prep)
    as [[E _]|[key [E [Hin Hp]]]]; rewrite E; [discriminate|].
  intros [= <-]. exists fragment, key. auto.
Qed.

Lemma slide_answer (words : list str) (size : nat)
      (candidates : Dict.dict str) (starts : list nat) (name : str) :
  slide words size candidates starts = Some name ->
  exists i key,
    In i starts
    /\ In key (Dict.keys candidates)
    /\ passes cutoff_window (window_fragment words i size) key = true
    /\ name = item key candidates.
Proof.
  induction starts as [|i more IH]; simpl; [discriminate|].
  fold (window_fragment words i size).
  destruct (get_close_matches_cases (window_fragment words i size)
                                    (Dict.keys candidates) cutoff_window)
    as [[E _]|[key [E [Hin Hp]]]]; rewrite E.
  - intros H. destruct (IH H) as [i' [key [Hi H']]].
    exists i', key. split; [right; exact Hi | exact H'].
  - intros [= <-]. exists i, key. auto.
Qed.

Lemma window_step_answer (words : list str) (candidates : Dict.dict str)
      (sizes : list nat) (name : str) :
  window_step words candidates sizes = Some name ->
  exists size i key,
    In size sizes
    /\ i + size <= length words
    /\ In key (Dict.keys candidates)
    /\ passes cutoff_window (window_fragment words i size) key = true
    /\ name = item key candidates.
Proof.
  induction sizes as [|size more IH]; simpl; [discriminate|].
  destruct (slide words size candidates _) as [n|] eqn:E.
  - intros [= <-]. apply slide_answer in E.
    destruct E as [i [key [Hi H]]]. apply in_seq in Hi.
    exists size, i, key. split; [left; reflexivity|].
    split; [lia | exact H].
  - intros H. destruct (IH H) as [size' [i [key [Hs H']]]].
    exists size', i, key. split; [right; exact Hs | exact H'].
Qed.

(** The three ways [match_account] answers. *)
Lemma match_account_cases (text : str) (directory : list str) :
  let candidates := build_match_candidates directory in
  (exists key,
      exact_key (lower text) (sorted_by_len (Dict.keys candidates))
      = Some key
      /\ match_account text directory = item key candidates)
  \/ (exact_key (lower text) (sorted_by_len (Dict.keys candidates)) = None
      /\ exists name,
          prep_step text candidates = Some name
          /\ match_account text directory = name)
  \/ (exact_key (lower text) (sorted_by_len (Dict.keys candidates)) = None
      /\ prep_step text candidates = None
      /\ exists name,
          window_step (split text) candidates [4; 3; 2] = Some name
          /\ match_account text directory = name)
  \/ (exact_key (lower text) (sorted_by_len (Dict.keys candidates)) = None
      /\ prep_step text candidates = None
      /\ window_step (split text) candidates [4; 3; 2] = None
      /\ match_account text directory = "").
Proof.
  intros candidates. unfold match_account. fold candidates.
  destruct (exact_key _ _) as [key|]; [left; eauto|]. right.
  destruct (prep_step text candidates) as [n|]; [left; eauto|]. right.
  destruct (window_step _ _ _) as [n|]; [left; eauto|]. right. auto.
Qed.

End Resolution.

(** X2. Whatever the text, the resolver returns the empty string or a
    name of the directory it was given: no step invents a name. *)
Theorem match_account_in_directory (text : str) (directory : list str) :
  match_account text directory = ""
  \/ In (match_account text directory) directory.
Proof.
  destruct (match_account_cases text directory)
    as [[key [_ ->]]|[[_ [n [H ->]]]|[[_ [_ [n [H ->]]]]|[_ [_ [_ ->]]]]]].
  - apply item_in_directory.
  - apply prep_step_answer in H.
    destruct H as [f [key [_ [_ [_ [_ ->]]]]]]. apply item_in_directory.
  - apply window_step_answer in H.
    destruct H as [s [i [key [_ [_ [_ [_ ->]]]]]]]. apply item_in_directory.
  - left. reflexivity.
Qed.

(** X3. An answer of the fuzzy steps meets its threshold: a name given by
    step 2 is the name of a key whose similarity ratio with the lowercased
    fragment is at least 0.6, and a name given by step 3 is the name of a
    key whose ratio with a lowercased window of 4, 3 or 2 consecutive
    words of the text is at least 0.65. *)
Theorem fuzzy_steps_meet_cutoff (text : str) (directory : list str) :
  let candidates := build_match_candidates directory in
  (forall name,
      prep_step text candidates = Some name ->
      exists fragment key,
        prep_fragment text = Some fragment
        /\ In key (Dict.keys candidates)
        /\ name = item key candidates
        /\ 3 * snd (Difflib.ratio key fragment)
           <= 5 * fst (Difflib.ratio key fragment)) /\
  (forall name,
      window_step (split text) candidates [4; 3; 2] = Some name ->
      exists size i key,
        2 <= size <= 4 /\ i + size <= length (split text)
        /\ In key (Dict.keys candidates)
        /\ name = item key candidates
        /\ 13 * snd (Difflib.ratio key (window_fragment (split text) i size))
           <= 20 * fst (Difflib.ratio key
                          (window_fragment (split text) i size))).
Proof.
  intros candidates. split.
  - intros name H. apply prep_step_answer in H.
    destruct H as [f [key [Hf [Hk [Hp [_ ->]]]]]].
    exists f, key. repeat split; try assumption.
    apply passes_ratio in Hp. unfold Difflib.frac_leb, cutoff_prep in Hp.
    apply Nat.leb_le in Hp. cbn [fst snd] in Hp. lia.
  - intros name H. apply window_step_answer in H.
    destruct H as [size [i [key [Hs [Hi [Hk [Hp ->]]]]]]].
    exists size, i, key. repeat split; try assumption.
    + simpl in Hs. lia.
    + simpl in Hs. lia.
    + apply passes_ratio in Hp.
      unfold Difflib.frac_leb, cutoff_window in Hp.
      apply Nat.leb_le in Hp. cbn [fst snd] in Hp. lia.
Qed.


(* ================================================================= *)
(** ** Texts of one word *)

Section OneWord.

Lemma in_class_space (ic : bool) (x : ascii) :
  in_class ic is_space x = is_space x.
Proof.
  destruct ic; [|reflexivity].
  destruct x as [[] [] [] [] [] [] [] []]; vm_compute; reflexivity.
Qed.

(** Text without whitespace. *)
Lemma no_space_suffix (pre s : str) :
  forallb (fun x => negb (is_space x)) (pre ++ s) = true ->
  forallb (fun x => negb (is_space x)) s = true.
Proof. rewrite forallb_app, andb_true_iff. tauto. Qed.

(** A pattern that asks for whitespace after its first part matches
    nowhere in a text without whitespace. *)
Lemma space_needed (ic : bool) (r1 r2 : re) (c : cursor) :
  forallb (fun x => negb (is_space x)) (ahead c) = true ->
  rmatch ic (Seq r1 (Seq (plus false is_space) r2)) c = [].
Proof.
  intros Hc. cbn [rmatch].
  assert (G : forall l, (forall c1, In c1 l ->
                 forallb (fun x => negb (is_space x)) (ahead c1) = true) ->
              flat_map (fun c1 =>
                 flat_map (rmatch ic r2)
                          (rmatch ic (plus false is_space) c1)) l = []).
  { induction l as [|c1 l IH]; intros Hl; [reflexivity|].
    cbn [flat_map]. rewrite IH by (intros c2 H2; apply Hl; right; exact H2).
    rewrite app_nil_r.
    specialize (Hl c1 (or_introl eq_refl)).
    unfold plus. cbn [rmatch].
    destruct (ahead c1) as [|x ah]; [reflexivity|].
    rewrite in_class_space. cbn [forallb] in Hl.
    apply andb_true_iff in Hl. destruct Hl as [Hx _].
    apply negb_true_iff in Hx. rewrite Hx. reflexivity. }
  apply G. intros c1 H1.
  apply rmatch_forward in H1. destruct H1 as [pre [E _]].
  rewrite E in Hc. apply no_space_suffix in Hc. exact Hc.
Qed.

Lemma search_from_space_needed (ic : bool) (r1 r2 : re) (ah sn : str) :
  forallb (fun x => negb (is_space x)) ah = true ->
  search_from ic (Seq r1 (Seq (plus false is_space) r2)) sn ah = None.
Proof.
  revert sn. induction ah as [|x ah IH]; intros sn H.
  - cbn [search_from]. unfold match_at. rewrite space_needed by exact H.
    reflexivity.
  - cbn [search_from]. unfold match_at. rewrite space_needed by exact H.
    cbn [hd_error]. apply IH.
    cbn [forallb] in H. apply andb_true_iff in H. apply H.
Qed.

Lemma prep_match_one_word (text : str) :
  forallb (fun x => negb (is_space x)) text = true ->
  prep_match text = None.
Proof.
  intros H. unfold prep_match, search, prep_pattern. cbn [seq].
  apply search_from_space_needed. exact H.
Qed.

Lemma split_go_one_word (cur s : str) :
  forallb (fun x => negb (is_space x)) s = true ->
  length (split_go cur s) <= 1.
Proof.
  revert cur. induction s as [|x s IH]; intros cur H.
  - simpl. destruct cur; simpl; lia.
  - cbn [forallb] in H. apply andb_true_iff in H. destruct H as [Hx Hs].
    apply negb_true_iff in Hx. cbn [split_go]. rewrite Hx.
    apply IH. exact Hs.
Qed.

Lemma window_step_short (words : list str) (candidates : Dict.dict str) :
  length words <= 1 -> window_step words candidates [4; 3; 2] = None.
Proof.
  intros H. cbn [window_step].
  replace (length words + 1 - 4) with 0 by lia.
  replace (length words + 1 - 3) with 0 by lia.
  replace (length words + 1 - 2) with 0 by lia.
  reflexivity.
Qed.

End OneWord.

(** X4. A transcription without whitespace (one word, or the empty text)
    can only be resolved by the exact-substring step: when no key of four
    characters or more occurs in it, the resolver returns the empty string
    whatever the directory. *)
Theorem match_account_one_word (text : str) (directory : list str) :
  forallb (fun x => negb (is_space x)) text = true ->
  exact_key (lower text)
            (sorted_by_len (Dict.keys (build_match_candidates directory)))
  = None ->
  match_account text directory = "".
Proof.
  intros Hs He. unfold match_account. rewrite He.
  unfold prep_step. rewrite prep_match_one_word by exact Hs.
  rewrite window_step_short; [reflexivity|].
  apply split_go_one_word. exact Hs.
Qed.

Lemma match_account_one_word_hello :
  match_account "Hello" fallback = "".
Proof.
  apply match_account_one_word; vm_compute; reflexivity.
Defined.

Lemma exact_key_empty_text (names : list str) : exact_key (lower "") names = None.
Proof.
  unfold exact_key. induction names as [|k l IH]; [reflexivity|].
  cbn [find]. destruct k as [|x k]; [exact IH|].
  change (contains (x :: k) (lower "")) with false.
  rewrite andb_false_r. exact IH.
Qed.

(** X5. The empty transcription matches no account, whatever the
    directory and the proxy: the record is the unmatched one and nothing
    is posted. *)
Theorem empty_text_unmatched (w : world) :
  (forall directory, match_account "" directory = "") /\
  Dict.get "account" (record_of w "") = Some (VStr "") /\
  Dict.get "error" (record_of w "") = Some (VStr "account_not_matched") /\
  posts (trace_of w "") = [].
Proof.
  assert (H : forall directory, match_account "" directory = "").
  { intros directory. unfold match_account.
    rewrite exact_key_empty_text.
    unfold prep_step. rewrite prep_match_one_word by reflexivity.
    reflexivity. }
  split; [exact H|].
  destruct (process_unmatched w "" (H _)) as [msg E].
  unfold record_of, trace_of. rewrite E. cbn [fst snd trace].
  generalize (contact_of w ""), (summary_of w ""),
    (detect_activity_type ""). intros who what ty.
  repeat split; reflexivity.
Qed.

(* ================================================================= *)
(** ** The resolver and letter case *)

Section ResolverCase.

Lemma lower_space : lower " " = " ".
Proof. reflexivity. Qed.

Lemma split_go_lower (cur s : str) :
  split_go (lower cur) (lower s) = map lower (split_go cur s).
Proof.
  unfold lower.
  revert cur. induction s as [|x s IH]; intros cur.
  - destruct cur as [|y cur]; [reflexivity|].
    cbn [map split_go]. rewrite (map_rev lower_char (y :: cur)).
    reflexivity.
  - cbn [map split_go]. rewrite is_space_lower.
    destruct (is_space x).
    + destruct cur as [|y cur].
      * apply (IH []).
      * cbn [map]. rewrite (map_rev lower_char (y :: cur)).
        f_equal. apply (IH []).
    + apply (IH (x :: cur)).
Qed.

Lemma split_lower (s : str) : split (lower s) = map lower (split s).
Proof. apply (split_go_lower [] s). Qed.

Lemma join_lower (ws : list str) :
  join " " (map lower ws) = lower (join " " ws).
Proof.
  induction ws as [|w ws IH]; [reflexivity|].
  destruct ws as [|w' ws]; [reflexivity|].
  change (join " " (map lower (w :: w' :: ws)))
    with (lower w ++ " " ++ join " " (map lower (w' :: ws))).
  rewrite IH.
  change (join " " (w :: w' :: ws)) with (w ++ " " ++ join " " (w' :: ws)).
  rewrite !lower_app. reflexivity.
Qed.

Lemma window_lower (words : list str) (i size : nat) :
  window (map lower words) i size = map lower (window words i size).
Proof. unfold window. rewrite skipn_map, firstn_map. reflexivity. Qed.

Lemma window_fragment_lower (words : list str) (i size : nat) :
  window_fragment (map lower words) i size = window_fragment words i size.
Proof.
  unfold window_fragment.
  rewrite window_lower, join_lower, lower_lower. reflexivity.
Qed.

Lemma slide_lower (words : list str) (size : nat)
      (candidates : Dict.dict str) (starts : list nat) :
  slide (map lower words) size candidates starts =
  slide words size candidates starts.
Proof.
  induction starts as [|i more IH]; [reflexivity|].
  cbn [slide].
  fold (window_fragment (map lower words) i size).
  fold (window_fragment words i size).
  rewrite window_fragment_lower, IH. reflexivity.
Qed.

Lemma window_step_lower (words : list str) (candidates : Dict.dict str)
      (sizes : list nat) :
  window_step (map lower words) candidates sizes =
  window_step words candidates sizes.
Proof.
  induction sizes as [|size more IH]; [reflexivity|].
  cbn [window_step]. rewrite length_map, slide_lower, IH. reflexivity.
Qed.

Lemma prep_step_lower (text : str) (candidates : Dict.dict str) :
  prep_step (lower text) candidates = prep_step text candidates.
Proof. rewrite !prep_step_fragment, prep_fragment_lower. reflexivity. Qed.

Lemma match_account_lower (text : str) (directory : list str) :
  match_account (lower text) directory = match_account text directory.
Proof.
  unfold match_account.
  rewrite lower_lower, prep_step_lower, split_lower, window_step_lower.
  reflexivity.
Qed.

End ResolverCase.

(** X6. The resolver does not look at the letter case of an ASCII text:
    two ASCII texts that differ only in letter case resolve to the same
    account, in each of the three steps.  (Outside ASCII this fails:
    [re.IGNORECASE] and [str.lower] do not fold the same letters.) *)
Theorem match_account_case_blind (text text' : str) (directory : list str) :
  is_ascii_text text = true ->
  is_ascii_text text' = true ->
  lower text = lower text' ->
  match_account text directory = match_account text' directory.
Proof.
  intros _ _ E.
  rewrite <- (match_account_lower text), <- (match_account_lower text'), E.
  reflexivity.
Qed.

Lemma match_account_case_blind_sasktel :
  match_account "CALLED sasktel ABOUT renewal" fallback
  = match_account "called SaskTel about Renewal" fallback.
Proof.
  apply match_account_case_blind; vm_compute; reflexivity.
Defined.

(* ================================================================= *)
(** ** The account directory as a lookup table *)

Section DirectoryLookup.

Lemma find_app (A : Type) (p : A -> bool) (l1 l2 : list A) :
  find p (l1 ++ l2) =
  match find p l1 with
  | Some y => Some y
  | None => find p l2
  end.
Proof.
  induction l1 as [|y l IH]; simpl; [reflexivity|].
  destruct (p y); [reflexivity | exact IH].
Qed.

Lemma get_fold_fallback (l : list str) (d : Dict.dict str) (k : str) :
  Dict.get k (fold_left add_fallback l d) =
  match find (names k) (rev l) with
  | Some n => Some n
  | None => Dict.get k d
  end.
Proof.
  revert d. induction l as [|a l IH]; intros d; [reflexivity|].
  simpl. rewrite IH, find_snoc. unfold add_fallback. rewrite get_set.
  destruct (find (names k) (rev l)); [reflexivity|].
  unfold names. destruct (Str.eqb k (lower a)); reflexivity.
Qed.

Lemma get_add_deal (d : Dict.dict str) (deal : option str) (k : str) :
  Dict.get k (add_deal d deal) =
  match find (names k) (pipeline_names (Some [deal])) with
  | Some n => Some n
  | None => Dict.get k d
  end.
Proof.
  destruct deal as [a|]; [|reflexivity].
  cbn [add_deal pipeline_names flat_map app].
  destruct (truthy a); cbn [app find]; [|reflexivity].
  rewrite get_set. unfold names.
  destruct (Str.eqb k (lower a)); reflexivity.
Qed.

Lemma pipeline_names_cons (deal : option str) (ds : list (option str)) :
  pipeline_names (Some (deal :: ds)) =
  pipeline_names (Some [deal]) ++ pipeline_names (Some ds).
Proof. cbn [pipeline_names flat_map]. rewrite app_nil_r. reflexivity. Qed.

Lemma pipeline_names_one (deal : option str) :
  rev (pipeline_names (Some [deal])) = pipeline_names (Some [deal]).
Proof.
  destruct deal as [a|]; [|reflexivity].
  cbn [pipeline_names flat_map app]. destruct (truthy a); reflexivity.
Qed.

Lemma get_fold_deals (ds : list (option str)) (d : Dict.dict str)
      (k : str) :
  Dict.get k (fold_left add_deal ds d) =
  match find (names k) (rev (pipeline_names (Some ds))) with
  | Some n => Some n
  | None => Dict.get k d
  end.
Proof.
  revert d. induction ds as [|x ds IH]; intros d; [reflexivity|].
  cbn [fold_left]. rewrite IH, pipeline_names_cons, rev_app_distr, find_app.
  rewrite pipeline_names_one, get_add_deal.
  destruct (find (names k) (rev (pipeline_names (Some ds)))); reflexivity.
Qed.

Lemma get_add_backup_key (d : Dict.dict str) (key k : str) :
  Dict.get k (add_backup_key d key) =
  match Dict.get k d with
  | Some v => Some v
  | None => find (names k) (backup_names (Some [key]))
  end.
Proof.
  unfold add_backup_key, backup_names. cbn [filter].
  destruct (startswith "xits_acct_" key); cbn [map find];
    [|destruct (Dict.get k d); reflexivity].
  unfold Dict.mem, names.
  destruct (Str.eqb k (lower (backup_name key))) eqn:E.
  - apply str_eqb_eq in E. subst k.
    destruct (Dict.get (lower (backup_name key)) d) eqn:G;
      cbn [negb]; [exact G|].
    apply get_set_same.
  - destruct (Dict.get (lower (backup_name key)) d); cbn [negb].
    + destruct (Dict.get k d); reflexivity.
    + rewrite get_set, E. destruct (Dict.get k d); reflexivity.
Qed.

Lemma backup_names_cons (key : str) (ks : list str) :
  backup_names (Some (key :: ks)) =
  backup_names (Some [key]) ++ backup_names (Some ks).
Proof.
  unfold backup_names. cbn [filter].
  destruct (startswith "xits_acct_" key); reflexivity.
Qed.

Lemma get_fold_backup (ks : list str) (d : Dict.dict str) (k : str) :
  Dict.get k (fold_left add_backup_key ks d) =
  match Dict.get k d with
  | Some v => Some v
  | None => find (names k) (backup_names (Some ks))
  end.
Proof.
  revert d. induction ks as [|x ks IH]; intros d.
  - cbn [fold_left]. destruct (Dict.get k d); reflexivity.
  - cbn [fold_left].
    rewrite IH, get_add_backup_key, (backup_names_cons x ks), find_app.
    destruct (Dict.get k d); [reflexivity|].
    destruct (find (names k) (backup_names (Some [x]))); reflexivity.
Qed.

(** The entry of a key: the last hardcoded name with that lowercase form,
    else the last such pipeline name, else the first such backup name. *)
Lemma get_merge_accounts (deals : option (list (option str)))
      (keys : option (list str)) (hardcoded : list str) (k : str) :
  Dict.get k (merge_accounts deals keys hardcoded) =
  first_some [ find (names k) (rev hardcoded);
               find (names k) (rev (pipeline_names deals));
               find (names k) (backup_names keys) ].
Proof.
  unfold merge_accounts. rewrite get_fold_fallback. cbn [first_some].
  destruct (find (names k) (rev hardcoded)); [reflexivity|].
  destruct keys as [ks|]; [rewrite get_fold_backup|];
    (destruct deals as [ds|]; [rewrite get_fold_deals|]);
    cbn [pipeline_names backup_names rev find Dict.get Dict.empty];
    repeat match goal with
           | |- context [find ?p ?l] => destruct (find p l)
           end; reflexivity.
Qed.

Lemma distinct_NoDup (l : list str) : distinct l = true -> NoDup l.
Proof.
  induction l as [|x l IH]; simpl; intros H; [constructor|].
  apply andb_true_iff in H. destruct H as [Hx Hl].
  constructor; [|auto].
  rewrite <- member_In. apply negb_true_iff in Hx. congruence.
Qed.

Lemma lower_injective_on (l : list str) (a b : str) :
  NoDup (map lower l) -> In a l -> In b l -> lower a = lower b -> a = b.
Proof.
  induction l as [|x l IH]; simpl; intros Hnd Ha Hb E; [contradiction|].
  apply NoDup_cons_iff in Hnd. destruct Hnd as [Hx Hnd].
  destruct Ha as [<-|Ha], Hb as [<-|Hb]; auto.
  - exfalso. apply Hx. rewrite E. apply in_map. exact Hb.
  - exfalso. apply Hx. rewrite <- E. apply in_map. exact Ha.
Qed.

(** A hardcoded list without two names equal up to case goes into the
    directory name by name. *)
Lemma hardcoded_kept (deals : option (list (option str)))
      (keys : option (list str)) (hardcoded : list str) (n : str) :
  NoDup (map lower hardcoded) ->
  In n hardcoded ->
  In n (Dict.values (merge_accounts deals keys hardcoded)).
Proof.
  intros Hnd Hn.
  pose proof (get_merge_accounts deals keys hardcoded (lower n)) as G.
  cbn [first_some] in G.
  destruct (find (names (lower n)) (rev hardcoded)) as [v|] eqn:E.
  - apply find_some in E. destruct E as [Hv Hnames].
    apply in_rev in Hv. unfold names in Hnames.
    apply str_eqb_eq in Hnames.
    assert (v = n)
      by (apply (lower_injective_on hardcoded); auto).
    subst v. apply get_Some_In in G. apply values_In in G. exact G.
  - exfalso.
    assert (Hf : names (lower n) n = false).
    { apply (find_none _ _ E n). apply in_rev. rewrite rev_involutive.
      exact Hn. }
    unfold names in Hf. rewrite str_eqb_refl in Hf. discriminate Hf.
Qed.

Lemma fallback_distinct : NoDup (map lower fallback).
Proof. apply distinct_NoDup. vm_compute. reflexivity. Qed.

Lemma fold_deals_none (ds : list (option str)) (d : Dict.dict str) :
  pipeline_names (Some ds) = [] -> fold_left add_deal ds d = d.
Proof.
  induction ds as [|x ds IH]; [reflexivity|].
  rewrite pipeline_names_cons. intros H. apply app_eq_nil in H.
  destruct H as [Hx Hds]. cbn [fold_left].
  replace (add_deal d x) with d; [apply IH; exact Hds|].
  destruct x as [a|]; [|reflexivity].
  cbn [pipeline_names flat_map app add_deal] in *.
  destruct (truthy a); [discriminate Hx | reflexivity].
Qed.

Lemma fold_backup_none (ks : list str) (d : Dict.dict str) :
  backup_names (Some ks) = [] -> fold_left add_backup_key ks d = d.
Proof.
  induction ks as [|x ks IH]; [reflexivity|].
  rewrite backup_names_cons. intros H. apply app_eq_nil in H.
  destruct H as [Hx Hks]. cbn [fold_left].
  replace (add_backup_key d x) with d; [apply IH; exact Hks|].
  unfold add_backup_key, backup_names in *. cbn [filter] in Hx.
  destruct (startswith "xits_acct_" x); [discriminate Hx | reflexivity].
Qed.

End DirectoryLookup.

(** X7. The directory as a lookup table: for every lowercase key, the
    entry is the last hardcoded name with that lowercase form; if there is
    none, the last such pipeline account; if there is none either, the
    first such backup name; else the key has no entry. *)
Theorem merge_accounts_lookup (deals : option (list (option str)))
        (keys : option (list str)) (hardcoded : list str) (k : str) :
  Dict.get k (merge_accounts deals keys hardcoded) =
  first_some [ find (names k) (rev hardcoded);
               find (names k) (rev (pipeline_names deals));
               find (names k) (backup_names keys) ].
Proof. apply get_merge_accounts. Qed.

Example directory_within_source :
  Dict.values
    (merge_accounts (Some [Some "ACME Corp"; Some "Acme Corp"])
                    (Some ["xits_acct_Prairie_Co"; "xits_acct_PRAIRIE_CO"])
                    [])
  = ["Acme Corp"; "Prairie Co"].
Proof. vm_compute. reflexivity. Qed.

(** X8. Whatever the proxy answers, every name of the hardcoded list is in
    the directory, with the casing of the list. *)
Theorem known_accounts_has_fallback (w : world) :
  incl fallback (known_accounts w).
Proof.
  intros n Hn. rewrite known_accounts_merge.
  apply hardcoded_kept; [apply fallback_distinct | exact Hn].
Qed.

(** X9. When neither source contributes a name (the proxy cannot be
    reached, answers with no deal that has an account, with no backup key
    of the account prefix), the directory is the hardcoded list, in its
    order. *)
Theorem known_accounts_degraded (w : world) :
  pipeline_names (pipeline w) = [] ->
  backup_names (backup w) = [] ->
  known_accounts w = fallback.
Proof.
  intros Hp Hb. rewrite known_accounts_merge. unfold merge_accounts.
  replace (match pipeline w with
           | Some ds => fold_left add_deal ds Dict.empty
           | None => Dict.empty
           end) with (@Dict.empty str)
    by (destruct (pipeline w); [rewrite fold_deals_none by exact Hp|];
        reflexivity).
  replace (match backup w with
           | Some ks => fold_left add_backup_key ks Dict.empty
           | None => Dict.empty
           end) with (@Dict.empty str)
    by (destruct (backup w); [rewrite fold_backup_none by exact Hb|];
        reflexivity).
  vm_compute. reflexivity.
Qed.

Lemma known_accounts_degraded_offline :
  known_accounts (World None (Some ["unrelated_key"])
                        (fun _ => Raised "down") (fun _ => ""))
  = fallback.
Proof.
  apply known_accounts_degraded; reflexivity.
Defined.

(* ================================================================= *)
(** ** The summary is a trimmed end of the text *)

Section SummaryShape.

Lemma lstrip_suffix (s : str) : exists ws, s = ws ++ lstrip s.
Proof.
  induction s as [|x s [ws IH]]; [exists []; reflexivity|].
  simpl. destruct (is_space x).
  - exists (x :: ws). simpl. f_equal. exact IH.
  - exists []. reflexivity.
Qed.

Lemma lstrip_head (s : str) (x : ascii) (r : str) :
  lstrip s = x :: r -> is_space x = false.
Proof.
  induction s as [|y s IH]; simpl; [discriminate|].
  destruct (is_space y) eqn:E; [exact IH|].
  intros [= <- _]. exact E.
Qed.

Lemma rstrip_head (x : ascii) (r : str) :
  is_space x = false -> rstrip (x :: r) <> [].
Proof.
  intros Hx. rewrite rstrip_cons.
  destruct (rstrip r); [rewrite Hx|]; discriminate.
Qed.

Lemma strip_idem (s : str) : strip (strip s) = strip s.
Proof.
  unfold strip.
  rewrite strip_commute, lstrip_idem, rstrip_idem. reflexivity.
Qed.

Lemma strip_fixed (s : str) :
  strip s = s -> lstrip s = s /\ rstrip s = s.
Proof.
  intros H. split.
  - rewrite <- H at 1. unfold strip.
    rewrite strip_commute, lstrip_idem. exact H.
  - rewrite <- H at 1. unfold strip. rewrite rstrip_idem. exact H.
Qed.

(** The trimmed form of an end of a right-trimmed text is an end of that
    text. *)
Lemma strip_of_suffix (u p t : str) :
  rstrip u = u -> u = p ++ t -> exists p', u = p' ++ strip t.
Proof.
  intros Hu E. destruct (lstrip_suffix t) as [ws Hws].
  unfold strip. destruct (lstrip t) as [|x r] eqn:El.
  - exists u. rewrite app_nil_r. reflexivity.
  - pose proof (rstrip_head x r (lstrip_head t El)) as Hne.
    exists (p ++ ws).
    assert (Eu : u = (p ++ ws) ++ x :: r)
      by (rewrite E, Hws at 1; rewrite app_assoc; reflexivity).
    rewrite Eu in Hu at 1. rewrite rstrip_app in Hu by exact Hne.
    rewrite Hu. reflexivity.
Qed.

Lemma stripped_summary_cuts (text : str) :
  stripped_summary text =
  strip (cut_opener verb_preamble
           (strip (cut_opener filler_preamble (strip text)))).
Proof.
  unfold stripped_summary, preambles. cbn [fold_left].
  unfold filler_preamble at 1, verb_preamble at 1. cbn [seq].
  rewrite !strip_preamble_cut. reflexivity.
Qed.

Lemma stripped_summary_suffix (text : str) :
  exists pre, strip text = pre ++ stripped_summary text.
Proof.
  rewrite stripped_summary_cuts.
  assert (H0 : rstrip (strip text) = strip text)
    by (unfold strip; apply rstrip_idem).
  destruct (cut_opener_suffix filler_preamble (strip text)) as [o1 E1].
  destruct (strip_of_suffix _ _ H0 E1) as [p1 Hp1].
  set (s1 := strip (cut_opener filler_preamble (strip text))) in *.
  assert (H1 : rstrip s1 = s1)
    by (subst s1; unfold strip; apply rstrip_idem).
  destruct (cut_opener_suffix verb_preamble s1) as [o2 E2].
  destruct (strip_of_suffix _ _ H1 E2) as [p2 Hp2].
  exists (p1 ++ p2). rewrite <- app_assoc, <- Hp2. exact Hp1.
Qed.

Lemma is_space_upper (x : ascii) : is_space (upper_char x) = is_space x.
Proof. destruct x as [[] [] [] [] [] [] [] []]; vm_compute; reflexivity. Qed.

Lemma capitalize_first_trimmed (s : str) :
  strip s = s -> strip (capitalize_first s) = capitalize_first s.
Proof.
  intros H. destruct (strip_fixed H) as [Hl Hr].
  destruct s as [|c r]; [reflexivity|].
  pose proof (lstrip_head _ Hl) as Hc.
  cbn [capitalize_first]. unfold strip. cbn [lstrip].
  rewrite is_space_upper, Hc.
  rewrite rstrip_cons in Hr. rewrite rstrip_cons, is_space_upper, Hc.
  destruct (rstrip r) as [|y u].
  - rewrite Hc in Hr. injection Hr as <-. reflexivity.
  - injection Hr as <-. reflexivity.
Qed.

Lemma capitalize_first_nil (s : str) : capitalize_first s = [] <-> s = [].
Proof. destruct s; simpl; split; congruence. Qed.

Lemma capitalize_first_length (s : str) :
  length (capitalize_first s) = length s.
Proof. destruct s; reflexivity. Qed.

End SummaryShape.

(** X10. The summary of an ASCII text is never made up: it is an end of
    the trimmed input text (the whole of it, or what follows the preambles
    that were cut) with its first character upper-cased, it has no
    whitespace at either end, and it is no longer than the input.  (The
    text is ASCII: the upper-case form of a letter outside ASCII can be
    two characters long.) *)
Theorem build_summary_is_trimmed_suffix (text account contact : str)
        (kind : activity) :
  is_ascii_text text = true ->
  let result := build_summary text account contact kind in
  (exists pre s, strip text = pre ++ s /\ result = capitalize_first s) /\
  strip result = result /\
  length result <= length text.
Proof.
  intros _ result. subst result. rewrite build_summary_unfold.
  destruct (stripped_summary_suffix text) as [pre Hpre].
  assert (Hlen : forall s, length (strip s) <= length s).
  { intros s. destruct (lstrip_suffix s) as [ws Hws].
    destruct (lstrip_suffix (rev (lstrip s))) as [ws' Hws'].
    unfold strip, rstrip. rewrite length_rev.
    apply (f_equal (@length ascii)) in Hws, Hws'.
    rewrite length_app in Hws, Hws'. rewrite length_rev in Hws'. lia. }
  destruct (length (stripped_summary text) <? 10).
  - split; [exists [], (strip text); auto|]. split.
    + apply capitalize_first_trimmed, strip_idem.
    + rewrite capitalize_first_length. apply Hlen.
  - split; [exists pre, (stripped_summary text); auto|]. split.
    + apply capitalize_first_trimmed.
      rewrite stripped_summary_cuts. apply strip_idem.
    + rewrite capitalize_first_length.
      apply (f_equal (@length ascii)) in Hpre. rewrite length_app in Hpre.
      specialize (Hlen text). lia.
Qed.

(** The theorem at a text that loses both preambles. *)
Lemma build_summary_is_trimmed_suffix_bob :
  (exists pre s,
      strip "  I called Bob about the renewal " = pre ++ s
      /\ build_summary "  I called Bob about the renewal " "" "Bob" Call
         = capitalize_first s) /\
  strip (build_summary "  I called Bob about the renewal " "" "Bob" Call)
  = build_summary "  I called Bob about the renewal " "" "Bob" Call /\
  length (build_summary "  I called Bob about the renewal " "" "Bob" Call)
  <= length "  I called Bob about the renewal ".
Proof.
  apply (build_summary_is_trimmed_suffix
           "  I called Bob about the renewal " "" "Bob" Call).
  vm_compute. reflexivity.
Defined.

(** X11. The summary is empty exactly when the input text is blank
    (empty, or whitespace only): cutting the preambles never leaves a
    text that is not blank without a summary. *)
Theorem build_summary_empty_iff_blank (text account contact : str)
        (kind : activity) :
  build_summary text account contact kind = "" <-> strip text = "".
Proof.
  rewrite build_summary_unfold, capitalize_first_nil.
  destruct (stripped_summary_suffix text) as [pre Hpre].
  destruct (Nat.ltb_spec (length (stripped_summary text)) 10) as [H|H].
  - tauto.
  - split; intros E.
    + rewrite E in H. simpl in H. lia.
    + rewrite E in Hpre. symmetry in Hpre. apply app_eq_nil in Hpre.
      apply Hpre.
Qed.

Example summary_of_blank :
  build_summary "   " "" "" Note = ""
  /\ build_summary "I " "" "" Note = "I"
  /\ build_summary "called   " "" "" Call = "Called".
Proof. vm_compute. auto. Qed.

(* ================================================================= *)
(** ** The contact extractor and the cue-plus-name scanner *)

Section Removal.

Lemma replace_go_skip (old : str) (k : nat) (s : str) :
  replace_go old [] k s = replace_go old [] 0 (skipn k s).
Proof.
  revert k. induction s as [|c r IH]; intros [|k]; try reflexivity.
  cbn [replace_go skipn]. apply IH.
Qed.

Lemma skipn_app_length (A : Type) (l l' : list A) :
  skipn (length l) (l ++ l') = l'.
Proof. induction l as [|x l IH]; [reflexivity | exact IH]. Qed.

Lemma replace_go_removed (old : str) (n : nat) (s : str) :
  old <> [] -> length s <= n -> removed old s (replace_go old [] 0 s).
Proof.
  intros Ho. revert s. induction n as [|n IH]; intros [|c r] Hn;
    try (cbn in Hn; lia); try constructor.
  cbn [replace_go]. destruct (startswith old (c :: r)) eqn:E.
  - apply startswith_app in E. destruct E as [rest E].
    destruct old as [|a o']; [congruence|].
    injection E as <- ->.
    replace (length (c :: o') - 1) with (length o') by (cbn [length]; lia).
    cbn [app]. rewrite replace_go_skip, skipn_app_length.
    apply (@removed_here (c :: o')). apply IH.
    cbn [length] in Hn. rewrite length_app in Hn. lia.
  - apply removed_keep.
    + intros rest Hr.
      assert (H : startswith old (c :: r) = true)
        by (apply startswith_app; eauto).
      congruence.
    + apply IH. cbn [length] in Hn. lia.
Qed.

Lemma replace_removed (old s : str) :
  old <> [] -> removed old s (replace old [] s).
Proof.
  intros Ho. unfold replace. destruct old as [|a o']; [congruence|].
  apply (replace_go_removed (n := length s)); [exact Ho | lia].
Qed.

End Removal.

Section Scanner.

Lemma run_after_run (p : ascii -> bool) (s : str) :
  s = run p s ++ after_run p s.
Proof.
  induction s as [|x r IH]; [reflexivity|]. cbn [run after_run].
  destruct (p x); [|reflexivity]. cbn [app]. f_equal. exact IH.
Qed.

Lemma run_all (p : ascii -> bool) (s : str) :
  Forall (fun x => p x = true) (run p s).
Proof.
  induction s as [|x r IH]; [constructor|]. cbn [run].
  destruct (p x) eqn:E; constructor; assumption.
Qed.

Lemma runs_greedy_flat (A : Type) (f : cursor -> list A)
      (p : ascii -> bool) (g : option str) (ah sn : str) :
  (forall c, head_is p (ahead c) = true -> f c = []) ->
  flat_map f (runs false false p sn g ah) =
  f (Cursor (rev (run p ah) ++ sn) (after_run p ah) g).
Proof.
  intros Hf. revert sn. induction ah as [|x r IH]; intros sn.
  - cbn [runs flat_map run after_run rev app]. apply app_nil_r.
  - cbn [runs run after_run]. unfold in_class.
    destruct (p x) eqn:E.
    + rewrite flat_map_app. cbn [flat_map].
      rewrite (Hf (Cursor sn (x :: r) g)) by exact E.
      rewrite !app_nil_r, IH. cbn [rev]. rewrite <- app_assoc. reflexivity.
    + cbn [flat_map rev app]. apply app_nil_r.
Qed.

Lemma runs_greedy_head (p : ascii -> bool) (g : option str) (ah sn : str) :
  exists l,
    runs false false p sn g ah =
    Cursor (rev (run p ah) ++ sn) (after_run p ah) g :: l.
Proof.
  revert sn. induction ah as [|x r IH]; intros sn.
  - exists []. reflexivity.
  - cbn [runs run after_run]. unfold in_class. destruct (p x).
    + destruct (IH (x :: sn)) as [l ->]. eexists.
      cbn [rev app]. rewrite <- app_assoc. reflexivity.
    + exists []. reflexivity.
Qed.

Lemma hd_error_app_total (A : Type) (l l' : list A) :
  l <> [] -> hd_error (l ++ l') = hd_error l.
Proof. destruct l; [congruence | reflexivity]. Qed.

Lemma hd_first_of (A B : Type) (f : A -> list B) (l : list A) :
  hd_error (flat_map f l) = first_of (fun x => hd_error (f x)) l.
Proof.
  induction l as [|x l IH]; [reflexivity|]. cbn [flat_map first_of].
  destruct (f x); [exact IH | reflexivity].
Qed.

Lemma first_of_ext (A B : Type) (f g : A -> option B) (l : list A) :
  (forall x, f x = g x) -> first_of f l = first_of g l.
Proof.
  intros H. induction l as [|x l IH]; [reflexivity|].
  cbn [first_of]. rewrite H, IH. reflexivity.
Qed.

Lemma first_of_map (A B C : Type) (f : A -> option B) (h : B -> C)
      (l : list A) :
  option_map h (first_of f l) = first_of (fun x => option_map h (f x)) l.
Proof.
  induction l as [|x l IH]; [reflexivity|]. cbn [first_of].
  destruct (f x); [reflexivity | exact IH].
Qed.

(** *** The pieces of the pattern, each before a continuation [K] *)

Variable K : cursor -> list cursor.

Lemma upper_then (c : cursor) :
  flat_map K (rmatch false (Cls is_upper) c) =
  match ahead c with
  | x :: r =>
      if is_upper x then K (Cursor (x :: seen c) r (group1 c)) else []
  | [] => []
  end.
Proof.
  destruct c as [sn [|x r] g]; [reflexivity|].
  cbn [rmatch ahead seen group1]. unfold in_class.
  destruct (is_upper x); [|reflexivity].
  cbn [advance ahead seen group1 flat_map]. apply app_nil_r.
Qed.

Lemma rmatch_plus (p : ascii -> bool) (c : cursor) :
  rmatch false (plus false p) c =
  match ahead c with
  | x :: r =>
      if p x then runs false false p (x :: seen c) (group1 c) r else []
  | [] => []
  end.
Proof.
  destruct c as [sn [|x r] g]; [reflexivity|].
  unfold plus. cbn [rmatch ahead seen group1]. unfold in_class.
  destruct (p x); [|reflexivity].
  cbn [advance ahead seen group1 flat_map]. apply app_nil_r.
Qed.

(** A greedy [p+] before a continuation that needs a character outside
    [p]: the whole run is taken. *)
Lemma plus_then (p : ascii -> bool) (c : cursor) :
  (forall c', head_is p (ahead c') = true -> K c' = []) ->
  flat_map K (rmatch false (plus false p) c) =
  match run p (ahead c) with
  | [] => []
  | w => K (Cursor (rev w ++ seen c) (after_run p (ahead c)) (group1 c))
  end.
Proof.
  intros HK. rewrite rmatch_plus.
  destruct c as [sn [|x r] g]; [reflexivity|].
  cbn [ahead seen group1 run after_run].
  destruct (p x); [|reflexivity].
  rewrite runs_greedy_flat by exact HK.
  cbn [rev]. rewrite <- app_assoc. reflexivity.
Qed.

(** A greedy [p+] before a continuation that always goes on: the whole
    run is taken first. *)
Lemma plus_then_hd (p : ascii -> bool) (c : cursor) :
  (forall c', K c' <> []) ->
  hd_error (flat_map K (rmatch false (plus false p) c)) =
  match run p (ahead c) with
  | [] => None
  | w =>
      hd_error
        (K (Cursor (rev w ++ seen c) (after_run p (ahead c)) (group1 c)))
  end.
Proof.
  intros HK. rewrite rmatch_plus.
  destruct c as [sn [|x r] g]; [reflexivity|].
  cbn [ahead seen group1 run after_run].
  destruct (p x); [|reflexivity].
  destruct (runs_greedy_head p g r (x :: sn)) as [l ->].
  cbn [flat_map]. rewrite hd_error_app_total by apply HK.
  cbn [rev]. rewrite <- app_assoc. reflexivity.
Qed.

End Scanner.

Section NamePattern.

Lemma upper_not_space (x : ascii) : is_upper x = true -> is_space x = false.
Proof.
  destruct x as [[] [] [] [] [] [] [] []]; vm_compute; congruence.
Qed.

Lemma lower_not_space (x : ascii) : is_lower x = true -> is_space x = false.
Proof.
  destruct x as [[] [] [] [] [] [] [] []]; vm_compute; congruence.
Qed.

Lemma flat_map_single (A : Type) (l : list A) :
  flat_map (fun x => [x]) l = l.
Proof. induction l as [|x l IH]; [reflexivity|]. cbn. f_equal. exact IH. Qed.

Lemma upper_at_space (K : cursor -> list cursor) (c : cursor) :
  head_is is_space (ahead c) = true ->
  flat_map K (rmatch false (Cls is_upper) c) = [].
Proof.
  intros H. rewrite upper_then. destruct (ahead c) as [|x r]; [reflexivity|].
  cbn [head_is] in H. destruct (is_upper x) eqn:E; [|reflexivity].
  apply upper_not_space in E. congruence.
Qed.

Lemma rmatch_seq (ic : bool) (r1 r2 : re) (c : cursor) :
  rmatch ic (Seq r1 r2) c = flat_map (rmatch ic r2) (rmatch ic r1 c).
Proof. reflexivity. Qed.

(** [[A-Z][a-z]+] before a continuation that always goes on. *)
Lemma word_then (K : cursor -> list cursor) (c : cursor) :
  (forall c', K c' <> []) ->
  hd_error
    (flat_map K (rmatch false (Seq (Cls is_upper) (plus false is_lower)) c)) =
  match capital_word (ahead c) with
  | Some (w, rest) => hd_error (K (Cursor (rev w ++ seen c) rest (group1 c)))
  | None => None
  end.
Proof.
  intros HK. rewrite rmatch_seq, flat_map_flat_map, upper_then.
  unfold capital_word.
  destruct c as [sn [|x r] g]; [reflexivity|]. cbn [ahead seen group1].
  destruct (is_upper x); [|reflexivity].
  rewrite plus_then_hd by exact HK. cbn [ahead seen group1].
  destruct (run is_lower r) as [|y w]; [reflexivity|].
  cbn [rev]. rewrite <- !app_assoc. reflexivity.
Qed.

(** [\s+[A-Z][a-z]+] before a continuation that always goes on. *)
Lemma next_name_then (K : cursor -> list cursor) (c : cursor) :
  (forall c', K c' <> []) ->
  hd_error (flat_map K (rmatch false next_name c)) =
  match spaced_word (ahead c) with
  | Some (w, rest) => hd_error (K (Cursor (rev w ++ seen c) rest (group1 c)))
  | None => None
  end.
Proof.
  intros HK. unfold next_name. cbn [seq].
  rewrite rmatch_seq, flat_map_flat_map.
  rewrite plus_then.
  2:{ intros c' H. rewrite rmatch_seq, flat_map_flat_map.
      apply upper_at_space, H. }
  unfold spaced_word.
  destruct (run is_space (ahead c)) as [|y gap] eqn:Er; [reflexivity|].
  rewrite word_then by exact HK.
  cbn [ahead seen group1].
  destruct (capital_word (after_run is_space (ahead c))) as [[w rest]|];
    [|reflexivity].
  rewrite rev_app_distr, <- app_assoc. reflexivity.
Qed.

Lemma opt_total (r : re) (c : cursor) : rmatch false (Opt r) c <> [].
Proof. cbn [rmatch]. intros H. apply app_eq_nil in H. destruct H; discriminate. Qed.

Lemma hd_opt (r : re) (c : cursor) :
  hd_error (rmatch false (Opt r) c) =
  match hd_error (rmatch false r c) with
  | Some c' => Some c'
  | None => Some c
  end.
Proof. cbn [rmatch]. destruct (rmatch false r c); reflexivity. Qed.

Lemma seq_assoc (ic : bool) (a b d : re) (c : cursor) :
  rmatch ic (Seq a (Seq b d)) c = rmatch ic (Seq (Seq a b) d) c.
Proof.
  rewrite (rmatch_seq ic (Seq a b) d), !rmatch_seq, flat_map_flat_map.
  reflexivity.
Qed.

Lemma next_name_hd (c : cursor) :
  hd_error (rmatch false next_name c) =
  match spaced_word (ahead c) with
  | Some (w, rest) => Some (Cursor (rev w ++ seen c) rest (group1 c))
  | None => None
  end.
Proof.
  rewrite <- (flat_map_single (rmatch false next_name c)).
  rewrite next_name_then by discriminate.
  destruct (spaced_word (ahead c)) as [[w rest]|]; reflexivity.
Qed.

(** The body of [NAME_PATTERN]. *)
Lemma name_body_hd (c : cursor) :
  hd_error
    (rmatch false
       (seq [Cls is_upper; plus false is_lower;
             Opt (Seq next_name (Opt next_name))]) c) =
  match name_and_rest (ahead c) with
  | Some (n, rest) => Some (Cursor (rev n ++ seen c) rest (group1 c))
  | None => None
  end.
Proof.
  cbn [seq]. rewrite seq_assoc, rmatch_seq.
  rewrite word_then by apply opt_total.
  unfold name_and_rest.
  destruct (capital_word (ahead c)) as [[w1 r1]|]; [|reflexivity].
  rewrite hd_opt, rmatch_seq.
  rewrite next_name_then by apply opt_total. cbn [ahead seen group1].
  destruct (spaced_word r1) as [[w2 r2]|]; [|reflexivity].
  rewrite hd_opt, next_name_hd. cbn [ahead seen group1].
  destruct (spaced_word r2) as [[w3 r3]|].
  - rewrite !rev_app_distr, <- !app_assoc. reflexivity.
  - rewrite !rev_app_distr, <- !app_assoc. reflexivity.
Qed.

End NamePattern.

Section CueName.

Lemma capital_word_shape (s w r : str) :
  capital_word s = Some (w, r) -> capitalized w /\ s = w ++ r.
Proof.
  unfold capital_word. destruct s as [|c t]; [discriminate|].
  destruct (is_upper c) eqn:Ec; [|discriminate].
  pose proof (run_after_run is_lower t) as Ht.
  pose proof (run_all is_lower t) as Hl.
  destruct (run is_lower t) as [|y m] eqn:Er; [discriminate|].
  intros [= <- <-]. split.
  - exists c, (y :: m). repeat split; [exact Ec | discriminate | exact Hl].
  - cbn [app]. f_equal. exact Ht.
Qed.

Lemma spaced_word_shape (s gw r : str) :
  spaced_word s = Some (gw, r) ->
  s = gw ++ r /\
  exists gap w,
    gw = gap ++ w /\ gap <> [] /\ blank gap /\ capitalized w.
Proof.
  unfold spaced_word.
  pose proof (run_after_run is_space s) as Hs.
  pose proof (run_all is_space s) as Hb.
  destruct (run is_space s) as [|y gap] eqn:Er; [discriminate|].
  destruct (capital_word (after_run is_space s)) as [[w rest]|] eqn:Ew;
    [|discriminate].
  intros [= <- <-]. apply capital_word_shape in Ew. destruct Ew as [Hw Ea].
  split.
  - rewrite Hs at 1. rewrite Ea. cbn [app]. rewrite ?app_assoc. reflexivity.
  - exists (y :: gap), w. repeat split; [discriminate | exact Hb | exact Hw].
Qed.

Lemma name_and_rest_shape (s n r : str) :
  name_and_rest s = Some (n, r) ->
  s = n ++ r /\
  exists ws, capital_words n ws /\ 1 <= length ws <= 3.
Proof.
  unfold name_and_rest.
  destruct (capital_word s) as [[w1 r1]|] eqn:E1; [|discriminate].
  apply capital_word_shape in E1. destruct E1 as [H1 ->].
  destruct (spaced_word r1) as [[w2 r2]|] eqn:E2.
  - apply spaced_word_shape in E2.
    destruct E2 as [-> [g2 [v2 [-> [Hg2 [Hb2 Hv2]]]]]].
    destruct (spaced_word r2) as [[w3 r3]|] eqn:E3.
    + apply spaced_word_shape in E3.
      destruct E3 as [-> [g3 [v3 [-> [Hg3 [Hb3 Hv3]]]]]].
      intros [= <- <-]. split; [rewrite <- !app_assoc; reflexivity|].
      exists [w1; v2; v3]. split; [|cbn; lia].
      rewrite <- !app_assoc.
      apply words_more; try assumption.
      apply words_more; try assumption.
      apply words_one; assumption.
    + intros [= <- <-]. split; [rewrite <- !app_assoc; reflexivity|].
      exists [w1; v2]. split; [|cbn; lia].
      apply words_more; try assumption. apply words_one; assumption.
  - intros [= <- <-]. split; [reflexivity|].
    exists [w1]. split; [|cbn; lia]. apply words_one; assumption.
Qed.

Lemma hd_error_map (A B : Type) (f : A -> B) (l : list A) :
  hd_error (map f l) = option_map f (hd_error l).
Proof. destruct l; reflexivity. Qed.

Lemma firstn_app_length (A : Type) (l l' : list A) :
  firstn (length (l ++ l') - length l') (l ++ l') = l.
Proof.
  rewrite length_app, Nat.add_sub.
  induction l as [|x l IH]; [apply firstn_O|]. cbn. f_equal. exact IH.
Qed.

Lemma name_pattern_hd (c : cursor) :
  hd_error (rmatch false NAME_PATTERN c) =
  match name_and_rest (ahead c) with
  | Some (n, rest) => Some (Cursor (rev n ++ seen c) rest (Some n))
  | None => None
  end.
Proof.
  unfold NAME_PATTERN.
  change (rmatch false (Grp ?r) c)
    with (map (fun c' => Cursor (seen c') (ahead c') (Some (captured c c')))
              (rmatch false r c)).
  rewrite hd_error_map, name_body_hd.
  destruct (name_and_rest (ahead c)) as [[n rest]|] eqn:E; [|reflexivity].
  apply name_and_rest_shape in E. destruct E as [E _].
  cbn [option_map seen ahead]. unfold captured. cbn [ahead].
  rewrite E, firstn_app_length. reflexivity.
Qed.

Lemma name_pattern_at_space (c : cursor) :
  head_is is_space (ahead c) = true -> rmatch false NAME_PATTERN c = [].
Proof.
  intros H. destruct (rmatch false NAME_PATTERN c) as [|c' l] eqn:E;
    [reflexivity|].
  pose proof (name_pattern_hd c) as Hh. rewrite E in Hh. cbn [hd_error] in Hh.
  unfold name_and_rest, capital_word in Hh.
  destruct (ahead c) as [|x r]; [discriminate|]. cbn [head_is] in H.
  destruct (is_upper x) eqn:Eu; [|discriminate].
  apply upper_not_space in Eu. congruence.
Qed.

Lemma cue_phrases_pattern (c : cursor) :
  rmatch false
    (lits ["with"; "to"; "from"; "and"; "met"; "called"; "emailed";
           "spoke to"; "talked to"; "talked with"; "spoke with"]) c =
  flat_map (try_phrase c) cue_phrases.
Proof. apply rmatch_plain. reflexivity. Qed.

(** The pattern of the extractor, tried at one position, finds the name
    that the scanner [cue_name_at] finds there. *)
Lemma match_at_cue_name (sn ah : str) :
  option_map group
    (match_at false (Seq (hd (Lit "") CONTACT_PREFIXES) NAME_PATTERN) sn ah) =
  cue_name_at ah.
Proof.
  unfold match_at, CONTACT_PREFIXES. cbn [hd].
  rewrite !rmatch_seq, cue_phrases_pattern, !flat_map_flat_map.
  rewrite hd_first_of, first_of_map. unfold cue_name_at.
  apply first_of_ext. intros cue. unfold name_after, try_phrase.
  cbn [ahead]. destruct (startswith cue ah) eqn:Es; [|reflexivity].
  apply startswith_app in Es. destruct Es as [rest ->].
  cbn [flat_map]. rewrite app_nil_r, advance_app, skipn_app_length.
  rewrite plus_then by apply name_pattern_at_space.
  cbn [ahead seen group1].
  destruct (run is_space rest) as [|y gap]; [reflexivity|].
  rewrite name_pattern_hd. cbn [ahead]. unfold capital_name.
  destruct (name_and_rest (after_run is_space rest)) as [[n r]|];
    reflexivity.
Qed.

Lemma search_from_cue_name (ah sn : str) :
  option_map group
    (search_from false (Seq (hd (Lit "") CONTACT_PREFIXES) NAME_PATTERN)
                 sn ah) =
  first_cue_name ah.
Proof.
  revert sn. induction ah as [|x ah IH]; intros sn;
    cbn [search_from first_cue_name];
    rewrite <- (match_at_cue_name sn);
    destruct (match_at false _ sn _); try reflexivity.
  apply IH.
Qed.

End CueName.

Section NameWords.

Lemma capitalized_solid (w : str) :
  capitalized w -> w <> [] /\ Forall (fun x => is_space x = false) w.
Proof.
  intros [c [rest [-> [Hc [_ Hl]]]]]. split; [discriminate|].
  constructor; [apply upper_not_space, Hc|].
  eapply Forall_impl; [|exact Hl]. apply lower_not_space.
Qed.

Lemma split_go_solid (w cur t : str) :
  Forall (fun x => is_space x = false) w ->
  split_go cur (w ++ t) = split_go (rev w ++ cur) t.
Proof.
  intros H. revert cur. induction H as [|x w Hx _ IH]; intros cur;
    [reflexivity|].
  cbn [app split_go]. rewrite Hx, IH. cbn [rev].
  rewrite <- app_assoc. reflexivity.
Qed.

Lemma split_go_blank (g t : str) :
  blank g -> split_go [] (g ++ t) = split_go [] t.
Proof.
  intros H. induction H as [|x g Hx _ IH]; [reflexivity|].
  cbn [app split_go]. rewrite Hx. exact IH.
Qed.

Lemma split_go_gap (cur g t : str) :
  cur <> [] -> g <> [] -> blank g ->
  split_go cur (g ++ t) = rev cur :: split_go [] t.
Proof.
  intros Hc Hg Hb. destruct Hb as [|x g Hx Hb]; [congruence|].
  cbn [app split_go]. rewrite Hx.
  destruct cur; [congruence|]. rewrite split_go_blank by exact Hb.
  reflexivity.
Qed.

Lemma split_word (w : str) :
  w <> [] -> Forall (fun x => is_space x = false) w -> split w = [w].
Proof.
  intros Hn Hw. unfold split. rewrite <- (app_nil_r w) at 1.
  rewrite split_go_solid by exact Hw. rewrite app_nil_r.
  cbn [split_go]. destruct (rev w) eqn:E.
  - apply (f_equal (@rev ascii)) in E. rewrite rev_involutive in E.
    contradiction.
  - rewrite <- E, rev_involutive. reflexivity.
Qed.

Lemma split_word_gap (w g t : str) :
  w <> [] -> Forall (fun x => is_space x = false) w ->
  g <> [] -> blank g ->
  split (w ++ g ++ t) = w :: split t.
Proof.
  intros Hn Hw Hg Hb. unfold split.
  rewrite split_go_solid by exact Hw. rewrite app_nil_r.
  rewrite split_go_gap; try assumption.
  - rewrite rev_involutive. reflexivity.
  - intros E. apply (f_equal (@rev ascii)) in E.
    rewrite rev_involutive in E. contradiction.
Qed.

Lemma lstrip_solid (w : str) :
  Forall (fun x => is_space x = false) w -> lstrip w = w.
Proof.
  intros [|x l Hx _]; [reflexivity|]. cbn [lstrip]. rewrite Hx. reflexivity.
Qed.

Lemma rstrip_solid (w : str) :
  Forall (fun x => is_space x = false) w -> rstrip w = w.
Proof.
  intros H. unfold rstrip. rewrite lstrip_solid.
  - apply rev_involutive.
  - apply Forall_rev, H.
Qed.

Lemma capital_words_facts (n : str) (ws : list str) :
  capital_words n ws ->
  n <> [] /\ split n = ws /\ Forall capitalized ws
  /\ lstrip n = n /\ rstrip n = n.
Proof.
  induction 1 as [w Hw | w gap s ws Hw Hg Hb _ IH].
  - destruct (capitalized_solid Hw) as [Hn Hs].
    repeat split; auto using split_word, lstrip_solid, rstrip_solid.
  - destruct (capitalized_solid Hw) as [Hn Hs].
    destruct IH as [Hsn [Hsp [Hc [_ Hr]]]].
    split; [|split; [|split; [|split]]].
    + destruct w; [congruence | discriminate].
    + rewrite split_word_gap by assumption. rewrite Hsp. reflexivity.
    + constructor; assumption.
    + destruct w as [|x w]; [congruence|]. cbn [app lstrip].
      inversion Hs; subst.
      match goal with H : is_space x = false |- _ => rewrite H end.
      reflexivity.
    + rewrite !app_assoc. rewrite rstrip_app; rewrite Hr; congruence.
Qed.

Lemma capital_words_strip (n : str) (ws : list str) :
  capital_words n ws -> strip n = n.
Proof.
  intros H. apply capital_words_facts in H.
  destruct H as [_ [_ [_ [Hl Hr]]]]. unfold strip. rewrite Hl. exact Hr.
Qed.

(** What the scanner finds is in the text: a cue phrase, white space,
    and then one to three capitalized words. *)
Lemma first_cue_name_sound (s name : str) :
  first_cue_name s = Some name ->
  exists pre cue gap post ws,
    s = pre ++ cue ++ gap ++ name ++ post
    /\ In cue cue_phrases /\ gap <> [] /\ blank gap
    /\ capital_words name ws /\ 1 <= length ws <= 3.
Proof.
  assert (Hat : forall t, cue_name_at t = Some name ->
            exists cue gap post ws,
              t = cue ++ gap ++ name ++ post
              /\ In cue cue_phrases /\ gap <> [] /\ blank gap
              /\ capital_words name ws /\ 1 <= length ws <= 3).
  { intros t. unfold cue_name_at. generalize cue_phrases as cues.
    induction cues as [|cue cues IH]; [discriminate|]. cbn [first_of].
    destruct (name_after cue t) as [n|] eqn:E.
    - intros [= ->]. unfold name_after in E.
      destruct (startswith cue t) eqn:Es; [|discriminate].
      apply startswith_app in Es. destruct Es as [rest ->].
      rewrite skipn_app_length in E.
      pose proof (run_after_run is_space rest) as Hr.
      pose proof (run_all is_space rest) as Hb.
      destruct (run is_space rest) as [|y gap]; [discriminate|].
      unfold capital_name in E.
      destruct (name_and_rest (after_run is_space rest)) as [[n r]|] eqn:En;
        [|discriminate].
      injection E as ->. apply name_and_rest_shape in En.
      destruct En as [Ea [ws [Hws Hlen]]].
      exists cue, (y :: gap), r, ws.
      repeat split; try assumption; try discriminate; try lia.
      + rewrite Hr at 1. rewrite Ea. reflexivity.
      + left. reflexivity.
    - intros H. destruct (IH H) as [c [g [p [ws [H1 [H2 H3]]]]]].
      exists c, g, p, ws. split; [exact H1|]. split; [right; exact H2|].
      exact H3. }
  induction s as [|x s IH]; cbn [first_cue_name].
  - destruct (cue_name_at []) eqn:E; [|discriminate].
    intros [= ->]. destruct (Hat _ E) as [c [g [p [ws H]]]].
    exists [], c, g, p, ws. exact H.
  - destruct (cue_name_at (x :: s)) eqn:E.
    + intros [= ->]. destruct (Hat _ E) as [c [g [p [ws H]]]].
      exists [], c, g, p, ws. exact H.
    + intros H. destruct (IH H) as [pre [c [g [p [ws [H1 H2]]]]]].
      exists (x :: pre), c, g, p, ws. split; [|exact H2].
      cbn [app]. f_equal. exact H1.
Qed.

Lemma extract_contact_name_scan (text account_name : str) :
  extract_contact_name text account_name =
  match first_cue_name (cleaned_text text account_name) with
  | Some name =>
      if negb (member (hd "" (split name)) skip_words)
         && (2 <=? length (split name))
      then name else ""
  | None => ""
  end.
Proof.
  unfold extract_contact_name, CONTACT_PREFIXES.
  cbn [try_prefixes].
  pose proof (search_from_cue_name (cleaned_text text account_name) [])
    as Hs.
  unfold CONTACT_PREFIXES in Hs. cbn [hd] in Hs. unfold search.
  destruct (search_from false _ [] _) as [m|]; cbn [option_map] in Hs.
  - rewrite <- Hs.
    destruct (first_cue_name_sound _ (eq_sym Hs))
      as [_ [_ [_ [_ [ws [_ [_ [_ [_ [Hw _]]]]]]]]]].
    rewrite (capital_words_strip Hw).
    destruct (negb _ && _); reflexivity.
  - rewrite <- Hs. reflexivity.
Qed.

End NameWords.

Lemma cleaned_text_removed (text account_name : str) :
  (account_name = "" -> cleaned_text text account_name = text) /\
  (account_name <> "" ->
   removed account_name text (cleaned_text text account_name)).
Proof.
  unfold cleaned_text. split.
  - intros ->. reflexivity.
  - intros H. destruct account_name as [|a n]; [congruence|].
    cbn [truthy]. apply replace_removed. exact H.
Qed.

(** C6. For every ASCII text and account name to strip: the account name
    is removed from the text, occurrence by occurrence from the left (the
    text is kept when the name is empty); in what is left, the first place
    where a cue phrase, white space and a capitalized name of one to three
    words follow each other gives the candidate; the extractor returns the
    candidate when it has at least two words and its first word is not in
    the stoplist, and the empty string when the candidate fails a check or
    there is none.  A returned contact is thus two or three capitalized
    words that follow a cue phrase and white space in the cleaned text.
    The extractions listed in the specification hold. *)
Theorem extract_contact_name_first_match (text account_name : str) :
  is_ascii_text text = true ->
  (exists cleaned,
      (account_name = "" -> cleaned = text) /\
      (account_name <> "" -> removed account_name text cleaned) /\
      (forall name,
          first_cue_name cleaned = Some name -> qualifies name ->
          extract_contact_name text account_name = name) /\
      (forall name,
          first_cue_name cleaned = Some name -> ~ qualifies name ->
          extract_contact_name text account_name = "") /\
      (first_cue_name cleaned = None ->
       extract_contact_name text account_name = "") /\
      (extract_contact_name text account_name <> "" ->
       exists pre cue gap post,
         cleaned =
         pre ++ cue ++ gap ++ extract_contact_name text account_name ++ post
         /\ In cue cue_phrases /\ gap <> "" /\ blank gap
         /\ Forall capitalized (split (extract_contact_name text account_name))
         /\ 2 <= length (split (extract_contact_name text account_name)) <= 3
         /\ ~ In (hd "" (split (extract_contact_name text account_name)))
                 skip_words)) /\
  extract_contact_name "met with John Smith at SaskTel" "SaskTel"
  = "John Smith" /\
  extract_contact_name "talked to the team" "" = "" /\
  extract_contact_name "spoke with Brandt Group today" "Brandt Group" = "".
Proof.
  intros _. split; [|repeat split; vm_compute; reflexivity].
  exists (cleaned_text text account_name).
  destruct (cleaned_text_removed text account_name) as [H0 H1].
  split; [exact H0|]. split; [exact H1|].
  rewrite extract_contact_name_scan.
  generalize (cleaned_text text account_name) as cleaned. intros cleaned.
  split; [|split; [|split]].
  - intros name -> Hq. apply qualifies_checks in Hq. rewrite Hq. reflexivity.
  - intros name -> Hq.
    destruct (negb _ && _) eqn:E; [|reflexivity].
    apply qualifies_checks in E. contradiction.
  - intros ->. reflexivity.
  - destruct (first_cue_name cleaned) as [name|] eqn:E; [|congruence].
    destruct (negb _ && _) eqn:Eq; [|congruence]. intros _.
    apply qualifies_checks in Eq. destruct Eq as [Hlen Hskip].
    destruct (first_cue_name_sound _ E)
      as [pre [cue [gap [post [ws [Hs [Hc [Hg [Hb [Hw Hn]]]]]]]]]].
    apply capital_words_facts in Hw.
    destruct Hw as [_ [Hsp [Hcap _]]].
    exists pre, cue, gap, post. rewrite Hsp in *.
    repeat split; try assumption; lia.
Qed.

(** The theorem at the first extraction of the specification. *)
Lemma extract_contact_name_first_match_john :
  is_ascii_text "met with John Smith at SaskTel" = true /\
  exists cleaned,
    removed "SaskTel" "met with John Smith at SaskTel" cleaned /\
    (first_cue_name cleaned = None ->
     extract_contact_name "met with John Smith at SaskTel" "SaskTel" = "") /\
    extract_contact_name "met with John Smith at SaskTel" "SaskTel"
    = "John Smith".
Proof.
  split; [reflexivity|].
  destruct (extract_contact_name_first_match
              "met with John Smith at SaskTel" "SaskTel" eq_refl)
    as [[cleaned [_ [Hr [_ [_ [Hn _]]]]]] [He _]].
  exists cleaned. split; [apply Hr; discriminate|]. split; [exact Hn|].
  exact He.
Defined.
